(** * The adaptive multiplication quiz of [index.tsx]

    A shallow embedding of the quiz engine inside the [GameScreen] component:
    the question generator [generateQuestion], the two answer handlers
    [handleAnswer] and [handleTypedAnswerSubmit], the penalty table
    [getPenalty] and the effects that adjust [difficultyLevel] and detect the
    win.

    Modelling choices.
    - JavaScript numbers that the engine manipulates are integers far below
      2^53; they are values of [Z].  [NaN], which [parseInt] may return, is a
      separate constructor of [Num].
    - [Math.random()] is an oracle.  Its successive results are read from a
      tape of rationals; a tape entry that is not a binary64 number in [0,1)
      is not a result of [Math.random()], and a run that meets one (or
      reaches the end of the tape) is undefined ([None]).  A product such as
      [Math.random() * 10] is rounded to the nearest binary64 number, as the
      multiplication of JavaScript does, before [Math.floor] sees it.
    - The two rejection loops of [generateQuestion] have no bound in the
      source.  Every iteration reads the tape, so the length of the tape is
      enough fuel: a run is undefined only when the tape is exhausted.
    - [Array.prototype.sort] with the comparator [() => Math.random() - 0.5]
      belongs to the JavaScript engine.  It is a parameter of the development,
      known only to return a rearrangement of its argument.
    - React state is a record.  A handler runs in the closure of the latest
      render, so it reads the current record; the callback it hands to
      [setTimeout] keeps that closure and therefore reads the record as it was
      before the handler's updates.  Speech output does not feed back into the
      engine and is a no-op here.
    - The repository holds a second copy of the program, [part_000], with
      another audio pipeline.  Its engine is the same except that the loop
      body of [generateQuestion] has no "NEW RULE" step; that variant is
      [generateQuestion_part_000].
    - Around the engine: [App] with its selector, reset and victory screen is
      a second state machine over the one of [GameScreen]; [getButtonClass]
      and [isTypedAnswerCorrect] are functions of the state record; the
      utterance that [speakText] builds is a function of the list of
      installed voices, with strings read as code units below 256. *)

From Stdlib Require Import ZArith QArith Qround List Bool String Ascii Lia Permutation.
Import ListNotations.
Open Scope Z_scope.

(* ====================================================================== *)
(** ** Types *)

Inductive GameState := selecting_difficulty | playing | won.

Inductive Difficulty := Easy | Moderate | Hard.

Inductive Language := English | Hebrew | Russian.

Record Question := mkQuestion {
  num1 : Z;
  num2 : Z;
  answer : Z;
  options : list Z
}.

(** A JavaScript number as the answer handlers see it. *)
Inductive Num := NaN | Int (z : Z).

(** What is handed to [speakText]. *)
Inductive Utterance :=
| QuestionText (lang : Language) (n1 n2 : Z)
| Compliment (text : string).

Definition Difficulty_eqb (a b : Difficulty) : bool :=
  match a, b with
  | Easy, Easy | Moderate, Moderate | Hard, Hard => true
  | _, _ => false
  end.

Definition GameState_eqb (a b : GameState) : bool :=
  match a, b with
  | selecting_difficulty, selecting_difficulty | playing, playing | won, won => true
  | _, _ => false
  end.

(* ====================================================================== *)
(** ** The random oracle and the JavaScript primitives the engine calls *)

Module JS.

Definition tape := list Q.

(** A computation that reads [Math.random()] results from the tape. *)
Definition Rand (A : Type) : Type := tape -> option (A * tape).

Definition ret {A} (a : A) : Rand A := fun t => Some (a, t).

Definition bind {A B} (m : Rand A) (k : A -> Rand B) : Rand B :=
  fun t => match m t with
           | Some (a, t') => k a t'
           | None => None
           end.

Definition fail {A} : Rand A := fun _ => None.

(** *** Binary64 numbers

    A JavaScript number is an IEEE 754 binary64 value, and [x * y] is the
    exact product rounded to the nearest such value, the one with the even
    mantissa when two are equally near.  Only non-negative quotients of
    integers far below [2^1024] are multiplied here, so there is neither a
    sign nor an overflow to model. *)

(** [2^e <= a / b], for [b > 0] *)
Definition pow2Le (e a b : Z) : bool :=
  b * 2 ^ Z.max e 0 <=? a * 2 ^ Z.max (- e) 0.

(** [floor (log2 (a / b))], for [a, b > 0] *)
Definition binade (a b : Z) : Z :=
  let e := Z.log2 a - Z.log2 b in
  if pow2Le e a b then e else e - 1.

(** The integer nearest to [p / q], the even one of two at the same
    distance. *)
Definition roundHalfEven (p q : Z) : Z :=
  let f := p / q in
  let twice := 2 * (p mod q) in
  if twice <? q then f
  else if q <? twice then f + 1
  else if Z.even f then f else f + 1.

(** The binary64 number nearest to [a / b >= 0], as [(m, s)] with value
    [m * 2^s]: 53 bits from the leading one, or steps of [2^-1074] below
    [2^-1022]. *)
Definition toDouble (a b : Z) : Z * Z :=
  if a <=? 0 then (0, 0)
  else
    let s := Z.max (binade a b) (-1022) - 52 in
    (roundHalfEven (a * 2 ^ Z.max (- s) 0) (b * 2 ^ Z.max s 0), s).

(** [r >= 0] is a binary64 number: the scaled quotient that [toDouble]
    rounds is an integer already. *)
Definition isDouble (r : Q) : bool :=
  let a := Qnum r in
  let b := Zpos (Qden r) in
  let s := snd (toDouble a b) in
  (a * 2 ^ Z.max (- s) 0) mod (b * 2 ^ Z.max s 0) =? 0.

(** A result of [Math.random()]: a binary64 number in [0, 1). *)
Definition in_unit (r : Q) : bool :=
  Qle_bool 0 r && negb (Qle_bool 1 r) && isDouble r.

(** [Math.random()] *)
Definition Math_random : Rand Q :=
  fun t => match t with
           | r :: t' => if in_unit r then Some (r, t') else None
           | [] => None
           end.

(** [x < y] and [x > y] on the oracle's results *)
Definition Qltb (x y : Q) : bool := negb (Qle_bool y x).
Definition Qgtb (x y : Q) : bool := negb (Qle_bool x y).

(** [Math.floor(r * n)] and [Math.ceil(r * n)], for an integer [n]: the
    product is rounded to binary64 first. *)
Definition floorMul (r : Q) (n : Z) : Z :=
  let '(m, s) := toDouble (Qnum r * n) (Zpos (Qden r)) in Z.shiftl m s.

Definition ceilMul (r : Q) (n : Z) : Z :=
  let '(m, s) := toDouble (Qnum r * n) (Zpos (Qden r)) in - Z.shiftl (- m) s.

(** [arr[i]]: an index outside the array gives [undefined], which is outside
    the numeric model, so the run is undefined. *)
Definition index {A} (arr : list A) (i : Z) : Rand A :=
  if i <? 0 then fail
  else match nth_error arr (Z.to_nat i) with
       | Some v => ret v
       | None => fail
       end.

Definition len {A} (arr : list A) : Z := Z.of_nat (List.length arr).

(** [new Set([...])] keeps insertion order; [add] ignores a present value. *)
Definition Set_has (s : list Z) (x : Z) : bool := existsb (Z.eqb x) s.
Definition Set_add (s : list Z) (x : Z) : list Z :=
  if Set_has s x then s else s ++ [x].
Definition Set_size (s : list Z) : Z := len s.

(** White space as [String.prototype.trim] and [parseInt] skip it, on code
    units below 256: TAB, LF, VT, FF, CR, SP, NBSP. *)
Definition isWhiteSpace (c : ascii) : bool :=
  let n := Z.of_nat (nat_of_ascii c) in
  (n =? 9) || (n =? 10) || (n =? 11) || (n =? 12) || (n =? 13)
  || (n =? 32) || (n =? 160).

Fixpoint trimStart (s : string) : string :=
  match s with
  | EmptyString => EmptyString
  | String c s' => if isWhiteSpace c then trimStart s' else s
  end.

Fixpoint trimEnd (s : string) : string :=
  match s with
  | EmptyString => EmptyString
  | String c s' =>
      match trimEnd s' with
      | EmptyString => if isWhiteSpace c then EmptyString else String c EmptyString
      | r => String c r
      end
  end.

(** [s.trim()] *)
Definition trim (s : string) : string := trimEnd (trimStart s).

(** Truthiness of a string: only the empty string is falsy. *)
Definition truthy (s : string) : bool :=
  match s with EmptyString => false | _ => true end.

Definition digitValue (c : ascii) : option Z :=
  let n := Z.of_nat (nat_of_ascii c) in
  if (48 <=? n) && (n <=? 57) then Some (n - 48) else None.

(** The longest prefix of decimal digits, read as a number; [None] when the
    prefix is empty. *)
Fixpoint digits (acc : option Z) (s : string) : option Z :=
  match s with
  | EmptyString => acc
  | String c s' =>
      match digitValue c with
      | Some d => digits (Some (10 * match acc with Some a => a | None => 0 end + d)) s'
      | None => acc
      end
  end.

(** [parseInt(s, 10)]: skip leading white space, read an optional sign, then
    the longest run of decimal digits; [NaN] when there is no digit. *)
Definition parseInt (s : string) : Num :=
  let s1 := trimStart s in
  let '(sign, s2) :=
    match s1 with
    | String "-"%char r => (-1, r)
    | String "+"%char r => (1, r)
    | _ => (1, s1)
    end in
  match digits None s2 with
  | Some n => Int (sign * n)
  | None => NaN
  end.

(** [a === b?.answer] for a number [a]: [NaN] equals nothing, and a missing
    object gives [undefined], which no number equals. *)
Definition strictEq (a : Num) (b : option Z) : bool :=
  match a, b with
  | Int x, Some y => x =? y
  | _, _ => false
  end.

End JS.

Import JS.

Declare Scope rand_scope.
Delimit Scope rand_scope with rand.
Notation "x <- m ;; k" := (bind m (fun x => k))
  (at level 61, m at next level, right associativity) : rand_scope.
Notation "' pat <- m ;; k" := (bind m (fun x => match x with pat => k end))
  (at level 61, pat pattern, m at next level, right associativity) : rand_scope.
Open Scope rand_scope.

(** [Math.floor(Math.random() * n)] *)
Definition randomBelow (n : Z) : Rand Z :=
  r <- Math_random ;; ret (floorMul r n).

(** The audio collaborator: nothing of the engine depends on it. *)
Definition speakText (u : Utterance) (lang : Language) : Rand unit := ret tt.

(* ====================================================================== *)
(** ** Penalty table *)

Definition COMPLIMENTS : list string :=
  ["Good!"; "Excellent!"; "Great job!"; "You are doing well!"; "You are amazing!"]%string.

Definition HIGH_SCORE_COMPLIMENTS : list string :=
  ["You are almost there!"; "Keep up the good work!";
   "You are going to win soon!"; "You are so smart!"]%string.

Definition getPenalty (score : Z) : Z :=
  if score >=? 930 then 8
  else if score >=? 800 then 5
  else if score >=? 700 then 4
  else 2.

(* ====================================================================== *)
(** ** State of the [GameScreen] component *)

Record Game := mkGame {
  (* props, owned by [App] *)
  difficulty : Difficulty;
  language : Language;
  robuxScore : Z;
  gameState : GameState;
  (* useState *)
  currentQuestion : option Question;
  correctStreak : Z;
  wrongStreak : Z;
  correctAnswersCount : Z;
  feedback : option Num;            (* [incorrectSelection], when present *)
  isAnswered : bool;
  difficultyLevel : Z;
  showIntroMessage : bool;
  typedAnswer : string;
  lastQuestion : option (Z * Z)
}.

Definition setRobuxScore (f : Z -> Z) (g : Game) : Game :=
  mkGame (difficulty g) (language g) (f (robuxScore g)) (gameState g)
         (currentQuestion g) (correctStreak g) (wrongStreak g)
         (correctAnswersCount g) (feedback g) (isAnswered g)
         (difficultyLevel g) (showIntroMessage g) (typedAnswer g) (lastQuestion g).

Definition setGameState (s : GameState) (g : Game) : Game :=
  mkGame (difficulty g) (language g) (robuxScore g) s
         (currentQuestion g) (correctStreak g) (wrongStreak g)
         (correctAnswersCount g) (feedback g) (isAnswered g)
         (difficultyLevel g) (showIntroMessage g) (typedAnswer g) (lastQuestion g).

Definition setCurrentQuestion (q : option Question) (g : Game) : Game :=
  mkGame (difficulty g) (language g) (robuxScore g) (gameState g)
         q (correctStreak g) (wrongStreak g)
         (correctAnswersCount g) (feedback g) (isAnswered g)
         (difficultyLevel g) (showIntroMessage g) (typedAnswer g) (lastQuestion g).

Definition setCorrectStreak (f : Z -> Z) (g : Game) : Game :=
  mkGame (difficulty g) (language g) (robuxScore g) (gameState g)
         (currentQuestion g) (f (correctStreak g)) (wrongStreak g)
         (correctAnswersCount g) (feedback g) (isAnswered g)
         (difficultyLevel g) (showIntroMessage g) (typedAnswer g) (lastQuestion g).

Definition setWrongStreak (f : Z -> Z) (g : Game) : Game :=
  mkGame (difficulty g) (language g) (robuxScore g) (gameState g)
         (currentQuestion g) (correctStreak g) (f (wrongStreak g))
         (correctAnswersCount g) (feedback g) (isAnswered g)
         (difficultyLevel g) (showIntroMessage g) (typedAnswer g) (lastQuestion g).

Definition setCorrectAnswersCount (f : Z -> Z) (g : Game) : Game :=
  mkGame (difficulty g) (language g) (robuxScore g) (gameState g)
         (currentQuestion g) (correctStreak g) (wrongStreak g)
         (f (correctAnswersCount g)) (feedback g) (isAnswered g)
         (difficultyLevel g) (showIntroMessage g) (typedAnswer g) (lastQuestion g).

Definition setFeedback (fb : option Num) (g : Game) : Game :=
  mkGame (difficulty g) (language g) (robuxScore g) (gameState g)
         (currentQuestion g) (correctStreak g) (wrongStreak g)
         (correctAnswersCount g) fb (isAnswered g)
         (difficultyLevel g) (showIntroMessage g) (typedAnswer g) (lastQuestion g).

Definition setIsAnswered (b : bool) (g : Game) : Game :=
  mkGame (difficulty g) (language g) (robuxScore g) (gameState g)
         (currentQuestion g) (correctStreak g) (wrongStreak g)
         (correctAnswersCount g) (feedback g) b
         (difficultyLevel g) (showIntroMessage g) (typedAnswer g) (lastQuestion g).

Definition setDifficultyLevel (f : Z -> Z) (g : Game) : Game :=
  mkGame (difficulty g) (language g) (robuxScore g) (gameState g)
         (currentQuestion g) (correctStreak g) (wrongStreak g)
         (correctAnswersCount g) (feedback g) (isAnswered g)
         (f (difficultyLevel g)) (showIntroMessage g) (typedAnswer g) (lastQuestion g).

Definition setShowIntroMessage (b : bool) (g : Game) : Game :=
  mkGame (difficulty g) (language g) (robuxScore g) (gameState g)
         (currentQuestion g) (correctStreak g) (wrongStreak g)
         (correctAnswersCount g) (feedback g) (isAnswered g)
         (difficultyLevel g) b (typedAnswer g) (lastQuestion g).

Definition setTypedAnswer (s : string) (g : Game) : Game :=
  mkGame (difficulty g) (language g) (robuxScore g) (gameState g)
         (currentQuestion g) (correctStreak g) (wrongStreak g)
         (correctAnswersCount g) (feedback g) (isAnswered g)
         (difficultyLevel g) (showIntroMessage g) s (lastQuestion g).

Definition setLastQuestion (p : option (Z * Z)) (g : Game) : Game :=
  mkGame (difficulty g) (language g) (robuxScore g) (gameState g)
         (currentQuestion g) (correctStreak g) (wrongStreak g)
         (correctAnswersCount g) (feedback g) (isAnswered g)
         (difficultyLevel g) (showIntroMessage g) (typedAnswer g) p.

(* ====================================================================== *)
(** ** Question generation: the rule cascade *)

(** Priority 1, [robuxScore >= 800]. *)
Definition highScoreRule : Rand (Z * Z) :=
  let highFactors := [6; 7; 8; 9] in
  i <- randomBelow (len highFactors) ;;
  num1 <- index highFactors i ;;
  j <- randomBelow 7 ;;
  let num2 := j + 6 in
  r <- Math_random ;;
  if Qltb r (1 # 2) then ret (num2, num1) else ret (num1, num2).

(** [difficulty === Difficulty.Hard] *)
Definition hardRule : Rand (Z * Z) :=
  let factors := [6; 7; 8; 9] in
  i <- randomBelow (len factors) ;;
  num1 <- index factors i ;;
  j <- randomBelow (len factors) ;;
  num2 <- index factors j ;;
  ret (num1, num2).

(** [difficulty === Difficulty.Moderate] *)
Definition moderateRule : Rand (Z * Z) :=
  let factors := [4; 5; 6; 7] in
  i <- randomBelow (len factors) ;;
  num1 <- index factors i ;;
  j <- randomBelow 10 ;;
  let num2 := j + 1 in
  r <- Math_random ;;
  if Qltb r (1 # 2) then ret (num2, num1) else ret (num1, num2).

(** [difficulty === Difficulty.Easy && correctAnswersCount < 30] *)
Definition easyIntroRule : Rand (Z * Z) :=
  r1 <- Math_random ;;
  let factor1 := if Qltb r1 (1 # 2) then 2 else 3 in
  j <- randomBelow 10 ;;
  let factor2 := j + 1 in
  r3 <- Math_random ;;
  if Qgtb r3 (1 # 2) then ret (factor1, factor2) else ret (factor2, factor1).

Definition baseMaxNum (d : Difficulty) : Z :=
  if Difficulty_eqb d Easy then 4
  else if Difficulty_eqb d Moderate then 7 else 10.

(** [Math.floor(correctStreak / 3)] *)
Definition streakBonus (g : Game) : Z := correctStreak g / 3.

Definition robuxBonus (g : Game) : Z := if robuxScore g >=? 500 then 2 else 0.

Definition effectiveLevel (g : Game) : Z :=
  difficultyLevel g + streakBonus g + robuxBonus g.

Definition maxNum1 (g : Game) : Z := baseMaxNum (difficulty g) + effectiveLevel g.

Definition maxNum2 (g : Game) : Z :=
  baseMaxNum (difficulty g) + Z.max 0 (effectiveLevel g - 2).

(** The final [else]: the dynamic progression. *)
Definition fallbackRule (g : Game) : Rand (Z * Z) :=
  i <- randomBelow (maxNum1 g) ;;
  let num1 := i + 1 in
  j <- randomBelow (maxNum2 g) ;;
  let num2 := j + 1 in
  if (num1 =? 1) && (num2 =? 1)
  then k <- randomBelow 9 ;; ret (num1, k + 2)
  else ret (num1, num2).

(** The [if ... else if ... else] chain at the head of the loop body. *)
Definition ruleCascade (g : Game) : Rand (Z * Z) :=
  if robuxScore g >=? 800 then highScoreRule
  else if Difficulty_eqb (difficulty g) Hard then hardRule
  else if Difficulty_eqb (difficulty g) Moderate then moderateRule
  else if Difficulty_eqb (difficulty g) Easy && (correctAnswersCount g <? 30)
       then easyIntroRule
  else fallbackRule g.

(** "NEW RULE: No multiplication by 1 if score >= 100" *)
Definition noOnesRule (g : Game) (p : Z * Z) : Rand (Z * Z) :=
  let '(num1, num2) := p in
  if robuxScore g >=? 100 then
    num1' <- (if num1 =? 1 then k <- randomBelow 3 ;; ret (k + 2) else ret num1) ;;
    num2' <- (if num2 =? 1 then k <- randomBelow 3 ;; ret (k + 2) else ret num2) ;;
    ret (num1', num2')
  else ret (num1, num2).

(** One pass through the body of the [do ... while] loop of [index.tsx]. *)
Definition drawOperands (g : Game) : Rand (Z * Z) :=
  p <- ruleCascade g ;; noOnesRule g p.

(** [isRepeated] *)
Definition isRepeated (last : option (Z * Z)) (p : Z * Z) : bool :=
  match last with
  | None => false
  | Some (l1, l2) =>
      ((fst p =? l1) && (snd p =? l2)) || ((fst p =? l2) && (snd p =? l1))
  end.

(** [do { ... } while (isRepeated)], for a given loop body. *)
Fixpoint operandLoop (body : Rand (Z * Z)) (last : option (Z * Z)) (fuel : nat)
  : Rand (Z * Z) :=
  match fuel with
  | O => fail
  | S fuel' =>
      p <- body ;;
      if isRepeated last p then operandLoop body last fuel' else ret p
  end.

(** One distractor candidate, for the current contents of [options]. *)
Definition wrongAnswerFor (num1 num2 answer : Z) (options : list Z) : Rand Z :=
  i <- randomBelow 10 ;;
  let wrongAnswerOffset := i - 5 in
  r <- Math_random ;;
  let wrongAnswerMultiplier := if Qgtb r (1 # 2) then num1 else num2 in
  let wrongAnswer := answer + wrongAnswerOffset * wrongAnswerMultiplier in
  if (wrongAnswer =? answer) || (wrongAnswer <=? 0) then
    r1 <- Math_random ;;
    r2 <- Math_random ;;
    let wrongAnswer :=
      answer + (Set_size options * (if Qgtb r1 (1 # 2) then 1 else -1)
                * (ceilMul r2 3 + 1)) in
    if (wrongAnswer <=? 0) || (wrongAnswer =? answer)
    then ret (answer + Set_size options + 1)
    else ret wrongAnswer
  else ret wrongAnswer.

(** [while (options.size < 4) { ... options.add(wrongAnswer) }] *)
Fixpoint optionsLoop (num1 num2 answer : Z) (options : list Z) (fuel : nat)
  : Rand (list Z) :=
  if Set_size options <? 4 then
    match fuel with
    | O => fail
    | S fuel' =>
        wrongAnswer <- wrongAnswerFor num1 num2 answer options ;;
        optionsLoop num1 num2 answer (Set_add options wrongAnswer) fuel'
    end
  else ret options.

(** Pending [setTimeout] callbacks: each keeps the closure of the render
    its handler ran in. *)
Record Timer := mkTimer {
  clearsTypedAnswer : bool;       (* the callback of the typed handler *)
  closure : Game
}.

Record World := mkWorld {
  game : Game;
  timers : list Timer
}.

Inductive Event :=
| ClickStart
| ClickOption (option : Z)
| TypeText (text : string)
| SubmitForm
| TimerFires.

(** An engine's sort, for running the model: insertion sort, asking the
    comparator [() => Math.random() - 0.5] whether the new element goes
    before the one it meets. *)
Fixpoint insertRandomly (x : Z) (l : list Z) : Rand (list Z) :=
  match l with
  | [] => ret [x]
  | h :: tl =>
      r <- Math_random ;;
      if Qltb r (1 # 2) then ret (x :: h :: tl)
      else l' <- insertRandomly x tl ;; ret (h :: l')
  end.

Fixpoint insertionSortRandomly (l : list Z) : Rand (list Z) :=
  match l with
  | [] => ret []
  | x :: tl => sorted <- insertionSortRandomly tl ;; insertRandomly x sorted
  end.

Section Engine.

(** [arr.sort(() => Math.random() - 0.5)] of the JavaScript engine. *)
Variable sortRandomly : list Z -> Rand (list Z).

Hypothesis sortRandomly_permutes :
  forall l t l' t', sortRandomly l t = Some (l', t') -> Permutation l l'.

(** The part of [generateQuestion] that computes: operands from the closure
    [c] by the loop body [body], then the options. *)
Definition buildQuestion (body : Rand (Z * Z)) (c : Game) : Rand Question :=
  fun t =>
    ('(num1, num2) <- operandLoop body (lastQuestion c) (List.length t) ;;
     let answer := num1 * num2 in
     fun t1 =>
       (options <- optionsLoop num1 num2 answer [answer] (List.length t1) ;;
        shuffledOptions <- sortRandomly options ;;
        ret (mkQuestion num1 num2 answer shuffledOptions)) t1) t.

(** The state updates of [generateQuestion], applied to the state [now] the
    component has when the function runs. *)
Definition showQuestion (q : Question) (now : Game) : Game :=
  setFeedback None
    (setIsAnswered false
       (setCurrentQuestion (Some q)
          (setLastQuestion (Some (num1 q, num2 q)) now))).

(** [generateQuestion], created in the render whose state was [c] and run
    when the state is [now]. *)
Definition generateQuestion (c now : Game) : Rand Game :=
  q <- buildQuestion (drawOperands c) c ;;
  _ <- speakText (QuestionText (language c) (num1 q) (num2 q)) (language c) ;;
  ret (showQuestion q now).

(** The loop body of the copy of the program kept in [part_000] ends with the
    rule cascade: it has no "NEW RULE" step. *)
Definition generateQuestion_part_000 (c now : Game) : Rand Game :=
  q <- buildQuestion (ruleCascade c) c ;;
  _ <- speakText (QuestionText (language c) (num1 q) (num2 q)) (language c) ;;
  ret (showQuestion q now).

(* ---------------------------------------------------------------------- *)
(** *** Answer evaluation *)

(** The two branches shared by [handleAnswer] and [handleTypedAnswerSubmit]:
    [c] is the closure of the handler, [userAnswer] the submitted number. *)
Definition evaluate (c : Game) (userAnswer : Num) (g : Game) : Rand Game :=
  if strictEq userAnswer (option_map answer (currentQuestion c)) then
    let g := setRobuxScore (fun score => score + 5) g in
    let g := setCorrectStreak (fun streak => streak + 1) g in
    let g := setCorrectAnswersCount (fun count => count + 1) g in
    let g := setWrongStreak (fun _ => 0) g in
    let g := setFeedback None g in
    let complimentArray :=
      if robuxScore c >=? 950 then HIGH_SCORE_COMPLIMENTS else COMPLIMENTS in
    i <- randomBelow (len complimentArray) ;;
    randomCompliment <- index complimentArray i ;;
    _ <- speakText (Compliment randomCompliment) English ;;
    ret g
  else
    let penalty := getPenalty (robuxScore c) in
    let g := setRobuxScore (fun score => Z.max 0 (score - penalty)) g in
    let g := setCorrectStreak (fun _ => 0) g in
    let g := setWrongStreak (fun streak => streak + 1) g in
    let g := setFeedback (Some userAnswer) g in
    ret g.

Definition handleAnswer (w : World) (selectedOption : Z) : Rand World :=
  let c := game w in
  if isAnswered c then ret w
  else
    let g := setIsAnswered true c in
    g <- evaluate c (Int selectedOption) g ;;
    ret (mkWorld g (timers w ++ [mkTimer false c])).

Definition handleTypedAnswerSubmit (w : World) : Rand World :=
  let c := game w in
  if isAnswered c || negb (truthy (trim (typedAnswer c))) then ret w
  else
    let g := setIsAnswered true c in
    let userAnswer := parseInt (typedAnswer c) in
    g <- evaluate c userAnswer g ;;
    ret (mkWorld g (timers w ++ [mkTimer true c])).

Definition handleStartGame (w : World) : Rand World :=
  let c := game w in
  g <- generateQuestion c (setShowIntroMessage false c) ;;
  ret (mkWorld g (timers w)).

(* ---------------------------------------------------------------------- *)
(** *** Effects, run after the render that follows a state change *)

(** [useEffect(..., [robuxScore, setGameState])] *)
Definition winEffect (prev next : Game) : Game :=
  if negb (robuxScore prev =? robuxScore next) && (robuxScore next >=? 1000)
  then setGameState won next else next.

(** [useEffect(..., [wrongStreak])] *)
Definition wrongStreakEffect (prev next : Game) : Game :=
  if negb (wrongStreak prev =? wrongStreak next)
     && (wrongStreak next >? 0) && (Z.rem (wrongStreak next) 3 =? 0)
  then setDifficultyLevel (fun level => Z.max 0 (level - 1)) next
  else next.

Definition afterRender (prev next : Game) : Game :=
  wrongStreakEffect prev (winEffect prev next).

(** [useEffect(..., [difficulty])] *)
Definition difficultyEffect (g : Game) : Game :=
  let g := setDifficultyLevel
             (fun _ => match difficulty g with
                       | Easy => 0
                       | Moderate => 2
                       | Hard => 5
                       end) g in
  let g := setCorrectAnswersCount (fun _ => 0) g in
  let g := setCorrectStreak (fun _ => 0) g in
  setWrongStreak (fun _ => 0) g.

(** The [useState] initial values of a [GameScreen] that [App] renders with
    the given props. *)
Definition initialState (d : Difficulty) (lang : Language) (score : Z) : Game :=
  mkGame d lang score playing None 0 0 0 None false 0 true EmptyString None.

(** Mounting: first render, then every effect once. *)
Definition mount (d : Difficulty) (lang : Language) (score : Z) : World :=
  let g := initialState d lang score in
  let g := if robuxScore g >=? 1000 then setGameState won g else g in
  mkWorld (difficultyEffect g) [].

(* ---------------------------------------------------------------------- *)
(** *** The session as a transition system *)

Definition mounted (g : Game) : bool := GameState_eqb (gameState g) playing.

(** Which events the rendered screen lets through: the intro overlay shows
    only START; the option buttons exist below 900 points and are disabled
    once answered; from 900 on the form replaces them, its field disabled
    once answered and its button also while the text is blank. *)
Definition offered (g : Game) (e : Event) : bool :=
  match e with
  | TimerFires => true
  | ClickStart => mounted g && showIntroMessage g
  | ClickOption o =>
      mounted g && negb (showIntroMessage g)
      && match currentQuestion g with
         | Some q => (robuxScore g <? 900) && negb (isAnswered g)
                     && existsb (Z.eqb o) (options q)
         | None => false
         end
  | TypeText _ =>
      mounted g && negb (showIntroMessage g)
      && match currentQuestion g with
         | Some _ => negb (robuxScore g <? 900) && negb (isAnswered g)
         | None => false
         end
  | SubmitForm =>
      mounted g && negb (showIntroMessage g)
      && match currentQuestion g with
         | Some _ => negb (robuxScore g <? 900) && negb (isAnswered g)
                     && truthy (trim (typedAnswer g))
         | None => false
         end
  end.

(** The oldest pending timeout fires.  Its [generateQuestion] runs in any
    case; the state updates reach the component only while it is mounted. *)
Definition fireTimer (w : World) : Rand World :=
  match timers w with
  | [] => ret w
  | tm :: rest =>
      let now := if clearsTypedAnswer tm
                 then setTypedAnswer EmptyString (game w) else game w in
      g <- generateQuestion (closure tm) now ;;
      if mounted (game w) then ret (mkWorld g rest)
      else ret (mkWorld (game w) rest)
  end.

Definition dispatch (w : World) (e : Event) : Rand World :=
  match e with
  | ClickStart => handleStartGame w
  | ClickOption o => handleAnswer w o
  | TypeText s => ret (mkWorld (setTypedAnswer s (game w)) (timers w))
  | SubmitForm => handleTypedAnswerSubmit w
  | TimerFires => fireTimer w
  end.

Definition step (w : World) (e : Event) : Rand World :=
  if offered (game w) e then
    w' <- dispatch w e ;;
    ret (mkWorld (afterRender (game w) (game w')) (timers w'))
  else ret w.

Fixpoint run (w : World) (es : list Event) : Rand World :=
  match es with
  | [] => ret w
  | e :: es' => w' <- step w e ;; run w' es'
  end.

End Engine.

(* ====================================================================== *)
(** ** Vocabulary of the properties *)

(** [v] is the value that the oracle's result [r] selects among the integers
    [lo..hi] when [0,1) is cut into [hi - lo + 1] cells of equal width, the
    bounds of a cell being met up to the rounding of the product, a factor
    of [1 + 2^-53] at most: a uniform [r] gives a uniform [v]. *)
Definition drawnUniformly (r : Q) (lo hi v : Z) : Prop :=
  lo <= v <= hi /\
  (inject_Z (v - lo) <= r * inject_Z (hi - lo + 1) * (1 + (1 # 2 ^ 53)))%Q /\
  (r * inject_Z (hi - lo + 1) * (1 - (1 # 2 ^ 53)) < inject_Z (v - lo + 1))%Q.

(** What the fallback rule needs of the state it reads. *)
Definition levelsNonneg (g : Game) : Prop :=
  0 <= difficultyLevel g /\ 0 <= correctStreak g.

Definition wellFormed (q : Question) : Prop :=
  answer q = num1 q * num2 q /\
  In (answer q) (options q) /\
  List.length (options q) = 4%nat /\
  NoDup (options q) /\
  Forall (fun o => 0 < o) (options q).

(** The operand pair [p] differs from [q] as an unordered pair. *)
Definition differsUnordered (p q : Z * Z) : Prop :=
  p <> q /\ p <> (snd q, fst q).

(** An event that the screen lets through and that evaluates an answer. *)
Definition isEvaluation (g : Game) (e : Event) : bool :=
  offered g e && match e with
                 | ClickOption _ | SubmitForm => true
                 | _ => false
                 end.

(** The closures from which [generateQuestion] can run in a world: the one of
    the latest render and those kept by pending timeouts. *)
Definition closures (w : World) : list Game :=
  game w :: map closure (timers w).

Definition exactlyOneNonzero (g : Game) : Prop :=
  (correctStreak g <> 0 /\ wrongStreak g = 0) \/
  (correctStreak g = 0 /\ wrongStreak g <> 0).

(** What the distractor loop keeps true of [options]. *)
Definition optionsInv (ans : Z) (opts : list Z) : Prop :=
  NoDup opts /\ In ans opts /\ Forall (fun o => 0 < o) opts /\
  (List.length opts <= 4)%nat.

(** The state after a correct answer and after a wrong one. *)
Definition afterCorrect (g : Game) : Game :=
  setFeedback None
    (setWrongStreak (fun _ => 0)
       (setCorrectAnswersCount (fun count => count + 1)
          (setCorrectStreak (fun streak => streak + 1)
             (setRobuxScore (fun score => score + 5) g)))).

Definition afterWrong (c : Game) (userAnswer : Num) (g : Game) : Game :=
  setFeedback (Some userAnswer)
    (setWrongStreak (fun streak => streak + 1)
       (setCorrectStreak (fun _ => 0)
          (setRobuxScore
             (fun score => Z.max 0 (score - getPenalty (robuxScore c))) g))).

(** The number an evaluating event submits. *)
Definition submitted (g : Game) (e : Event) : Num :=
  match e with
  | ClickOption o => Int o
  | _ => parseInt (typedAnswer g)
  end.

Section Sessions.

Variable sortRandomly : list Z -> Rand (list Z).

(** [Reach w0 n w]: some sequence of events, each with some results of the
    oracle, leads from [w0] to [w], and [n] of them evaluated an answer. *)
Inductive Reach (w0 : World) : nat -> World -> Prop :=
| Reach_start : Reach w0 0%nat w0
| Reach_step n w e t w' t' :
    Reach w0 n w ->
    step sortRandomly w e t = Some (w', t') ->
    Reach w0 (if isEvaluation (game w) e then S n else n) w'.

End Sessions.

(** What [parseInt] reads its digits from: the text after leading white space
    and an optional sign. *)
Definition afterSign (s : string) : string :=
  match trimStart s with
  | String "-"%char r => r
  | String "+"%char r => r
  | s1 => s1
  end.



(* ====================================================================== *)
(** ** Concrete inputs *)

(** Thirteen results of the oracle: in the Hard tier they give 6 x 8, the
    distractors 64, 80, 56 and the order 56, 48, 64, 80. *)
Definition tapeA : tape :=
  [0; 1 # 2; 3 # 4; 1 # 8; 29 # 32; 5 # 16; 5 # 8; 0; 1 # 2; 3 # 4; 1 # 8;
   29 # 32; 5 # 16]%Q.

(** The eleven results after the operands of [tapeA]. *)
Definition tapeOptions : tape :=
  [3 # 4; 1 # 8; 29 # 32; 5 # 16; 5 # 8; 0; 1 # 2; 3 # 4; 1 # 8; 29 # 32;
   5 # 16]%Q.

Definition questionA : Question := mkQuestion 6 8 48 [56; 48; 64; 80].

Definition hardStart : World := mount Hard English 0.

(** After START in the Hard tier, on [tapeA]. *)
Definition hardPlaying : World :=
  mkWorld (mkGame Hard English 0 playing (Some questionA) 0 0 0 None false 5
                  false EmptyString (Some (6, 8))) [].

(** 6 x 8 on display, two wrong answers in a row so far. *)
Definition twoWrong : World :=
  mkWorld (mkGame Hard English 0 playing (Some questionA) 0 2 0 None false 5
                  false EmptyString (Some (6, 8))) [].

(** 6 x 8 on display at 995 points, with a text in the field. *)
Definition typing (text : string) : World :=
  mkWorld (mkGame Hard English 995 playing (Some questionA) 0 0 0 None false 5
                  false text (Some (6, 8))) [].

(** 6 x 8 answered, its timeout pending. *)
Definition answeredA : World :=
  mkWorld (mkGame Hard English 5 playing (Some questionA) 1 0 1 None true 5
                  false EmptyString (Some (6, 8)))
          [mkTimer false (game hardPlaying)].

(** Easy tier at 100 points, before the first question. *)
Definition easyAt100 : Game :=
  mkGame Easy English 100 playing None 0 0 0 None false 0 false EmptyString None.

(** [typing "50"] after the form is submitted: 50 is not 48. *)
Definition penalised : World :=
  mkWorld (mkGame Hard English 987 playing (Some questionA) 0 1 0
                  (Some (Int 50)) true 5 false "50"%string (Some (6, 8)))
          [mkTimer true (game (typing "50"%string))].

(** Results of the oracle that first repeat 6 x 8 and then give 7 x 8. *)
Definition tapeB : tape :=
  [0; 1 # 2; 1 # 4; 1 # 2; 3 # 4; 1 # 8; 29 # 32; 5 # 16; 5 # 8; 0; 1 # 2;
   3 # 4; 1 # 8; 29 # 32; 5 # 16]%Q.

Definition questionB : Question := mkQuestion 7 8 56 [64; 56; 72; 88].

(** [answeredA] after its timeout has fired on [tapeB]. *)
Definition playingB : World :=
  mkWorld (mkGame Hard English 5 playing (Some questionB) 1 0 1 None false 5
                  false EmptyString (Some (7, 8))) [].

(** [twoWrong] after a third wrong answer. *)
Definition threeWrong : World :=
  mkWorld (mkGame Hard English 0 playing (Some questionA) 0 3 0
                  (Some (Int 56)) true 4 false EmptyString (Some (6, 8)))
          [mkTimer false (game twoWrong)].

From Stdlib Require DecimalString DecimalFacts DecimalPos DecimalN DecimalZ.

(* ====================================================================== *)
(** ** More of [GameScreen] and [App] *)

(** The level a tier starts from, as the effect on [difficulty] sets it. *)
Definition tierLevel (d : Difficulty) : Z :=
  match d with
  | Easy => 0
  | Moderate => 2
  | Hard => 5
  end.

(** [option === feedback.incorrectSelection]: a missing field is
    [undefined], and [NaN] equals nothing. *)
Definition isIncorrectSelection (fb : option Num) (option : Z) : bool :=
  match fb with
  | Some (Int v) => option =? v
  | _ => false
  end.

(** [getButtonClass] *)
Definition getButtonClass (g : Game) (option : Z) : string :=
  if negb (isAnswered g) then "bg-blue-600 hover:bg-blue-700"%string
  else if strictEq (Int option) (option_map answer (currentQuestion g))
       then "bg-green-500 animate-pulse"%string
  else if isIncorrectSelection (feedback g) option then "bg-red-500"%string
  else "bg-blue-600 opacity-50"%string.


(** The compliment of a correct answer:
    [complimentArray[Math.floor(Math.random() * complimentArray.length)]]. *)
Definition randomCompliment (c : Game) : Rand string :=
  let complimentArray :=
    if robuxScore c >=? 950 then HIGH_SCORE_COMPLIMENTS else COMPLIMENTS in
  i <- randomBelow (len complimentArray) ;;
  index complimentArray i.

(** The text of an integer as JavaScript writes it, on an option button
    ([{option}]) and in a number field: the decimal digits, after a minus
    sign for a negative one. *)
Definition Number_toString (n : Z) : string :=
  DecimalString.NilZero.string_of_int (Z.to_int n).

(* ---------------------------------------------------------------------- *)
(** *** [App] *)

(** What [App] renders, with the state it owns.  On the selector that is the
    tier and the language chosen last and the score; a game screen (playing
    or won) is a [World], which carries them as props.  The timeouts of a
    screen unmounted by [handleReset] are not cleared: they are kept as
    orphans and still fire. *)
Inductive App :=
| Selecting (d : Difficulty) (lang : Language) (score : Z) (orphans : list Timer)
| OnScreen (w : World) (orphans : list Timer).

Inductive AppEvent :=
| SelectLanguage (lang : Language)
| SelectDifficulty (d : Difficulty)
| Reset                       (* the RESET button, or "Play Again" *)
| OnGameScreen (e : Event)
| OrphanTimerFires.

(** [useState] of [App] *)
Definition initialApp : App := Selecting Easy English 0 [].

Definition appGameState (a : App) : GameState :=
  match a with
  | Selecting _ _ _ _ => selecting_difficulty
  | OnScreen w _ => gameState (game w)
  end.

Definition appScore (a : App) : Z :=
  match a with
  | Selecting _ _ score _ => score
  | OnScreen w _ => robuxScore (game w)
  end.

Definition appOrphans (a : App) : list Timer :=
  match a with
  | Selecting _ _ _ orphans => orphans
  | OnScreen _ orphans => orphans
  end.

Definition withOrphans (a : App) (orphans : list Timer) : App :=
  match a with
  | Selecting d lang score _ => Selecting d lang score orphans
  | OnScreen w _ => OnScreen w orphans
  end.

Section AppMachine.

Variable sortRandomly : list Z -> Rand (list Z).

(** [handleSelectDifficulty] *)
Definition handleSelectDifficulty (a : App) (selectedDifficulty : Difficulty) : App :=
  match a with
  | Selecting _ lang score orphans =>
      OnScreen (mount selectedDifficulty lang score) orphans
  | OnScreen _ _ => a
  end.

(** [handleReset] *)
Definition handleReset (a : App) : App :=
  match a with
  | Selecting d lang _ orphans => Selecting d lang 0 orphans
  | OnScreen w orphans =>
      Selecting (difficulty (game w)) (language (game w)) 0
                (orphans ++ timers w)
  end.

(** One event of the application.  The language and tier buttons exist on
    the selector only; the events of the game screen reach [step]; a timeout
    of an unmounted screen runs its [generateQuestion], whose state updates
    are lost. *)
Definition appStep (a : App) (ev : AppEvent) : Rand App :=
  match ev with
  | SelectLanguage l =>
      match a with
      | Selecting d _ score orphans => ret (Selecting d l score orphans)
      | OnScreen _ _ => ret a
      end
  | SelectDifficulty d => ret (handleSelectDifficulty a d)
  | Reset => ret (handleReset a)
  | OnGameScreen e =>
      match a with
      | Selecting _ _ _ _ => ret a
      | OnScreen w orphans =>
          w' <- step sortRandomly w e ;; ret (OnScreen w' orphans)
      end
  | OrphanTimerFires =>
      match appOrphans a with
      | [] => ret a
      | tm :: rest =>
          _ <- generateQuestion sortRandomly (closure tm) (closure tm) ;;
          ret (withOrphans a rest)
      end
  end.

(** The states the application can be in. *)
Inductive AppReach : App -> Prop :=
| AppReach_start : AppReach initialApp
| AppReach_step a ev t a' t' :
    AppReach a ->
    appStep a ev t = Some (a', t') ->
    AppReach a'.

End AppMachine.

(* ---------------------------------------------------------------------- *)
(** *** [speakText]: the utterance handed to the speech synthesis *)

(** [s.includes(sub)], [s.startsWith(prefix)] and [s.toLowerCase()], the
    last on code units below 256. *)
Fixpoint includes (s sub : string) : bool :=
  String.prefix sub s
  || match s with
     | EmptyString => false
     | String _ s' => includes s' sub
     end.

Definition startsWith (s pre : string) : bool := String.prefix pre s.

Definition lowerChar (c : ascii) : ascii :=
  let n := nat_of_ascii c in
  if ((65 <=? n) && (n <=? 90))%nat
     || ((192 <=? n) && (n <=? 222) && negb (n =? 215))%nat
  then ascii_of_nat (n + 32) else c.

Fixpoint toLowerCase (s : string) : string :=
  match s with
  | EmptyString => EmptyString
  | String c s' => String (lowerChar c) (toLowerCase s')
  end.

(** A [SpeechSynthesisVoice], as far as [speakText] reads it. *)
Record Voice := mkVoice {
  voiceName : string;
  voiceLang : string
}.

(** The [SpeechSynthesisUtterance] that [speakText] speaks. *)
Record SpeechUtterance := mkSpeechUtterance {
  utteranceText : string;
  utteranceLang : string;
  utteranceVoice : option Voice;      (* [selectedVoice || null] *)
  utterancePitch : Q;
  utteranceRate : Q
}.

Definition preferredHeNames : list string :=
  ["Google"; "Hoda"; "Carmit"; "Sivan"]%string.

Definition preferredEnNames : list string :=
  ["Google US English"; "Samantha"; "Zira"; "Eva"]%string.

(** [v => names.some(name => v.name.includes(name))] *)
Definition hasNameAmong (names : list string) (v : Voice) : bool :=
  existsb (fun name => includes (voiceName v) name) names.

Definition isHebrewVoice (v : Voice) : bool :=
  String.eqb (voiceLang v) "he-IL" || String.eqb (voiceLang v) "he".

Definition isRussianVoice (v : Voice) : bool :=
  String.eqb (voiceLang v) "ru-RU" || String.eqb (voiceLang v) "ru".

Definition isEnglishVoice (v : Voice) : bool := startsWith (voiceLang v) "en".

(** The filter that [speakText] applies to the installed voices for a
    language. *)
Definition speaksLanguage (language : Language) (v : Voice) : bool :=
  match language with
  | Hebrew => isHebrewVoice v
  | Russian => isRussianVoice v
  | English => isEnglishVoice v
  end.

(** The body of [speakText] once the voices are there: the [switch] on the
    language and the assignments to the utterance. *)
Definition speakText_utterance (voices : list Voice) (text : string)
    (language : Language) : SpeechUtterance :=
  match language with
  | Hebrew =>
      let heVoices := filter isHebrewVoice voices in
      let selectedVoice := find (hasNameAmong preferredHeNames) heVoices in
      match selectedVoice, heVoices with
      | None, v :: _ =>
          mkSpeechUtterance text "he-IL" (Some v) (9 # 10) (17 # 20)
      | _, _ => mkSpeechUtterance text "he-IL" selectedVoice 1 1
      end
  | Russian =>
      let ruVoices := filter isRussianVoice voices in
      let selectedVoice :=
        match find (fun v => includes (voiceName v) "Google") ruVoices with
        | Some v => Some v
        | None => hd_error ruVoices
        end in
      mkSpeechUtterance text "ru-RU" selectedVoice 1 1
  | English =>
      let enVoices := filter isEnglishVoice voices in
      let selectedVoice := find (hasNameAmong preferredEnNames) enVoices in
      match selectedVoice, enVoices with
      | None, v :: _ =>
          if includes (toLowerCase (voiceName v)) "david"
             || includes (toLowerCase (voiceName v)) "desktop"
          then mkSpeechUtterance text "en-US" (Some v) (9 # 10) (9 # 10)
          else mkSpeechUtterance text "en-US" (Some v) 1 1
      | _, _ => mkSpeechUtterance text "en-US" selectedVoice 1 1
      end
  end.

(** The names [speakText] looks for first, per language. *)
Definition hasPreferredName (language : Language) (v : Voice) : bool :=
  match language with
  | Hebrew => hasNameAmong preferredHeNames v
  | Russian => includes (voiceName v) "Google"
  | English => hasNameAmong preferredEnNames v
  end.

Definition languageTag (language : Language) : string :=
  match language with
  | Hebrew => "he-IL"
  | Russian => "ru-RU"
  | English => "en-US"
  end.

(* ---------------------------------------------------------------------- *)
(** *** The render whose [generateQuestion] runs *)

(** [g] is the state of the render [c], or that state after the answer given
    in [c] was evaluated.  A timeout runs the [generateQuestion] of the
    render its handler ran in, so the state on display is up to one answer
    ahead of the state the function reads. *)
Definition oneAnswerBehind (c g : Game) : Prop :=
  (robuxScore g = robuxScore c /\
   correctAnswersCount g = correctAnswersCount c /\
   correctStreak g = correctStreak c)
  \/
  (robuxScore g = robuxScore c + 5 /\
   correctAnswersCount g = correctAnswersCount c + 1 /\
   correctStreak g = correctStreak c + 1)
  \/
  (robuxScore g = Z.max 0 (robuxScore c - getPenalty (robuxScore c)) /\
   correctAnswersCount g = correctAnswersCount c /\
   correctStreak g = 0).

(** [q] is a question that the [generateQuestion] of the render [c]
    computes, on some results of the oracle. *)
Definition generatedFrom (sortRandomly : list Z -> Rand (list Z))
    (c : Game) (q : Question) : Prop :=
  exists t t', buildQuestion sortRandomly (drawOperands c) c t = Some (q, t').

(* ====================================================================== *)
(** ** More concrete inputs *)

(** [typing "48"] after the form is submitted: the score reaches 1000. *)
Definition victory : World :=
  mkWorld (mkGame Hard English 1000 won (Some questionA) 1 0 1 None true 5
                  false "48"%string (Some (6, 8)))
          [mkTimer true (game (typing "48"%string))].

(** [hardPlaying] after a click on the wrong option 56. *)
Definition misclickedA : World :=
  mkWorld (mkGame Hard English 0 playing (Some questionA) 0 1 0
                  (Some (Int 56)) true 5 false EmptyString (Some (6, 8)))
          [mkTimer false (game hardPlaying)].

(** Voices as a Windows or macOS browser lists them. *)
Definition installedVoices : list Voice :=
  [mkVoice "Microsoft David Desktop - English (United States)" "en-US";
   mkVoice "Microsoft Asaf - Hebrew (Israel)" "he-IL";
   mkVoice "Microsoft Zira - English (United States)" "en-US";
   mkVoice "Milena" "ru-RU"].

(** Results of the oracle for one question each: 2 x 6 and 3 x 6 from the
    first rule of the Easy tier, 4 x 6 and 5 x 6 in the Moderate tier, 2 x 1
    from the first rule of the Easy tier, 14 x 7 from the fallback rule with
    ranges 14 and 12. *)
Definition easyBlockA : tape := [0; 1 # 2; 3 # 4]%Q ++ tapeOptions.
Definition easyBlockB : tape := [3 # 4; 1 # 2; 3 # 4]%Q ++ tapeOptions.
Definition moderateBlockA : tape := [0; 1 # 2; 3 # 4]%Q ++ tapeOptions.
Definition moderateBlockB : tape := [1 # 4; 1 # 2; 3 # 4]%Q ++ tapeOptions.
Definition easyBlockOne : tape := [0; 0; 3 # 4]%Q ++ tapeOptions.
Definition fallbackBlock : tape := [15 # 16; 1 # 2]%Q ++ tapeOptions.

(** START, then [rounds] times: the answer [a] to the first question, the
    timeout that shows the second, the answer [b] to it, the timeout that
    shows the first again; with the results of the oracle that this takes
    when both answers are correct. *)
Definition sessionEvents (a b : Z) (rounds : nat) : list Event :=
  ClickStart
  :: List.concat (repeat [ClickOption a; TimerFires; ClickOption b; TimerFires]
                         rounds).

Definition sessionTape (blockA blockB : tape) (rounds : nat) : tape :=
  blockA ++ List.concat (repeat ([0%Q] ++ blockB ++ [0%Q] ++ blockA) rounds).

(** The first question of a Moderate and of an Easy session on these
    results. *)
Definition moderatePlaying : World :=
  mkWorld (mkGame Moderate English 0 playing
                  (Some (mkQuestion 4 6 24 [30; 24; 36; 48]))
                  0 0 0 None false 2 false EmptyString (Some (4, 6))) [].

Definition easyPlaying : World :=
  mkWorld (mkGame Easy English 0 playing
                  (Some (mkQuestion 2 6 12 [18; 12; 24; 36]))
                  0 0 0 None false 0 false EmptyString (Some (2, 6))) [].

(* ====================================================================== *)
(** ** Facts about the oracle and the primitives *)

Lemma pow2_pos e : 0 < 2 ^ Z.max e 0.
Proof. apply Z.pow_pos_nonneg; lia. Qed.

Lemma pow2_split e : 0 <= e -> 2 ^ (e + 1) = 2 * 2 ^ e.
Proof. intros H. rewrite Z.pow_add_r by lia. lia. Qed.

(** [e <= log2 a - log2 b - 1] gives [2^e <= a / b]; 
    [log2 a - log2 b + 1 <= e] gives [a / b < 2^e]. *)
Lemma pow2Le_below e a b :
  0 < a -> 0 < b -> e <= Z.log2 a - Z.log2 b - 1 -> pow2Le e a b = true.
Proof.
  intros Ha Hb He. unfold pow2Le. apply Z.leb_le.
  pose proof (Z.log2_spec a Ha) as [La _].
  pose proof (Z.log2_spec b Hb) as [_ Lb].
  pose proof (Z.log2_nonneg a). pose proof (Z.log2_nonneg b).
  destruct (Z_le_dec 0 e).
  - rewrite (Z.max_l e 0), (Z.max_r (- e) 0) by lia. rewrite Z.pow_0_r, Z.mul_1_r.
    apply Z.le_trans with (2 ^ Z.log2 a); [|exact La].
    apply Z.le_trans with (2 ^ Z.succ (Z.log2 b) * 2 ^ e).
    + apply Z.mul_le_mono_nonneg_r; [apply Z.pow_nonneg; lia|].
      apply Z.lt_le_incl, Lb.
    + rewrite <- Z.pow_add_r by lia. apply Z.pow_le_mono_r; lia.
  - rewrite (Z.max_r e 0), (Z.max_l (- e) 0) by lia. rewrite Z.pow_0_r, Z.mul_1_r.
    apply Z.le_trans with (2 ^ Z.log2 a * 2 ^ (- e)).
    + rewrite <- Z.pow_add_r by lia.
      apply Z.le_trans with (2 ^ Z.succ (Z.log2 b)); [apply Z.lt_le_incl, Lb|].
      apply Z.pow_le_mono_r; lia.
    + apply Z.mul_le_mono_nonneg_r; [apply Z.pow_nonneg|]; lia.
Qed.

Lemma pow2Le_above e a b :
  0 < a -> 0 < b -> Z.log2 a - Z.log2 b + 1 <= e -> pow2Le e a b = false.
Proof.
  intros Ha Hb He. unfold pow2Le. apply Z.leb_gt.
  pose proof (Z.log2_spec a Ha) as [_ La].
  pose proof (Z.log2_spec b Hb) as [Lb _].
  pose proof (Z.log2_nonneg a). pose proof (Z.log2_nonneg b).
  destruct (Z_le_dec 0 e).
  - rewrite (Z.max_l e 0), (Z.max_r (- e) 0) by lia. rewrite Z.pow_0_r, Z.mul_1_r.
    apply Z.lt_le_trans with (2 ^ Z.succ (Z.log2 a)); [exact La|].
    apply Z.le_trans with (2 ^ Z.log2 b * 2 ^ e).
    + rewrite <- Z.pow_add_r by lia. apply Z.pow_le_mono_r; lia.
    + apply Z.mul_le_mono_nonneg_r; [apply Z.pow_nonneg|]; lia.
  - rewrite (Z.max_r e 0), (Z.max_l (- e) 0) by lia. rewrite Z.pow_0_r, Z.mul_1_r.
    apply Z.lt_le_trans with (2 ^ Z.succ (Z.log2 a) * 2 ^ (- e)).
    + apply Z.mul_lt_mono_pos_r; [apply Z.pow_pos_nonneg; lia | exact La].
    + rewrite <- Z.pow_add_r by lia.
      apply Z.le_trans with (2 ^ Z.log2 b); [|exact Lb].
      apply Z.pow_le_mono_r; lia.
Qed.

Lemma binade_spec a b :
  0 < a -> 0 < b ->
  pow2Le (binade a b) a b = true /\ pow2Le (binade a b + 1) a b = false.
Proof.
  intros Ha Hb. unfold binade.
  destruct (pow2Le (Z.log2 a - Z.log2 b) a b) eqn:E.
  - split; [exact E|]. apply pow2Le_above; lia.
  - split; [apply pow2Le_below; lia|].
    now replace (Z.log2 a - Z.log2 b - 1 + 1) with (Z.log2 a - Z.log2 b) by lia.
Qed.

Lemma roundHalfEven_spec p q :
  0 < q ->
  let m := roundHalfEven p q in
  2 * (m * q - p) <= q /\ 2 * (p - m * q) <= q /\ p / q <= m <= p / q + 1.
Proof.
  intros Hq m. subst m. unfold roundHalfEven.
  pose proof (Z.div_mod p q ltac:(lia)) as Hd.
  pose proof (Z.mod_pos_bound p q Hq) as Hm.
  destruct (2 * (p mod q) <? q) eqn:E1; [apply Z.ltb_lt in E1; nia|].
  apply Z.ltb_ge in E1.
  destruct (q <? 2 * (p mod q)) eqn:E2; [apply Z.ltb_lt in E2; nia|].
  apply Z.ltb_ge in E2.
  destruct (Z.even (p / q)); nia.
Qed.

(** Comparing [b * 2^(s + c)] with [a], whatever the sign of [s]. *)
Lemma shift_le a b s c N :
  0 < b -> 0 <= c -> - N <= s <= N ->
  (b * 2 ^ Z.max s 0 * 2 ^ c <= a * 2 ^ Z.max (- s) 0
   <-> b * 2 ^ (N + s + c) <= a * 2 ^ N).
Proof.
  intros Hb Hc HN.
  assert (0 < 2 ^ c) as Pc by (apply Z.pow_pos_nonneg; lia).
  destruct (Z_le_dec 0 s).
  - rewrite (Z.max_l s 0), (Z.max_r (- s) 0) by lia.
    rewrite Z.pow_0_r, Z.mul_1_r.
    replace (N + s + c) with (N + (s + c)) by lia.
    rewrite (Z.pow_add_r 2 N (s + c)), (Z.pow_add_r 2 s c) by lia.
    assert (0 < 2 ^ N) as PN by (apply Z.pow_pos_nonneg; lia).
    assert (0 < 2 ^ s) as Ps by (apply Z.pow_pos_nonneg; lia).
    remember (2 ^ N) as pN. remember (2 ^ s) as ps. remember (2 ^ c) as pc.
    split; intros H; nia.
  - rewrite (Z.max_r s 0), (Z.max_l (- s) 0) by lia.
    rewrite Z.pow_0_r, Z.mul_1_r.
    replace N with ((N + s) + (- s)) at 2 by lia.
    rewrite (Z.pow_add_r 2 (N + s) c), (Z.pow_add_r 2 (N + s) (- s)) by lia.
    assert (0 < 2 ^ (N + s)) as PN by (apply Z.pow_pos_nonneg; lia).
    assert (0 < 2 ^ (- s)) as Ps by (apply Z.pow_pos_nonneg; lia).
    remember (2 ^ (N + s)) as pN. remember (2 ^ (- s)) as ps.
    remember (2 ^ c) as pc.
    split; intros H; nia.
Qed.

Lemma pow2Le_shift e a b N :
  0 < b -> - N <= e <= N ->
  (pow2Le e a b = true <-> b * 2 ^ (N + e) <= a * 2 ^ N).
Proof.
  intros Hb HN. unfold pow2Le. rewrite Z.leb_le.
  pose proof (shift_le a b e 0 N Hb ltac:(lia) HN) as H.
  rewrite Z.pow_0_r, Z.mul_1_r, Z.add_0_r in H. exact H.
Qed.

(** The scaled fraction [p / q = (a / b) / 2^s] that [toDouble] rounds, and
    the error of the rounding. *)
Lemma toDouble_error a b m s :
  0 < a -> 0 < b -> toDouble a b = (m, s) ->
  let p := a * 2 ^ Z.max (- s) 0 in
  let q := b * 2 ^ Z.max s 0 in
  0 < q /\ 0 <= m /\
  2 * (m * q - p) <= q /\ 2 * (p - m * q) <= q /\ p / q <= m /\
  p < q * 2 ^ 53 /\
  (q * 2 ^ 52 <= p \/ (s = -1074 /\ p < q * 2 ^ 52)).
Proof.
  intros Ha Hb H p q. unfold toDouble in H.
  destruct (a <=? 0) eqn:E; [apply Z.leb_le in E; lia|].
  injection H as Hm Hs.
  assert (0 < q) as Hq.
  { subst q. apply Z.mul_pos_pos; [exact Hb | apply pow2_pos]. }
  assert (0 <= p) as Hp.
  { subst p. apply Z.mul_nonneg_nonneg; [lia|]. apply Z.lt_le_incl, pow2_pos. }
  rewrite Hs in Hm. fold p q in Hm.
  destruct (roundHalfEven_spec p q Hq) as (R1 & R2 & R3 & _).
  rewrite Hm in R1, R2, R3.
  assert (0 <= p / q) by (apply Z.div_pos; lia).
  split; [exact Hq|]. split; [lia|]. split; [exact R1|]. split; [exact R2|].
  split; [exact R3|].
  destruct (binade_spec a b Ha Hb) as [B1 B2].
  set (e := binade a b) in *.
  set (N := Z.abs e + 1100).
  apply (pow2Le_shift e a b N Hb ltac:(lia)) in B1.
  assert (~ b * 2 ^ (N + (e + 1)) <= a * 2 ^ N) as B2'.
  { intros C. apply (pow2Le_shift (e + 1) a b N Hb ltac:(lia)) in C. congruence. }
  assert (~ q * 2 ^ 53 <= p) as U.
  { intros C. apply B2'. subst p q.
    apply (shift_le a b s 53 N Hb ltac:(lia) ltac:(lia)) in C.
    destruct (Z_le_dec (-1022) e).
    - replace (N + (e + 1)) with (N + s + 53) by lia. exact C.
    - eapply Z.le_trans; [|exact C].
      apply Z.mul_le_mono_nonneg_l; [lia|]. apply Z.pow_le_mono_r; lia. }
  split; [lia|].
  destruct (Z_le_dec (-1022) e).
  - left. subst p q.
    apply (shift_le a b s 52 N Hb ltac:(lia) ltac:(lia)).
    replace (N + s + 52) with (N + e) by lia. exact B1.
  - right. split; [lia|].
    assert (~ q * 2 ^ 52 <= p); [|lia].
    intros C. apply B2'. subst p q.
    apply (shift_le a b s 52 N Hb ltac:(lia) ltac:(lia)) in C.
    eapply Z.le_trans; [|exact C].
    apply Z.mul_le_mono_nonneg_l; [lia|]. apply Z.pow_le_mono_r; lia.
Qed.

Lemma shiftl_cases m s :
  (0 <= s /\ Z.shiftl m s = m * 2 ^ s) \/
  (s < 0 /\ Z.shiftl m s = m / 2 ^ (- s)).
Proof.
  destruct (Z_le_dec 0 s).
  - left. split; [assumption | now apply Z.shiftl_mul_pow2].
  - right. split; [lia | apply Z.shiftl_div_pow2; lia].
Qed.

(** [Math.floor] of the rounded quotient: within a relative [2^-53] of the
    exact one. *)
Lemma floor_of_double a b m s :
  0 < a -> 0 < b -> toDouble a b = (m, s) ->
  let k := Z.shiftl m s in
  0 <= k /\
  k * b * 2 ^ 53 <= a * (2 ^ 53 + 1) /\
  a * (2 ^ 53 - 1) < (k + 1) * b * 2 ^ 53.
Proof.
  intros Ha Hb H k.
  destruct (toDouble_error a b m s Ha Hb H) as (Hq & Hm & R1 & R2 & _ & U & C).
  assert (2 ^ 53 = 2 * 2 ^ 52) as E53 by reflexivity.
  assert (0 < 2 ^ 52) as P52 by reflexivity.
  subst k. destruct (shiftl_cases m s) as [[Hs ->] | [Hs ->]].
  - rewrite (Z.max_l s 0), (Z.max_r (- s) 0) in * by lia.
    rewrite Z.pow_0_r, Z.mul_1_r in *.
    assert (0 < 2 ^ s) as Ps by (apply Z.pow_pos_nonneg; lia).
    destruct C as [C | [C _]]; [|lia].
    rewrite E53. remember (2 ^ 52) as K. remember (2 ^ s) as T.
    split; [nia|]. split; nia.
  - rewrite (Z.max_r s 0), (Z.max_l (- s) 0) in * by lia.
    rewrite Z.pow_0_r, Z.mul_1_r in *.
    assert (0 < 2 ^ (- s)) as Ps by (apply Z.pow_pos_nonneg; lia).
    pose proof (Z.div_mod m (2 ^ (- s)) ltac:(lia)) as Hd.
    pose proof (Z.mod_pos_bound m (2 ^ (- s)) Ps) as Hr.
    assert (0 <= m / 2 ^ (- s)) as Hk by (apply Z.div_pos; lia).
    split; [exact Hk|].
    destruct C as [C | [C1 C2]].
    + rewrite E53 in *. remember (2 ^ 52) as K. remember (2 ^ (- s)) as T.
      remember (m / T) as k. remember (m mod T) as r.
      split.
      * assert (k * T * b * (2 * K) <= a * T * (2 * K + 1)) by nia.
        apply Z.mul_le_mono_pos_l with T; [lia|]. nia.
      * assert (a * T * (2 * K - 1) < (k + 1) * T * b * (2 * K)) by nia.
        apply Z.mul_lt_mono_pos_l with T; [lia|]. nia.
    + assert (m <= 2 ^ 52) as Hm52 by nia.
      assert (2 ^ 53 <= 2 ^ (- s)) as Hbig.
      { apply Z.pow_le_mono_r; lia. }
      assert (m / 2 ^ (- s) = 0) as ->.
      { apply Z.div_small. lia. }
      rewrite E53 in *. remember (2 ^ 52) as K. remember (2 ^ (- s)) as T.
      split; nia.
Qed.

(** [Math.ceil] of the rounded quotient. *)
Lemma ceil_of_double a b m s :
  0 < a -> 0 < b -> toDouble a b = (m, s) ->
  let c := - Z.shiftl (- m) s in
  0 <= c /\ (c - 1) * b * 2 ^ 53 < a * (2 ^ 53 + 1).
Proof.
  intros Ha Hb H c.
  destruct (toDouble_error a b m s Ha Hb H) as (Hq & Hm & R1 & R2 & _ & U & C).
  assert (2 ^ 53 = 2 * 2 ^ 52) as E53 by reflexivity.
  assert (0 < 2 ^ 52) as P52 by reflexivity.
  subst c. destruct (shiftl_cases (- m) s) as [[Hs ->] | [Hs ->]].
  - rewrite (Z.max_l s 0), (Z.max_r (- s) 0) in * by lia.
    rewrite Z.pow_0_r, Z.mul_1_r in *.
    assert (0 < 2 ^ s) as Ps by (apply Z.pow_pos_nonneg; lia).
    destruct C as [C | [C _]]; [|lia].
    rewrite E53. remember (2 ^ 52) as K. remember (2 ^ s) as T.
    split; nia.
  - rewrite (Z.max_r s 0), (Z.max_l (- s) 0) in * by lia.
    rewrite Z.pow_0_r, Z.mul_1_r in *.
    assert (0 < 2 ^ (- s)) as Ps by (apply Z.pow_pos_nonneg; lia).
    pose proof (Z.div_mod (- m) (2 ^ (- s)) ltac:(lia)) as Hd.
    pose proof (Z.mod_pos_bound (- m) (2 ^ (- s)) Ps) as Hr.
    destruct C as [C | [C1 C2]].
    + rewrite E53 in *. remember (2 ^ 52) as K. remember (2 ^ (- s)) as T.
      remember (- m / T) as k. remember (- m mod T) as r.
      split; [nia|].
      assert ((- k - 1) * T * b * (2 * K) < a * T * (2 * K + 1)) by nia.
      apply Z.mul_lt_mono_pos_l with T; [lia|]. nia.
    + assert (m <= 2 ^ 52) as Hm52 by nia.
      assert (2 ^ 53 <= 2 ^ (- s)) as Hbig.
      { apply Z.pow_le_mono_r; lia. }
      rewrite E53 in *. remember (2 ^ 52) as K. remember (2 ^ (- s)) as T.
      remember (- m / T) as k. remember (- m mod T) as r.
      assert (- 1 <= k <= 0) by nia.
      split; nia.
Qed.

(** A result of [Math.random()] is at most [1 - 2^-53], the largest double
    below 1. *)
Lemma in_unit_spec r :
  in_unit r = true ->
  0 <= Qnum r /\ Qnum r * 2 ^ 53 <= Zpos (Qden r) * (2 ^ 53 - 1).
Proof.
  unfold in_unit. rewrite !andb_true_iff, negb_true_iff.
  intros [[H0 H1] Hd].
  destruct r as [a b]. unfold Qle_bool in H0, H1. simpl in H0, H1.
  apply Z.leb_le in H0. apply Z.leb_gt in H1.
  cbn [Qnum Qden]. split; [lia|].
  assert (0 <= a < Z.pos b) as Hlt by lia. clear H0 H1.
  destruct (Z.eq_dec a 0) as [-> | Hne]; [lia|].
  unfold isDouble in Hd. cbn [Qnum Qden] in Hd.
  destruct (toDouble a (Z.pos b)) as [m s] eqn:E. cbn [snd] in Hd.
  apply Z.eqb_eq in Hd.
  destruct (toDouble_error a (Z.pos b) m s ltac:(lia) ltac:(lia) E)
    as (Hq & _ & _ & _ & _ & U & C).
  assert (s <= -53) as Hs.
  { assert (s = Z.max (binade a (Z.pos b)) (-1022) - 52) as Es.
    { unfold toDouble in E.
      destruct (a <=? 0) eqn:E0; [apply Z.leb_le in E0; lia|].
      now injection E as _ <-. }
    destruct (binade_spec a (Z.pos b) ltac:(lia) ltac:(lia)) as [B1 _].
    assert (binade a (Z.pos b) < 0); [|lia].
    destruct (Z_lt_dec (binade a (Z.pos b)) 0); [assumption|].
    unfold pow2Le in B1. apply Z.leb_le in B1.
    rewrite (Z.max_l _ 0), (Z.max_r (- _) 0) in B1 by lia.
    assert (0 < 2 ^ binade a (Z.pos b)) by (apply Z.pow_pos_nonneg; lia).
    nia. }
  rewrite (Z.max_r s 0), (Z.max_l (- s) 0) in * by lia.
  rewrite Z.pow_0_r, Z.mul_1_r in *.
  apply Z.mod_divide in Hd; [|lia]. destruct Hd as [j Hj].
  destruct (Z.eq_dec s (-53)) as [-> | Hs'].
  - change (- -53) with 53 in *.
    remember (2 ^ 53) as K. assert (0 < K) by (subst K; reflexivity).
    assert (j < K) by nia. nia.
  - assert (2 ^ 54 <= 2 ^ (- s)) by (apply Z.pow_le_mono_r; lia).
    change (2 ^ 54) with (2 * 2 ^ 53) in *.
    remember (2 ^ 53) as K. remember (2 ^ (- s)) as T.
    assert (0 < K) by (subst K; reflexivity). nia.
Qed.

Lemma floorMul_spec r n :
  0 <= Qnum r -> 0 < n ->
  0 <= floorMul r n /\
  floorMul r n * Zpos (Qden r) * 2 ^ 53 <= Qnum r * n * (2 ^ 53 + 1) /\
  Qnum r * n * (2 ^ 53 - 1) < (floorMul r n + 1) * Zpos (Qden r) * 2 ^ 53.
Proof.
  intros Ha Hn. unfold floorMul.
  destruct (Z.eq_dec (Qnum r) 0) as [E | Hne].
  - rewrite E. cbn. lia.
  - destruct (toDouble (Qnum r * n) (Z.pos (Qden r))) as [m s] eqn:E.
    apply (floor_of_double _ _ m s); [nia | lia | exact E].
Qed.

Lemma floorMul_range r n : in_unit r = true -> 0 < n -> 0 <= floorMul r n < n.
Proof.
  intros H Hn. apply in_unit_spec in H as [Ha Hr].
  destruct (floorMul_spec r n Ha Hn) as (H0 & H1 & _).
  split; [exact H0|].
  remember (floorMul r n) as k. remember (Qnum r) as a.
  remember (Z.pos (Qden r)) as b.
  assert (0 < b) by (subst b; lia).
  remember (2 ^ 53) as K. assert (0 < K) by (subst K; reflexivity).
  assert (k * b * K * K <= a * K * n * (K + 1)) by nia.
  assert (a * K * n * (K + 1) <= b * (K - 1) * n * (K + 1)) by nia.
  nia.
Qed.

Lemma ceilMul_range r n : in_unit r = true -> 0 < n -> 0 <= ceilMul r n <= n.
Proof.
  intros H Hn. apply in_unit_spec in H as [Ha Hr]. unfold ceilMul.
  destruct (Z.eq_dec (Qnum r) 0) as [E | Hne].
  - rewrite E. cbn. lia.
  - destruct (toDouble (Qnum r * n) (Z.pos (Qden r))) as [m s] eqn:E.
    assert (0 < Qnum r * n) as Hpos by nia.
    destruct (ceil_of_double (Qnum r * n) (Z.pos (Qden r)) m s Hpos
                ltac:(lia) E) as [H0 H1].
    split; [exact H0|].
    remember (- Z.shiftl (- m) s) as c. remember (Qnum r) as a.
    remember (Z.pos (Qden r)) as b.
    assert (0 < b) by (subst b; lia).
    remember (2 ^ 53) as K. assert (0 < K) by (subst K; reflexivity).
    assert ((c - 1) * b * K * K < a * K * n * (K + 1)) by nia.
    assert (a * K * n * (K + 1) <= b * (K - 1) * n * (K + 1)) by nia.
    nia.
Qed.

(** [Math.floor(Math.random() * n) + lo] is a uniform draw from
    [lo .. lo + n - 1], up to the rounding of the product. *)
Lemma floorMul_uniform r n lo :
  in_unit r = true -> 0 < n ->
  drawnUniformly r lo (lo + n - 1) (floorMul r n + lo).
Proof.
  intros Hr Hn. pose proof (floorMul_range r n Hr Hn) as Hk.
  apply in_unit_spec in Hr as [Ha _].
  destruct (floorMul_spec r n Ha Hn) as (_ & H1 & H2).
  unfold drawnUniformly.
  replace (lo + n - 1 - lo + 1) with n by lia.
  replace (floorMul r n + lo - lo) with (floorMul r n) by lia.
  split; [lia|].
  remember (floorMul r n) as k. destruct r as [a b]. cbn [Qnum Qden] in *.
  unfold Qminus. unfold Qle, Qlt, Qmult, Qplus, Qopp, inject_Z.
  cbn [Qnum Qden].
  rewrite !Pos.mul_1_r, !Pos.mul_1_l, !Z.mul_1_r.
  rewrite !Pos2Z.inj_mul.
  change (Z.pos (2 ^ 53)) with (2 ^ 53) in *.
  remember (2 ^ 53) as K. assert (0 < K) by (subst K; reflexivity).
  split; nia.
Qed.

Lemma bind_Some {A B} (m : Rand A) (k : A -> Rand B) t b t' :
  bind m k t = Some (b, t') <->
  exists a t1, m t = Some (a, t1) /\ k a t1 = Some (b, t').
Proof.
  unfold bind. split.
  - destruct (m t) as [[a t1]|]; [|discriminate]. intros H. now exists a, t1.
  - intros (a & t1 & -> & H). exact H.
Qed.

Lemma ret_Some {A} (a b : A) t t' : ret a t = Some (b, t') <-> a = b /\ t = t'.
Proof. unfold ret. split; [intros [= -> ->] | intros [-> ->]]; auto. Qed.

Lemma Math_random_Some t r t' :
  Math_random t = Some (r, t') <-> t = r :: t' /\ in_unit r = true.
Proof.
  unfold Math_random. destruct t as [|x t0].
  - split; [discriminate | intros [[=] _]].
  - destruct (in_unit x) eqn:E; split.
    + intros [= -> ->]. auto.
    + intros [[= -> ->] _]. reflexivity.
    + discriminate.
    + intros [[= -> ->] H]. congruence.
Qed.

Lemma randomBelow_Some n t v t' :
  randomBelow n t = Some (v, t') <->
  exists r, t = r :: t' /\ in_unit r = true /\ v = floorMul r n.
Proof.
  unfold randomBelow. rewrite bind_Some. split.
  - intros (r & t1 & H1 & H2). apply Math_random_Some in H1 as [-> Hr].
    apply ret_Some in H2 as [<- <-]. now exists r.
  - intros (r & -> & Hr & ->). exists r, t'. split.
    + now apply Math_random_Some.
    + reflexivity.
Qed.

Lemma index_Some {A} (arr : list A) i t v t' :
  index arr i t = Some (v, t') ->
  t' = t /\ 0 <= i /\ nth_error arr (Z.to_nat i) = Some v.
Proof.
  unfold index. destruct (i <? 0) eqn:E; [discriminate|].
  apply Z.ltb_ge in E.
  destruct (nth_error arr (Z.to_nat i)) as [x|]; [|discriminate].
  intros [= -> ->]. auto.
Qed.

(** Decomposition of a run of a monadic program, one bind at a time. *)
Ltac run_inv H :=
  repeat match type of H with
  | bind _ _ _ = Some _ =>
      let a := fresh "a" in let t1 := fresh "t" in
      let H1 := fresh "H" in
      apply bind_Some in H as (a & t1 & H1 & H);
      try (apply Math_random_Some in H1 as [-> H1]);
      try (apply randomBelow_Some in H1 as (? & -> & ? & ->));
      try (apply index_Some in H1 as (-> & ? & H1))
  | ret _ _ = Some _ => apply ret_Some in H as [? ?]
  | (if ?c then _ else _) _ = Some _ => destruct c eqn:?
  | fail _ = Some _ => discriminate H
  end.

(* ====================================================================== *)
(** ** The generation rules, read off the tape *)

Lemma index_consecutive4 b i v :
  0 <= i -> nth_error [b; b + 1; b + 2; b + 3] (Z.to_nat i) = Some v ->
  v = i + b /\ i < 4.
Proof.
  intros Hi H.
  destruct (Z.to_nat i) as [|[|[|[|k]]]] eqn:E; simpl in H;
    try (injection H as <-; lia).
  destruct k; discriminate.
Qed.

Lemma pickFactor_uniform b r v :
  in_unit r = true -> 0 <= floorMul r 4 ->
  nth_error [b; b + 1; b + 2; b + 3] (Z.to_nat (floorMul r 4)) = Some v ->
  drawnUniformly r b (b + 3) v.
Proof.
  intros Hr Hi H. apply index_consecutive4 in H as [-> _]; [|exact Hi].
  replace (b + 3) with (b + 4 - 1) by lia.
  now apply floorMul_uniform.
Qed.

Lemma randomBelow_uniform r n lo hi :
  in_unit r = true -> hi = lo + n - 1 -> 0 < n ->
  drawnUniformly r lo hi (floorMul r n + lo).
Proof. intros Hr -> Hn. now apply floorMul_uniform. Qed.


Ltac norm_len := change (len [6; 7; 8; 9]) with 4 in *; change (len [4; 5; 6; 7]) with 4 in *.

Lemma highScoreRule_spec t p t' :
  highScoreRule t = Some (p, t') ->
  exists r1 r2 r3 a b,
    t = r1 :: r2 :: r3 :: t' /\
    p = (if Qltb r3 (1 # 2) then (b, a) else (a, b)) /\
    drawnUniformly r1 6 9 a /\ drawnUniformly r2 6 12 b.
Proof.
  unfold highScoreRule. intros H. run_inv H; subst; norm_len.
  all: do 5 eexists; split; [reflexivity|];
       split; [match goal with E : Qltb _ _ = _ |- _ => rewrite E; reflexivity end|];
       split; [apply (pickFactor_uniform 6); eassumption|];
       apply randomBelow_uniform; [eassumption | lia | lia].
Qed.

Lemma hardRule_spec t p t' :
  hardRule t = Some (p, t') ->
  exists r1 r2,
    t = r1 :: r2 :: t' /\
    drawnUniformly r1 6 9 (fst p) /\ drawnUniformly r2 6 9 (snd p).
Proof.
  unfold hardRule. intros H. run_inv H; subst; norm_len.
  do 2 eexists; split; [reflexivity|].
  split; apply (pickFactor_uniform 6); eassumption.
Qed.

Lemma moderateRule_spec t p t' :
  moderateRule t = Some (p, t') ->
  exists r1 r2 r3 a b,
    t = r1 :: r2 :: r3 :: t' /\
    p = (if Qltb r3 (1 # 2) then (b, a) else (a, b)) /\
    drawnUniformly r1 4 7 a /\ drawnUniformly r2 1 10 b.
Proof.
  unfold moderateRule. intros H. run_inv H; subst; norm_len.
  all: do 5 eexists; split; [reflexivity|];
       split; [match goal with E : Qltb _ _ = _ |- _ => rewrite E; reflexivity end|];
       split; [apply (pickFactor_uniform 4); eassumption|];
       apply randomBelow_uniform; [eassumption | lia | lia].
Qed.

Lemma easyIntroRule_spec t p t' :
  easyIntroRule t = Some (p, t') ->
  exists r1 r2 r3 a b,
    t = r1 :: r2 :: r3 :: t' /\
    p = (if Qgtb r3 (1 # 2) then (a, b) else (b, a)) /\
    a = (if Qltb r1 (1 # 2) then 2 else 3) /\ drawnUniformly r2 1 10 b.
Proof.
  unfold easyIntroRule. intros H. run_inv H; subst.
  all: do 5 eexists; split; [reflexivity|];
       split; [match goal with E : Qgtb _ _ = _ |- _ => rewrite E; reflexivity end|];
       split; [reflexivity|];
       apply randomBelow_uniform; [eassumption | lia | lia].
Qed.

Lemma baseMaxNum_cases d :
  baseMaxNum d = match d with Easy => 4 | Moderate => 7 | Hard => 10 end.
Proof. now destruct d. Qed.

Lemma effectiveLevel_nonneg g : levelsNonneg g -> 0 <= effectiveLevel g.
Proof.
  intros [H1 H2]. unfold effectiveLevel, streakBonus, robuxBonus.
  assert (0 <= correctStreak g / 3) by (apply Z.div_pos; lia).
  destruct (robuxScore g >=? 500); lia.
Qed.

Lemma maxNum_pos g : levelsNonneg g -> 4 <= maxNum1 g /\ 4 <= maxNum2 g.
Proof.
  intros H. apply effectiveLevel_nonneg in H.
  unfold maxNum1, maxNum2. rewrite baseMaxNum_cases.
  destruct (difficulty g); lia.
Qed.

(** The fallback rule, read off the tape. *)
Lemma fallbackRule_spec g t p t' :
  fallbackRule g t = Some (p, t') ->
  exists r1 r2 rest,
    t = r1 :: r2 :: rest /\ in_unit r1 = true /\ in_unit r2 = true /\
    let a := floorMul r1 (maxNum1 g) + 1 in
    let b := floorMul r2 (maxNum2 g) + 1 in
    fst p = a /\
    ((a = 1 /\ b = 1 /\
      exists r3, rest = r3 :: t' /\ drawnUniformly r3 2 10 (snd p))
     \/ (~ (a = 1 /\ b = 1) /\ rest = t' /\ snd p = b)).
Proof.
  unfold fallbackRule. intros H. run_inv H; subst.
  - do 3 eexists. split; [reflexivity|]. do 2 (split; [assumption|]).
    simpl. split; [reflexivity|]. left.
    apply andb_true_iff in Heqb as [E1 E2].
    apply Z.eqb_eq in E1, E2. do 2 (split; [assumption|]).
    eexists. split; [reflexivity|].
    apply randomBelow_uniform; [assumption | lia | lia].
  - do 3 eexists. split; [reflexivity|]. do 2 (split; [assumption|]).
    simpl. split; [reflexivity|]. right.
    apply andb_false_iff in Heqb.
    split; [|auto].
    intros [E1 E2]. destruct Heqb as [E|E]; apply Z.eqb_neq in E; lia.
Qed.

Lemma ruleCascade_pos g t p t' :
  levelsNonneg g -> ruleCascade g t = Some (p, t') -> 1 <= fst p /\ 1 <= snd p.
Proof.
  intros Hg. unfold ruleCascade.
  destruct (robuxScore g >=? 800).
  { intros H. apply highScoreRule_spec in H
      as (r1 & r2 & r3 & a & b & _ & -> & [Ha _] & [Hb _]).
    destruct (Qltb r3 (1 # 2)); simpl; lia. }
  destruct (Difficulty_eqb (difficulty g) Hard).
  { intros H. apply hardRule_spec in H as (r1 & r2 & _ & [Ha _] & [Hb _]). lia. }
  destruct (Difficulty_eqb (difficulty g) Moderate).
  { intros H. apply moderateRule_spec in H
      as (r1 & r2 & r3 & a & b & _ & -> & [Ha _] & [Hb _]).
    destruct (Qltb r3 (1 # 2)); simpl; lia. }
  destruct (Difficulty_eqb (difficulty g) Easy && (correctAnswersCount g <? 30)).
  { intros H. apply easyIntroRule_spec in H
      as (r1 & r2 & r3 & a & b & _ & -> & -> & [Hb _]).
    destruct (Qgtb r3 (1 # 2)), (Qltb r1 (1 # 2)); simpl; lia. }
  intros H. apply fallbackRule_spec in H
    as (r1 & r2 & rest & _ & Hr1 & Hr2 & Ha & Hb).
  destruct (maxNum_pos g Hg) as [M1 M2].
  pose proof (floorMul_range r1 (maxNum1 g) Hr1 ltac:(lia)).
  pose proof (floorMul_range r2 (maxNum2 g) Hr2 ltac:(lia)).
  destruct Hb as [(_ & _ & r3 & _ & [Hb _]) | (_ & _ & Hb)]; lia.
Qed.

Lemma noOnesRule_spec g p t p' t' :
  noOnesRule g p t = Some (p', t') ->
  (robuxScore g < 100 /\ p' = p /\ t' = t) \/
  (100 <= robuxScore g /\
   exists t1,
     ((fst p = 1 /\ exists r, t = r :: t1 /\ drawnUniformly r 2 4 (fst p'))
      \/ (fst p <> 1 /\ t1 = t /\ fst p' = fst p)) /\
     ((snd p = 1 /\ exists r, t1 = r :: t' /\ drawnUniformly r 2 4 (snd p'))
      \/ (snd p <> 1 /\ t' = t1 /\ snd p' = snd p))).
Proof.
  unfold noOnesRule. destruct p as [n1 n2]. intros H.
  destruct (robuxScore g >=? 100) eqn:E.
  - right. apply Z.geb_le in E. split; [lia|].
    apply bind_Some in H as (a & t1 & H1 & H).
    apply bind_Some in H as (b & t2 & H2 & H).
    apply ret_Some in H as [<- <-]. exists t1. simpl. split.
    + destruct (n1 =? 1) eqn:E1.
      * left. apply Z.eqb_eq in E1. split; [assumption|].
        run_inv H1; subst. eexists. split; [reflexivity|].
        apply randomBelow_uniform; [assumption | lia | lia].
      * right. apply Z.eqb_neq in E1. apply ret_Some in H1 as [<- <-]. auto.
    + destruct (n2 =? 1) eqn:E1.
      * left. apply Z.eqb_eq in E1. split; [assumption|].
        run_inv H2; subst. eexists. split; [reflexivity|].
        apply randomBelow_uniform; [assumption | lia | lia].
      * right. apply Z.eqb_neq in E1. apply ret_Some in H2 as [<- <-]. auto.
  - left. apply ret_Some in H as [<- <-].
    assert (robuxScore g < 100); [|auto].
    unfold Z.geb in E. destruct (robuxScore g ?= 100) eqn:C; try discriminate.
    now apply Z.compare_lt_iff in C.
Qed.

(* ====================================================================== *)
(** ** The two loops of [generateQuestion] *)

Lemma isRepeated_false last p :
  isRepeated last p = false ->
  forall q, last = Some q -> differsUnordered p q.
Proof.
  intros H [l1 l2] ->. destruct p as [n1 n2]. unfold isRepeated in H. simpl in H.
  apply orb_false_iff in H as [H1 H2].
  apply andb_false_iff in H1, H2. unfold differsUnordered. simpl.
  split; intros [= -> ->];
    [destruct H1 as [E|E] | destruct H2 as [E|E]];
    apply Z.eqb_neq in E; congruence.
Qed.

(** The loop returns the result of a pass of its body that was not a
    repetition. *)
Lemma operandLoop_spec body last fuel t p t' :
  operandLoop body last fuel t = Some (p, t') ->
  isRepeated last p = false /\ exists t0, body t0 = Some (p, t').
Proof.
  revert t. induction fuel as [|fuel IH]; intros t H; [discriminate|].
  simpl in H. apply bind_Some in H as (p0 & t1 & Hb & H).
  destruct (isRepeated last p0) eqn:E.
  - now apply IH in H.
  - apply ret_Some in H as [<- <-]. split; [assumption|]. now exists t.
Qed.

(** When the first pass is not a repetition the loop ends there. *)
Lemma operandLoop_first body last fuel t p t' :
  body t = Some (p, t') -> isRepeated last p = false ->
  operandLoop body last (S fuel) t = Some (p, t').
Proof.
  intros Hb E. simpl. unfold bind. now rewrite Hb, E.
Qed.

Lemma wrongAnswerFor_pos n1 n2 ans opts t w t' :
  0 < ans -> 0 <= Set_size opts ->
  wrongAnswerFor n1 n2 ans opts t = Some (w, t') -> 0 < w.
Proof.
  intros Ha Hs. unfold wrongAnswerFor. intros H.
  run_inv H; subst; lia.
Qed.

Lemma Set_add_spec s x :
  NoDup s -> NoDup (Set_add s x) /\
  (forall y, In y (Set_add s x) <-> In y s \/ y = x) /\
  (List.length s <= List.length (Set_add s x) <= S (List.length s))%nat.
Proof.
  intros Hs. unfold Set_add, Set_has.
  destruct (existsb (Z.eqb x) s) eqn:E.
  - apply existsb_exists in E as (y & Hy & Exy). apply Z.eqb_eq in Exy. subst y.
    split; [assumption|]. split; [|lia].
    intros y. split; [auto | intros [H | ->]; assumption].
  - assert (~ In x s) as Hx.
    { intros Hin. assert (existsb (Z.eqb x) s = true); [|congruence].
      apply existsb_exists. exists x. split; [assumption | apply Z.eqb_refl]. }
    split; [|split].
    + apply NoDup_app; [assumption | repeat constructor; intros [] | ].
      intros y Hy [<- | []]. contradiction.
    + intros y. rewrite in_app_iff. simpl. intuition congruence.
    + rewrite length_app. simpl. lia.
Qed.

Lemma optionsLoop_spec n1 n2 ans fuel : forall opts t res t',
  0 < ans -> optionsInv ans opts ->
  optionsLoop n1 n2 ans opts fuel t = Some (res, t') ->
  optionsInv ans res /\ List.length res = 4%nat.
Proof.
  induction fuel as [|fuel IH]; intros opts t res t' Ha (Hnd & Hin & Hpos & Hlen) H;
    simpl in H; unfold Set_size, len in H;
    destruct (Z.of_nat (List.length opts) <? 4) eqn:E.
  - discriminate.
  - apply ret_Some in H as [<- <-]. apply Z.ltb_ge in E.
    split; [repeat split; assumption | lia].
  - apply bind_Some in H as (w & t1 & Hw & H).
    apply wrongAnswerFor_pos in Hw; [|assumption | unfold Set_size, len; lia].
    destruct (Set_add_spec opts w Hnd) as (A1 & A2 & A3).
    apply Z.ltb_lt in E.
    apply IH in H; [assumption | assumption |].
    repeat split.
    + assumption.
    + apply A2. now left.
    + apply Forall_forall. intros y Hy. apply A2 in Hy as [Hy | ->]; [|assumption].
      rewrite Forall_forall in Hpos. now apply Hpos.
    + lia.
  - apply ret_Some in H as [<- <-]. apply Z.ltb_ge in E.
    split; [repeat split; assumption | lia].
Qed.

(* ====================================================================== *)
(** ** The length of the tape is enough fuel *)

Lemma operandLoop_more_fuel body last :
  (forall t p t', body t = Some (p, t') -> (List.length t' < List.length t)%nat) ->
  forall fuel t r,
    operandLoop body last fuel t = Some r ->
    forall fuel', (List.length t <= fuel')%nat ->
                  operandLoop body last fuel' t = Some r.
Proof.
  intros Hbody. induction fuel as [|fuel IH]; intros t r H fuel' Hf;
    [discriminate|].
  destruct r as [p t']. simpl in H.
  apply bind_Some in H as (p0 & t1 & Hb & H).
  pose proof (Hbody _ _ _ Hb) as Hlt.
  destruct fuel' as [|fuel']; [lia|].
  simpl. unfold bind. rewrite Hb.
  destruct (isRepeated last p0); [|exact H].
  apply IH; [exact H | lia].
Qed.

Lemma ruleCascade_consumes g t p t' :
  ruleCascade g t = Some (p, t') -> (List.length t' < List.length t)%nat.
Proof.
  unfold ruleCascade.
  destruct (robuxScore g >=? 800).
  { intros H. apply highScoreRule_spec in H as (? & ? & ? & ? & ? & -> & _).
    simpl. lia. }
  destruct (Difficulty_eqb (difficulty g) Hard).
  { intros H. apply hardRule_spec in H as (? & ? & -> & _). simpl. lia. }
  destruct (Difficulty_eqb (difficulty g) Moderate).
  { intros H. apply moderateRule_spec in H as (? & ? & ? & ? & ? & -> & _).
    simpl. lia. }
  destruct (Difficulty_eqb (difficulty g) Easy && (correctAnswersCount g <? 30)).
  { intros H. apply easyIntroRule_spec in H as (? & ? & ? & ? & ? & -> & _).
    simpl. lia. }
  intros H. apply fallbackRule_spec in H
    as (r1 & r2 & rest & -> & _ & _ & _ & Hb).
  destruct Hb as [(_ & _ & r3 & -> & _) | (_ & -> & _)]; simpl; lia.
Qed.

Lemma noOnesRule_consumes g p t p' t' :
  noOnesRule g p t = Some (p', t') -> (List.length t' <= List.length t)%nat.
Proof.
  intros H.
  apply noOnesRule_spec in H as [(_ & _ & ->) | (_ & t1 & H1 & H2)]; [lia|].
  assert (List.length t1 <= List.length t)%nat.
  { destruct H1 as [(_ & r & -> & _) | (_ & -> & _)]; simpl; lia. }
  destruct H2 as [(_ & r & -> & _) | (_ & -> & _)]; simpl in *; lia.
Qed.

Lemma drawOperands_consumes g t p t' :
  drawOperands g t = Some (p, t') -> (List.length t' < List.length t)%nat.
Proof.
  unfold drawOperands. intros H.
  apply bind_Some in H as (p0 & t1 & H1 & H2).
  apply ruleCascade_consumes in H1. apply noOnesRule_consumes in H2. lia.
Qed.

(** Whatever fuel lets the operand loop of [index.tsx] end, the length of the
    tape does too. *)
Lemma operandLoop_tape_is_enough g last fuel t r :
  operandLoop (drawOperands g) last fuel t = Some r ->
  operandLoop (drawOperands g) last (List.length t) t = Some r.
Proof.
  intros H. eapply operandLoop_more_fuel; [|exact H|lia].
  apply drawOperands_consumes.
Qed.

Lemma wrongAnswerFor_consumes n1 n2 ans opts t w t' :
  wrongAnswerFor n1 n2 ans opts t = Some (w, t') ->
  (List.length t' < List.length t)%nat.
Proof.
  unfold wrongAnswerFor. intros H. run_inv H; subst; simpl; lia.
Qed.

Lemma optionsLoop_more_fuel n1 n2 ans : forall fuel opts t r,
  optionsLoop n1 n2 ans opts fuel t = Some r ->
  forall fuel', (List.length t <= fuel')%nat ->
                optionsLoop n1 n2 ans opts fuel' t = Some r.
Proof.
  induction fuel as [|fuel IH]; intros opts t r H fuel' Hf.
  - simpl in H. destruct (Set_size opts <? 4) eqn:E; [discriminate|].
    destruct fuel'; simpl; rewrite E; exact H.
  - simpl in H. destruct (Set_size opts <? 4) eqn:E.
    + destruct r as [res t'].
      apply bind_Some in H as (w & t1 & Hw & H).
      pose proof (wrongAnswerFor_consumes _ _ _ _ _ _ _ Hw) as Hlt.
      destruct fuel' as [|fuel']; [lia|].
      simpl. rewrite E. unfold bind. rewrite Hw.
      apply IH; [exact H | lia].
    + destruct fuel'; simpl; rewrite E; exact H.
Qed.

(** The same for the distractor loop. *)
Lemma optionsLoop_tape_is_enough n1 n2 ans opts fuel t r :
  optionsLoop n1 n2 ans opts fuel t = Some r ->
  optionsLoop n1 n2 ans opts (List.length t) t = Some r.
Proof. intros H. eapply optionsLoop_more_fuel; [exact H | lia]. Qed.

(* ====================================================================== *)
(** ** [generateQuestion] *)

Ltac unfold_setters :=
  cbn [showQuestion setRobuxScore setGameState setCurrentQuestion
       setCorrectStreak setWrongStreak setCorrectAnswersCount setFeedback
       setIsAnswered setDifficultyLevel setShowIntroMessage setTypedAnswer
       setLastQuestion afterCorrect afterWrong
       difficulty language robuxScore gameState
       currentQuestion correctStreak wrongStreak correctAnswersCount feedback
       isAnswered difficultyLevel showIntroMessage typedAnswer lastQuestion
       game timers closure clearsTypedAnswer num1 num2 answer options] in *.

Lemma drawOperands_pos g t p t' :
  levelsNonneg g -> drawOperands g t = Some (p, t') -> 1 <= fst p /\ 1 <= snd p.
Proof.
  intros Hg H. unfold drawOperands in H.
  apply bind_Some in H as (p0 & t1 & Hc & Hn).
  apply ruleCascade_pos in Hc; [|assumption].
  apply noOnesRule_spec in Hn as [(_ & -> & _) | (_ & t2 & H1 & H2)];
    [assumption|].
  split.
  - destruct H1 as [(_ & r & _ & [Hr _]) | (_ & _ & ->)]; lia.
  - destruct H2 as [(_ & r & _ & [Hr _]) | (_ & _ & ->)]; lia.
Qed.

Lemma drawOperands_no_ones g t p t' :
  100 <= robuxScore g -> drawOperands g t = Some (p, t') ->
  fst p <> 1 /\ snd p <> 1.
Proof.
  intros Hg H. unfold drawOperands in H.
  apply bind_Some in H as (p0 & t1 & Hc & Hn).
  apply noOnesRule_spec in Hn as [(Hlt & _) | (_ & t2 & H1 & H2)]; [lia|].
  split.
  - destruct H1 as [(_ & r & _ & [Hr _]) | (Hne & _ & ->)]; lia.
  - destruct H2 as [(_ & r & _ & [Hr _]) | (Hne & _ & ->)]; lia.
Qed.

Section Generation.

Variable sortRandomly : list Z -> Rand (list Z).

(** The operands of a built question come from a pass of the loop body that
    was not a repetition. *)
Lemma buildQuestion_operands body c t q t' :
  buildQuestion sortRandomly body c t = Some (q, t') ->
  answer q = num1 q * num2 q /\
  isRepeated (lastQuestion c) (num1 q, num2 q) = false /\
  exists t0 t1, body t0 = Some ((num1 q, num2 q), t1).
Proof.
  unfold buildQuestion. intros H.
  apply bind_Some in H as ([n1 n2] & t1 & Hloop & H).
  apply bind_Some in H as (opts & t2 & Hopts & H).
  apply bind_Some in H as (sh & t3 & Hsort & H).
  apply ret_Some in H as [<- <-]. cbn [num1 num2 answer options].
  apply operandLoop_spec in Hloop as [Hrep [t0 Hbody]].
  split; [reflexivity|]. split; [assumption|]. now exists t0, t1.
Qed.

Lemma generateQuestion_spec c now t g' t' :
  generateQuestion sortRandomly c now t = Some (g', t') ->
  exists q, buildQuestion sortRandomly (drawOperands c) c t = Some (q, t') /\
            g' = showQuestion q now.
Proof.
  unfold generateQuestion, speakText. intros H.
  apply bind_Some in H as (q & t1 & Hq & H).
  apply bind_Some in H as ([] & t2 & Hs & H).
  apply ret_Some in Hs as [_ <-]. apply ret_Some in H as [<- <-].
  now exists q.
Qed.

Lemma generateQuestion_part_000_spec c now t g' t' :
  generateQuestion_part_000 sortRandomly c now t = Some (g', t') ->
  exists q, buildQuestion sortRandomly (ruleCascade c) c t = Some (q, t') /\
            g' = showQuestion q now.
Proof.
  unfold generateQuestion_part_000, speakText. intros H.
  apply bind_Some in H as (q & t1 & Hq & H).
  apply bind_Some in H as ([] & t2 & Hs & H).
  apply ret_Some in Hs as [_ <-]. apply ret_Some in H as [<- <-].
  now exists q.
Qed.

Hypothesis sortRandomly_permutes :
  forall l t l' t', sortRandomly l t = Some (l', t') -> Permutation l l'.

(** With a positive product the options are as they should be. *)
Lemma buildQuestion_options body c t q t' :
  buildQuestion sortRandomly body c t = Some (q, t') ->
  0 < answer q -> wellFormed q.
Proof.
  unfold buildQuestion. intros H.
  apply bind_Some in H as ([n1 n2] & t1 & Hloop & H).
  apply bind_Some in H as (opts & t2 & Hopts & H).
  apply bind_Some in H as (sh & t3 & Hsort & H).
  apply ret_Some in H as [<- <-].
  intros Hpos. unfold wellFormed. cbn [num1 num2 answer options] in *.
  apply optionsLoop_spec in Hopts as [(Hnd & Hin & Hall & _) Hlen];
    [ | assumption | ].
  - apply sortRandomly_permutes in Hsort.
    split; [reflexivity|].
    split; [eapply Permutation_in; eassumption|].
    split; [rewrite <- (Permutation_length Hsort); assumption|].
    split; [eapply Permutation_NoDup; eassumption|].
    eapply Permutation_Forall; eassumption.
  - repeat split.
    + repeat constructor. intros [].
    + now left.
    + repeat constructor. assumption.
    + simpl. lia.
Qed.

(** A question generated from a closure with non-negative levels. *)
Lemma generateQuestion_wellFormed c now t g' t' :
  levelsNonneg c ->
  generateQuestion sortRandomly c now t = Some (g', t') ->
  exists q, currentQuestion g' = Some q /\ wellFormed q.
Proof.
  intros Hc H. apply generateQuestion_spec in H as (q & Hq & ->).
  exists q. split; [reflexivity|].
  eapply buildQuestion_options; [eassumption|].
  apply buildQuestion_operands in Hq as (Ha & _ & t0 & t1 & Hb).
  apply drawOperands_pos in Hb; [|assumption].
  simpl in Hb. rewrite Ha. nia.
Qed.

(** The same for the loop body of [part_000]. *)
Lemma generateQuestion_part_000_wellFormed c now t g' t' :
  levelsNonneg c ->
  generateQuestion_part_000 sortRandomly c now t = Some (g', t') ->
  exists q, currentQuestion g' = Some q /\ wellFormed q.
Proof.
  intros Hc H. apply generateQuestion_part_000_spec in H as (q & Hq & ->).
  exists q. split; [reflexivity|].
  eapply buildQuestion_options; [eassumption|].
  apply buildQuestion_operands in Hq as (Ha & _ & t0 & t1 & Hb).
  apply ruleCascade_pos in Hb; [|assumption].
  simpl in Hb. rewrite Ha. nia.
Qed.

End Generation.

(* ====================================================================== *)
(** ** Answer evaluation and the effects *)

Lemma geb_ge a b : (a >=? b) = true <-> b <= a.
Proof. rewrite Z.geb_leb. apply Z.leb_le. Qed.

Lemma geb_lt a b : (a >=? b) = false <-> a < b.
Proof. rewrite Z.geb_leb. apply Z.leb_gt. Qed.

Lemma getPenalty_table s :
  (930 <= s -> getPenalty s = 8) /\
  (800 <= s < 930 -> getPenalty s = 5) /\
  (700 <= s < 800 -> getPenalty s = 4) /\
  (s < 700 -> getPenalty s = 2).
Proof.
  unfold getPenalty.
  destruct (s >=? 930) eqn:E1; [apply geb_ge in E1 | apply geb_lt in E1];
  destruct (s >=? 800) eqn:E2; [apply geb_ge in E2 | apply geb_lt in E2 | apply geb_ge in E2 | apply geb_lt in E2];
  destruct (s >=? 700) eqn:E3; [apply geb_ge in E3 | apply geb_lt in E3 | apply geb_ge in E3 | apply geb_lt in E3| apply geb_ge in E3 | apply geb_lt in E3| apply geb_ge in E3 | apply geb_lt in E3];
  repeat split; intros; lia.
Qed.

Lemma getPenalty_pos s : 2 <= getPenalty s <= 8.
Proof.
  unfold getPenalty.
  destruct (s >=? 930), (s >=? 800), (s >=? 700); lia.
Qed.

Lemma evaluate_cases c ua g t g' t' :
  evaluate c ua g t = Some (g', t') ->
  (strictEq ua (option_map answer (currentQuestion c)) = true /\
   g' = afterCorrect g)
  \/
  (strictEq ua (option_map answer (currentQuestion c)) = false /\
   g' = afterWrong c ua g /\ t' = t).
Proof.
  unfold evaluate, speakText. intros H.
  destruct (strictEq ua (option_map answer (currentQuestion c))).
  - left. split; [reflexivity|].
    apply bind_Some in H as (i & t1 & _ & H).
    apply bind_Some in H as (s & t2 & _ & H).
    apply bind_Some in H as ([] & t3 & _ & H).
    apply ret_Some in H as [<- _]. reflexivity.
  - right. apply ret_Some in H as [<- <-]. auto.
Qed.


Lemma afterRender_same prev next :
  robuxScore next = robuxScore prev -> wrongStreak next = wrongStreak prev ->
  afterRender prev next = next.
Proof.
  intros H1 H2. unfold afterRender, winEffect, wrongStreakEffect.
  rewrite H1, Z.eqb_refl. simpl. rewrite H2, Z.eqb_refl. reflexivity.
Qed.

(* ====================================================================== *)
(** ** Steps of the session *)

Section Steps.

Variable sortRandomly : list Z -> Rand (list Z).

Lemma offered_ClickOption g o :
  offered g (ClickOption o) = true ->
  mounted g = true /\ showIntroMessage g = false /\ isAnswered g = false /\
  exists q, currentQuestion g = Some q /\ In o (options q).
Proof.
  simpl. intros H.
  apply andb_true_iff in H as [H Hq]. apply andb_true_iff in H as [Hm Hi].
  apply negb_true_iff in Hi.
  destruct (currentQuestion g) as [q|]; [|discriminate].
  apply andb_true_iff in Hq as [Hq Ho]. apply andb_true_iff in Hq as [_ Ha].
  apply negb_true_iff in Ha.
  apply existsb_exists in Ho as (x & Hx & E). apply Z.eqb_eq in E. subst x.
  repeat split; try assumption. now exists q.
Qed.

Lemma offered_SubmitForm g :
  offered g SubmitForm = true ->
  mounted g = true /\ showIntroMessage g = false /\ isAnswered g = false /\
  truthy (trim (typedAnswer g)) = true.
Proof.
  simpl. intros H.
  apply andb_true_iff in H as [H Hq]. apply andb_true_iff in H as [Hm Hi].
  apply negb_true_iff in Hi.
  destruct (currentQuestion g) as [q|]; [|discriminate].
  apply andb_true_iff in Hq as [Hq Ht]. apply andb_true_iff in Hq as [_ Ha].
  apply negb_true_iff in Ha. auto.
Qed.

Lemma offered_ClickStart g :
  offered g ClickStart = true -> mounted g = true /\ showIntroMessage g = true.
Proof. simpl. intros H. now apply andb_true_iff in H. Qed.

(** What a step does, event by event. *)
Lemma step_cases w e t w' t' :
  step sortRandomly w e t = Some (w', t') ->
  (offered (game w) e = false /\ w' = w /\ t' = t)
  \/
  (offered (game w) e = true /\
   match e with
   | ClickStart =>
       exists q,
         buildQuestion sortRandomly (drawOperands (game w)) (game w) t = Some (q, t') /\
         w' = mkWorld (showQuestion q (setShowIntroMessage false (game w)))
                      (timers w)
   | ClickOption _ | SubmitForm =>
       isAnswered (game w) = false /\
       exists g1,
         evaluate (game w) (submitted (game w) e)
                  (setIsAnswered true (game w)) t = Some (g1, t') /\
         w' = mkWorld (afterRender (game w) g1)
                      (timers w ++ [mkTimer (match e with SubmitForm => true | _ => false end)
                                            (game w)])
   | TypeText s =>
       w' = mkWorld (setTypedAnswer s (game w)) (timers w) /\ t' = t
   | TimerFires =>
       (timers w = [] /\ w' = w /\ t' = t)
       \/
       (exists tm rest q,
          timers w = tm :: rest /\
          buildQuestion sortRandomly (drawOperands (closure tm)) (closure tm) t = Some (q, t') /\
          w' = if mounted (game w)
               then mkWorld (showQuestion q
                               (if clearsTypedAnswer tm
                                then setTypedAnswer EmptyString (game w)
                                else game w)) rest
               else mkWorld (game w) rest)
   end).
Proof.
  unfold step. destruct (offered (game w) e) eqn:Hoff.
  2:{ intros H. apply ret_Some in H as [<- <-]. left. auto. }
  intros H. right. split; [reflexivity|].
  apply bind_Some in H as (w1 & t1 & Hd & H).
  apply ret_Some in H as [<- <-].
  destruct e; simpl in Hd.
  - (* ClickStart *)
    unfold handleStartGame in Hd.
    apply bind_Some in Hd as (g1 & t2 & Hg & Hd).
    apply ret_Some in Hd as [<- <-].
    apply generateQuestion_spec in Hg as (q & Hq & ->).
    exists q. split; [assumption|].
    cbn [game timers]. rewrite afterRender_same; reflexivity.
  - (* ClickOption *)
    unfold handleAnswer in Hd.
    destruct (offered_ClickOption _ _ Hoff) as (_ & _ & Hna & _).
    rewrite Hna in Hd. split; [assumption|].
    apply bind_Some in Hd as (g1 & t2 & Hg & Hd).
    apply ret_Some in Hd as [<- <-].
    exists g1. split; [assumption | reflexivity].
  - (* TypeText *)
    apply ret_Some in Hd as [<- <-]. cbn [game timers].
    rewrite afterRender_same; auto.
  - (* SubmitForm *)
    unfold handleTypedAnswerSubmit in Hd.
    destruct (offered_SubmitForm _ Hoff) as (_ & _ & Hna & Htr).
    rewrite Hna, Htr in Hd. simpl in Hd. split; [assumption|].
    apply bind_Some in Hd as (g1 & t2 & Hg & Hd).
    apply ret_Some in Hd as [<- <-].
    exists g1. split; [assumption | reflexivity].
  - (* TimerFires *)
    unfold fireTimer in Hd. destruct (timers w) as [|tm rest] eqn:Ht.
    + apply ret_Some in Hd as [<- <-]. left.
      rewrite afterRender_same by reflexivity.
      destruct w; simpl in *; subst; auto.
    + right. apply bind_Some in Hd as (g1 & t2 & Hg & Hd).
      apply generateQuestion_spec in Hg as (q & Hq & ->).
      exists tm, rest, q. split; [reflexivity|]. 
      destruct (mounted (game w)); apply ret_Some in Hd as [<- <-];
        (split; [assumption|]); cbn [game timers];
        rewrite afterRender_same; try reflexivity.
      destruct (clearsTypedAnswer tm); reflexivity.
      destruct (clearsTypedAnswer tm); reflexivity.
Qed.

End Steps.

(* ====================================================================== *)
(** ** Effects after a render *)

Lemma afterRender_fields prev next :
  robuxScore (afterRender prev next) = robuxScore next /\
  correctStreak (afterRender prev next) = correctStreak next /\
  wrongStreak (afterRender prev next) = wrongStreak next /\
  correctAnswersCount (afterRender prev next) = correctAnswersCount next /\
  isAnswered (afterRender prev next) = isAnswered next /\
  lastQuestion (afterRender prev next) = lastQuestion next /\
  currentQuestion (afterRender prev next) = currentQuestion next /\
  showIntroMessage (afterRender prev next) = showIntroMessage next.
Proof.
  unfold afterRender, winEffect, wrongStreakEffect.
  destruct (negb (robuxScore prev =? robuxScore next) && (robuxScore next >=? 1000));
  match goal with |- context [if ?c then _ else _] => destruct c end;
  unfold_setters; repeat split; reflexivity.
Qed.

(** [difficultyLevel] after the effects: lowered, not below 0, exactly when
    [wrongStreak] has changed to a positive multiple of 3. *)
Lemma afterRender_difficultyLevel prev next :
  (wrongStreak next <> wrongStreak prev /\
   0 < wrongStreak next /\ wrongStreak next mod 3 = 0 ->
   difficultyLevel (afterRender prev next) = Z.max 0 (difficultyLevel next - 1))
  /\
  (~ (wrongStreak next <> wrongStreak prev /\
      0 < wrongStreak next /\ wrongStreak next mod 3 = 0) ->
   difficultyLevel (afterRender prev next) = difficultyLevel next).
Proof.
  unfold afterRender, wrongStreakEffect.
  assert (wrongStreak (winEffect prev next) = wrongStreak next) as Hw.
  { unfold winEffect. destruct (_ && _); reflexivity. }
  assert (difficultyLevel (winEffect prev next) = difficultyLevel next) as Hd.
  { unfold winEffect. destruct (_ && _); reflexivity. }
  rewrite Hw.
  destruct (negb (wrongStreak prev =? wrongStreak next)
            && (wrongStreak next >? 0)
            && (Z.rem (wrongStreak next) 3 =? 0)) eqn:E.
  - apply andb_true_iff in E as [E E3]. apply andb_true_iff in E as [E1 E2].
    split; [|intros Hn; exfalso; apply Hn].
    + intros _. unfold_setters. rewrite Hd. reflexivity.
    + apply negb_true_iff, Z.eqb_neq in E1. apply Z.gtb_lt in E2.
      apply Z.eqb_eq in E3. rewrite Z.rem_mod_nonneg in E3 by lia.
      repeat split; [congruence | lia | assumption].
  - split; [|intros _; assumption].
    intros (H1 & H2 & H3). exfalso.
    rewrite Z.rem_mod_nonneg, H3 in E by lia.
    assert (negb (wrongStreak prev =? wrongStreak next) = true) as E1.
    { apply negb_true_iff, Z.eqb_neq. congruence. }
    assert ((wrongStreak next >? 0) = true) as E2 by (apply Z.gtb_lt; lia).
    rewrite E1, E2 in E. discriminate.
Qed.

Lemma afterRender_gameState prev next :
  gameState (afterRender prev next) =
  if negb (robuxScore prev =? robuxScore next) && (robuxScore next >=? 1000)
  then won else gameState next.
Proof.
  unfold afterRender, winEffect, wrongStreakEffect.
  destruct (negb (robuxScore prev =? robuxScore next) && (robuxScore next >=? 1000));
  match goal with |- context [if ?c then _ else _] => destruct c end;
  reflexivity.
Qed.

Section Progress.

Variable sortRandomly : list Z -> Rand (list Z).

(** A step that evaluates an answer. *)
Lemma step_evaluation w e t w' t' :
  step sortRandomly w e t = Some (w', t') ->
  isEvaluation (game w) e = true ->
  isAnswered (game w) = false /\
  timers w' = timers w ++ [mkTimer (match e with SubmitForm => true | _ => false end)
                                   (game w)] /\
  ((strictEq (submitted (game w) e)
             (option_map answer (currentQuestion (game w))) = true /\
    game w' = afterRender (game w) (afterCorrect (setIsAnswered true (game w))))
   \/
   (strictEq (submitted (game w) e)
             (option_map answer (currentQuestion (game w))) = false /\
    game w' = afterRender (game w)
                (afterWrong (game w) (submitted (game w) e)
                            (setIsAnswered true (game w))) /\
    t' = t)).
Proof.
  intros Hs He. unfold isEvaluation in He.
  apply andb_true_iff in He as [Hoff Hk].
  apply step_cases in Hs as [(Hno & _) | (_ & Hs)]; [congruence|].
  destruct e; try discriminate; destruct Hs as (Hna & g1 & Hev & ->);
    (split; [assumption|]); (split; [reflexivity|]); cbn [game];
    apply evaluate_cases in Hev as [(Hc & ->) | (Hc & -> & ->)]; auto.
Qed.

(** A step that evaluates nothing leaves score, streaks, count and level. *)
Lemma step_other w e t w' t' :
  step sortRandomly w e t = Some (w', t') ->
  isEvaluation (game w) e = false ->
  robuxScore (game w') = robuxScore (game w) /\
  correctStreak (game w') = correctStreak (game w) /\
  wrongStreak (game w') = wrongStreak (game w) /\
  correctAnswersCount (game w') = correctAnswersCount (game w) /\
  difficultyLevel (game w') = difficultyLevel (game w) /\
  gameState (game w') = gameState (game w) /\
  incl (timers w') (timers w).
Proof.
  intros Hs He.
  apply step_cases in Hs as [(_ & -> & _) | (Hoff & Hs)].
  { repeat split; try reflexivity. apply incl_refl. }
  unfold isEvaluation in He. rewrite Hoff in He. simpl in He.
  destruct e; try discriminate.
  - destruct Hs as (q & _ & ->). repeat split; try reflexivity. apply incl_refl.
  - destruct Hs as (-> & _). repeat split; try reflexivity. apply incl_refl.
  - destruct Hs as [(_ & -> & _) | (tm & rest & q & Ht & _ & ->)].
    { repeat split; try reflexivity. apply incl_refl. }
    rewrite Ht.
    destruct (mounted (game w)), (clearsTypedAnswer tm);
      repeat split; try reflexivity; apply incl_tl, incl_refl.
Qed.

End Progress.

Lemma afterCorrect_fields g :
  robuxScore (afterCorrect g) = robuxScore g + 5 /\
  correctStreak (afterCorrect g) = correctStreak g + 1 /\
  wrongStreak (afterCorrect g) = 0 /\
  correctAnswersCount (afterCorrect g) = correctAnswersCount g + 1 /\
  difficultyLevel (afterCorrect g) = difficultyLevel g /\
  feedback (afterCorrect g) = None.
Proof. repeat split; reflexivity. Qed.

Lemma afterWrong_fields c ua g :
  robuxScore (afterWrong c ua g) = Z.max 0 (robuxScore g - getPenalty (robuxScore c)) /\
  correctStreak (afterWrong c ua g) = 0 /\
  wrongStreak (afterWrong c ua g) = wrongStreak g + 1 /\
  correctAnswersCount (afterWrong c ua g) = correctAnswersCount g /\
  difficultyLevel (afterWrong c ua g) = difficultyLevel g /\
  feedback (afterWrong c ua g) = Some ua.
Proof. repeat split; reflexivity. Qed.

(* ====================================================================== *)
(** ** Invariants of a session *)

Section Invariants.

Variable sortRandomly : list Z -> Rand (list Z).

(** Stepwise facts on the counters, for both kinds of step. *)
Lemma step_score w e t w' t' :
  step sortRandomly w e t = Some (w', t') ->
  0 <= robuxScore (game w) -> 0 <= robuxScore (game w').
Proof.
  intros Hs H1.
  destruct (isEvaluation (game w) e) eqn:He.
  - destruct (step_evaluation _ _ _ _ _ _ Hs He) as (_ & _ & Hc).
    destruct Hc as [(_ & Hg) | (_ & Hg & _)]; rewrite Hg;
      match goal with |- context [afterRender ?p ?x] =>
        destruct (afterRender_fields p x) as (F1 & _); rewrite F1
      end; unfold_setters; lia.
  - destruct (step_other _ _ _ _ _ _ Hs He) as (-> & _). assumption.
Qed.

Lemma step_levels w e t w' t' :
  step sortRandomly w e t = Some (w', t') ->
  0 <= correctStreak (game w) ->
  0 <= wrongStreak (game w) -> 0 <= difficultyLevel (game w) ->
  0 <= correctStreak (game w') /\
  0 <= wrongStreak (game w') /\ 0 <= difficultyLevel (game w').
Proof.
  intros Hs H2 H3 H4.
  destruct (isEvaluation (game w) e) eqn:He.
  - destruct (step_evaluation _ _ _ _ _ _ Hs He) as (_ & _ & Hc).
    destruct Hc as [(_ & Hg) | (_ & Hg & _)]; rewrite Hg;
      match goal with |- context [afterRender ?p ?x] =>
        destruct (afterRender_fields p x) as (_ & F2 & F3 & _);
        destruct (afterRender_difficultyLevel p x) as [D1 D2];
        rewrite F2, F3;
        assert (0 <= difficultyLevel (afterRender p x))
      end.
    1,3: match goal with |- context [afterRender ?p ?x] =>
        destruct (Z.eq_dec (wrongStreak x) (wrongStreak p)) as [Q|Q];
        [ rewrite D2 by tauto
        | destruct (Z_lt_dec 0 (wrongStreak x));
          [ destruct (Z.eq_dec (wrongStreak x mod 3) 0);
            [ rewrite D1 by tauto | rewrite D2 by tauto ]
          | rewrite D2 by tauto ] ]
      end; unfold_setters; lia.
    all: unfold_setters; lia.
  - destruct (step_other _ _ _ _ _ _ Hs He) as (_ & -> & -> & _ & -> & _). auto.
Qed.

Lemma step_closures w e t w' t' :
  step sortRandomly w e t = Some (w', t') ->
  forall c, In c (map closure (timers w')) -> In c (closures w).
Proof.
  intros Hs c Hc.
  destruct (isEvaluation (game w) e) eqn:He.
  - destruct (step_evaluation _ _ _ _ _ _ Hs He) as (_ & Ht & _).
    rewrite Ht, map_app, in_app_iff in Hc. unfold closures.
    destruct Hc as [Hc | [<- | []]]; [now right | now left].
  - destruct (step_other _ _ _ _ _ _ Hs He) as (_ & _ & _ & _ & _ & _ & Hi).
    unfold closures. right.
    apply in_map_iff in Hc as (tm & <- & Htm). apply in_map. now apply Hi.
Qed.

(** The score never becomes negative. *)
Lemma Reach_score w0 n w :
  Reach sortRandomly w0 n w ->
  0 <= robuxScore (game w0) -> 0 <= robuxScore (game w).
Proof.
  intros HR H0. induction HR as [|n w e t w' t' HR IH Hs]; [assumption|].
  eapply step_score; eassumption.
Qed.

(** Streaks and level stay non-negative in a session, and so do the levels of
    every closure that is still in use. *)
Lemma Reach_levels w0 n w :
  Reach sortRandomly w0 n w ->
  0 <= correctStreak (game w0) ->
  0 <= wrongStreak (game w0) -> 0 <= difficultyLevel (game w0) ->
  timers w0 = [] ->
  (0 <= correctStreak (game w) /\
   0 <= wrongStreak (game w) /\ 0 <= difficultyLevel (game w)) /\
  forall c, In c (closures w) -> levelsNonneg c.
Proof.
  intros HR H2 H3 H4 Ht.
  induction HR as [|n w e t w' t' HR IH Hs].
  - split; [auto|]. unfold closures. rewrite Ht. simpl.
    intros c [<- | []]. split; assumption.
  - destruct IH as [(I2 & I3 & I4) IC].
    pose proof (step_levels _ _ _ _ _ Hs I2 I3 I4) as (J2 & J3 & J4).
    split; [auto|].
    intros c [<- | Hc]; [split; assumption|].
    apply IC. eapply step_closures; eassumption.
Qed.

Lemma mount_fields d lang score :
  robuxScore (game (mount d lang score)) = score /\
  correctStreak (game (mount d lang score)) = 0 /\
  wrongStreak (game (mount d lang score)) = 0 /\
  correctAnswersCount (game (mount d lang score)) = 0 /\
  difficultyLevel (game (mount d lang score)) =
    match d with Easy => 0 | Moderate => 2 | Hard => 5 end /\
  showIntroMessage (game (mount d lang score)) = true /\
  currentQuestion (game (mount d lang score)) = None /\
  lastQuestion (game (mount d lang score)) = None /\
  timers (mount d lang score) = [].
Proof.
  unfold mount, initialState, difficultyEffect. cbn [robuxScore].
  destruct (score >=? 1000), d; repeat split; reflexivity.
Qed.

Lemma Reach_mount_levels d lang score n w :
  Reach sortRandomly (mount d lang score) n w ->
  (0 <= correctStreak (game w) /\
   0 <= wrongStreak (game w) /\ 0 <= difficultyLevel (game w)) /\
  forall c, In c (closures w) -> levelsNonneg c.
Proof.
  intros HR.
  destruct (mount_fields d lang score) as (_ & M2 & M3 & _ & M5 & _ & _ & _ & M9).
  apply Reach_levels in HR; try assumption; try lia.
  rewrite M5. destruct d; lia.
Qed.

(** The streaks: none before the first evaluation, exactly one after. *)
Lemma Reach_streaks w0 n w :
  Reach sortRandomly w0 n w ->
  correctStreak (game w0) = 0 -> wrongStreak (game w0) = 0 ->
  (0 <= correctStreak (game w) /\ 0 <= wrongStreak (game w)) /\
  (n = 0%nat -> correctStreak (game w) = 0 /\ wrongStreak (game w) = 0) /\
  (n <> 0%nat -> exactlyOneNonzero (game w)).
Proof.
  intros HR H1 H2.
  induction HR as [|n w e t w' t' HR IH Hs].
  - split; [lia|]. split; [auto | intros []; reflexivity].
  - destruct IH as ((I1 & I2) & I0 & IS).
    destruct (isEvaluation (game w) e) eqn:He.
    + destruct (step_evaluation _ _ _ _ _ _ Hs He) as (_ & _ & Hc).
      assert (correctStreak (game w') = correctStreak (game w) + 1 /\
              wrongStreak (game w') = 0 \/
              correctStreak (game w') = 0 /\
              wrongStreak (game w') = wrongStreak (game w) + 1) as Hcase.
      { destruct Hc as [(_ & Hg) | (_ & Hg & _)]; rewrite Hg;
          match goal with |- context [afterRender ?p ?x] =>
            destruct (afterRender_fields p x) as (_ & F2 & F3 & _);
            rewrite F2, F3
          end; [left | right]; split; reflexivity. }
      split; [lia|]. split; [discriminate|]. intros _.
      unfold exactlyOneNonzero. lia.
    + destruct (step_other _ _ _ _ _ _ Hs He) as (_ & E1 & E2 & _).
      unfold exactlyOneNonzero in *. rewrite E1, E2. auto.
Qed.

End Invariants.

Section Repetition.

Variable sortRandomly : list Z -> Rand (list Z).

Lemma afterRender_evaluated_fields g g1 ua :
  g1 = afterCorrect (setIsAnswered true g) \/
  g1 = afterWrong g ua (setIsAnswered true g) ->
  isAnswered (afterRender g g1) = true /\
  lastQuestion (afterRender g g1) = lastQuestion g /\
  currentQuestion (afterRender g g1) = currentQuestion g /\
  showIntroMessage (afterRender g g1) = showIntroMessage g.
Proof.
  intros H.
  destruct (afterRender_fields g g1) as (_ & _ & _ & _ & F5 & F6 & F7 & F8).
  rewrite F5, F6, F7, F8. destruct H as [-> | ->]; repeat split; reflexivity.
Qed.

(** Between the mount and any later moment: the intro overlay hides a
    component that has no question and no timeout pending; the stored pair is
    the pair of the question on display; at most one timeout is pending, the
    question is then answered, and the closure the timeout keeps has the
    stored pair of the present. *)
Lemma Reach_question_inv d lang score n w :
  Reach sortRandomly (mount d lang score) n w ->
  (showIntroMessage (game w) = true ->
   timers w = [] /\ currentQuestion (game w) = None) /\
  (forall q, currentQuestion (game w) = Some q ->
             lastQuestion (game w) = Some (num1 q, num2 q)) /\
  (timers w = [] \/
   exists tm, timers w = [tm] /\ isAnswered (game w) = true /\
              lastQuestion (closure tm) = lastQuestion (game w)).
Proof.
  intros HR.
  induction HR as [|n w e t w' t' HR IH Hs].
  - destruct (mount_fields d lang score) as (_ & _ & _ & _ & _ & _ & M7 & _ & M9).
    split; [auto|]. split; [|auto].
    intros q Hq. rewrite M7 in Hq. discriminate.
  - destruct IH as (I1 & I2 & I3).
    apply step_cases in Hs as [(_ & -> & _) | (Hoff & Hs)]; [auto|].
    destruct e.
    + (* ClickStart *)
      destruct Hs as (q & _ & ->).
      apply offered_ClickStart in Hoff as [_ Hi].
      destruct (I1 Hi) as [Ht _]. cbn [game timers].
      split; [discriminate|]. split; [|auto].
      intros q0 Hq0. unfold_setters. now injection Hq0 as <-.
    + (* ClickOption *)
      destruct Hs as (Hna & g1 & Hev & ->).
      apply offered_ClickOption in Hoff as (_ & Hi & _ & _).
      apply evaluate_cases in Hev.
      assert (g1 = afterCorrect (setIsAnswered true (game w)) \/
              g1 = afterWrong (game w) (submitted (game w) (ClickOption option))
                     (setIsAnswered true (game w))) as Hg by tauto.
      destruct (afterRender_evaluated_fields _ _ _ Hg) as (F1 & F2 & F3 & F4).
      cbn [game timers]. rewrite F2, F3, F4.
      split; [congruence|]. split; [assumption|]. right.
      destruct I3 as [-> | (tm & _ & Ha & _)]; [|congruence].
      eexists. split; [reflexivity|]. auto.
    + (* TypeText *)
      destruct Hs as (-> & _). cbn [game timers]. auto.
    + (* SubmitForm *)
      destruct Hs as (Hna & g1 & Hev & ->).
      apply offered_SubmitForm in Hoff as (_ & Hi & _ & _).
      apply evaluate_cases in Hev.
      assert (g1 = afterCorrect (setIsAnswered true (game w)) \/
              g1 = afterWrong (game w) (submitted (game w) SubmitForm)
                     (setIsAnswered true (game w))) as Hg by tauto.
      destruct (afterRender_evaluated_fields _ _ _ Hg) as (F1 & F2 & F3 & F4).
      cbn [game timers]. rewrite F2, F3, F4.
      split; [congruence|]. split; [assumption|]. right.
      destruct I3 as [-> | (tm & _ & Ha & _)]; [|congruence].
      eexists. split; [reflexivity|]. auto.
    + (* TimerFires *)
      destruct Hs as [(_ & -> & _) | (tm & rest & q & Ht & _ & ->)]; [auto|].
      destruct I3 as [I3 | (tm0 & I3 & Ha & Hl)]; [congruence|].
      rewrite Ht in I3. injection I3 as -> ->.
      destruct (mounted (game w)); cbn [game timers].
      * split.
        { destruct (clearsTypedAnswer tm0); unfold_setters; intros Hi;
            destruct (I1 Hi) as [Hnil _]; congruence. }
        split; [|auto].
        intros q0 Hq0.
        destruct (clearsTypedAnswer tm0); unfold_setters;
          now injection Hq0 as <-.
      * split; [|auto]. intros Hi. destruct (I1 Hi) as [Hnil _]. congruence.
Qed.

End Repetition.

Section Runs.

Variable sortRandomly : list Z -> Rand (list Z).

(** Every world that [run] computes is reached. *)
Lemma run_Reach es : forall w0 n w t w' t',
  Reach sortRandomly w0 n w ->
  run sortRandomly w es t = Some (w', t') ->
  exists n', Reach sortRandomly w0 n' w'.
Proof.
  induction es as [|e es IH]; intros w0 n w t w' t' HR H; simpl in H.
  - apply ret_Some in H as [<- _]. now exists n.
  - apply bind_Some in H as (w1 & t1 & Hs & H).
    eapply IH; [|exact H].
    eapply Reach_step; eassumption.
Qed.

(** The loop of [part_000] rejects repetitions in the same way. *)
Lemma generateQuestion_part_000_no_repetition c now t g' t' :
  generateQuestion_part_000 sortRandomly c now t = Some (g', t') ->
  exists q,
    currentQuestion g' = Some q /\
    lastQuestion g' = Some (num1 q, num2 q) /\
    forall p, lastQuestion c = Some p -> differsUnordered (num1 q, num2 q) p.
Proof.
  intros Hg. apply generateQuestion_part_000_spec in Hg as (q & Hq & ->).
  exists q. split; [reflexivity|]. split; [reflexivity|].
  apply buildQuestion_operands in Hq as (_ & Hrep & _).
  intros p Hp. exact (isRepeated_false _ _ Hrep p Hp).
Qed.

End Runs.

(* ====================================================================== *)
(** ** The insertion sort is an engine's sort *)

Lemma insertRandomly_permutes x l : forall t l' t',
  insertRandomly x l t = Some (l', t') -> Permutation (x :: l) l'.
Proof.
  induction l as [|h tl IH]; intros t l' t' H; simpl in H.
  - apply ret_Some in H as [<- _]. apply Permutation_refl.
  - apply bind_Some in H as (r & t1 & _ & H).
    destruct (Qltb r (1 # 2)).
    + apply ret_Some in H as [<- _]. apply Permutation_refl.
    + apply bind_Some in H as (l1 & t2 & H1 & H).
      apply ret_Some in H as [<- _]. apply IH in H1.
      eapply perm_trans; [apply perm_swap|]. now apply perm_skip.
Qed.

Lemma insertionSortRandomly_permutes l : forall t l' t',
  insertionSortRandomly l t = Some (l', t') -> Permutation l l'.
Proof.
  induction l as [|x tl IH]; intros t l' t' H; simpl in H.
  - apply ret_Some in H as [<- _]. apply Permutation_refl.
  - apply bind_Some in H as (s & t1 & H1 & H).
    apply IH in H1. apply insertRandomly_permutes in H.
    eapply perm_trans; [apply perm_skip; eassumption | assumption].
Qed.

(* ====================================================================== *)
(** ** The properties of the specification *)

Section Properties.

Variable sortRandomly : list Z -> Rand (list Z).

Hypothesis sortRandomly_permutes :
  forall l t l' t', sortRandomly l t = Some (l', t') -> Permutation l l'.

(** C1.  Every question that [generateQuestion] produces in a session,
    whether it runs in the closure of the latest render or in one kept by a
    pending timeout, is well-formed: its answer is [num1 * num2], the answer
    is among the options, and the options are exactly four, pairwise distinct
    and strictly positive. *)
Theorem generated_question_well_formed d lang score n w c now t g' t' :
  Reach sortRandomly (mount d lang score) n w ->
  In c (closures w) ->
  generateQuestion sortRandomly c now t = Some (g', t') ->
  exists q,
    currentQuestion g' = Some q /\
    answer q = num1 q * num2 q /\
    In (answer q) (options q) /\
    List.length (options q) = 4%nat /\
    NoDup (options q) /\
    Forall (fun o => 0 < o) (options q).
Proof.
  intros HR Hc Hg.
  apply Reach_mount_levels in HR as [_ HC].
  apply generateQuestion_wellFormed in Hg; auto.
Qed.

(** C2.  A wrong answer evaluated at score [s] costs 8 from 930 on, else 5
    from 800 on, else 4 from 700 on, else 2, and the new score is
    [max(0, s - penalty)]; the score of a session that starts non-negative is
    never negative; from 995 a wrong answer leads to 987. *)
Theorem wrong_answer_penalty_and_floor :
  (forall w e t w' t',
     step sortRandomly w e t = Some (w', t') ->
     isEvaluation (game w) e = true ->
     strictEq (submitted (game w) e)
              (option_map answer (currentQuestion (game w))) = false ->
     let s := robuxScore (game w) in
     let penalty := if 930 <=? s then 8
                    else if 800 <=? s then 5
                    else if 700 <=? s then 4 else 2 in
     getPenalty s = penalty /\
     robuxScore (game w') = Z.max 0 (s - penalty) /\
     (s = 995 -> robuxScore (game w') = 987))
  /\
  (forall w0 n w,
     0 <= robuxScore (game w0) ->
     Reach sortRandomly w0 n w -> 0 <= robuxScore (game w)).
Proof.
  split.
  - intros w e t w' t' Hs He Hw s penalty.
    assert (getPenalty s = penalty) as Hp.
    { unfold getPenalty, penalty. rewrite !Z.geb_leb. reflexivity. }
    destruct (step_evaluation _ _ _ _ _ _ Hs He) as (_ & _ & Hc).
    destruct Hc as [(Hc & _) | (_ & Hg & _)]; [congruence|].
    assert (robuxScore (game w') = Z.max 0 (s - penalty)) as Hr.
    { rewrite Hg, <- Hp.
      match goal with |- context [afterRender ?p ?x] =>
        destruct (afterRender_fields p x) as (F1 & _); rewrite F1
      end. reflexivity. }
    split; [assumption|]. split; [assumption|].
    intros E. rewrite Hr. unfold penalty. rewrite E. reflexivity.
  - intros w0 n w H0 HR. eapply Reach_score; eassumption.
Qed.

(** C3.  [generateQuestion] never returns the stored previous pair, in either
    order, and stores the pair it returns; so in a session every step either
    keeps the question on display or replaces it by one whose unordered
    operand pair is different. *)
Theorem no_immediate_repetition :
  (forall c now t g' t',
     generateQuestion sortRandomly c now t = Some (g', t') ->
     exists q,
       currentQuestion g' = Some q /\
       lastQuestion g' = Some (num1 q, num2 q) /\
       forall p, lastQuestion c = Some p ->
                 differsUnordered (num1 q, num2 q) p)
  /\
  (forall d lang score n w e t w' t' q q',
     Reach sortRandomly (mount d lang score) n w ->
     step sortRandomly w e t = Some (w', t') ->
     currentQuestion (game w) = Some q ->
     currentQuestion (game w') = Some q' ->
     q' = q \/ differsUnordered (num1 q', num2 q') (num1 q, num2 q)).
Proof.
  assert (forall c now t g' t',
     generateQuestion sortRandomly c now t = Some (g', t') ->
     exists q,
       currentQuestion g' = Some q /\
       lastQuestion g' = Some (num1 q, num2 q) /\
       forall p, lastQuestion c = Some p ->
                 differsUnordered (num1 q, num2 q) p) as Hfun.
  { intros c now t g' t' Hg.
    apply generateQuestion_spec in Hg as (q & Hq & ->).
    exists q. split; [reflexivity|]. split; [reflexivity|].
    apply buildQuestion_operands in Hq as (_ & Hrep & _).
    intros p Hp. exact (isRepeated_false _ _ Hrep p Hp). }
  split; [exact Hfun|].
  intros d lang score n w e t w' t' q q' HR Hs Hq Hq'.
  destruct (Reach_question_inv _ _ _ _ _ _ HR) as (I1 & I2 & I3).
  apply step_cases in Hs as [(_ & -> & _) | (Hoff & Hs)]; [left; congruence|].
  destruct e.
  - apply offered_ClickStart in Hoff as [_ Hi].
    destruct (I1 Hi) as [_ Hnone]. congruence.
  - destruct Hs as (_ & g1 & Hev & ->). left.
    apply evaluate_cases in Hev.
    assert (g1 = afterCorrect (setIsAnswered true (game w)) \/
            g1 = afterWrong (game w) (submitted (game w) (ClickOption option))
                   (setIsAnswered true (game w))) as Hg by tauto.
    destruct (afterRender_evaluated_fields _ _ _ Hg) as (_ & _ & F3 & _).
    cbn [game] in Hq'. congruence.
  - destruct Hs as (-> & _). left. cbn [game] in Hq'.
    unfold_setters. congruence.
  - destruct Hs as (_ & g1 & Hev & ->). left.
    apply evaluate_cases in Hev.
    assert (g1 = afterCorrect (setIsAnswered true (game w)) \/
            g1 = afterWrong (game w) (submitted (game w) SubmitForm)
                   (setIsAnswered true (game w))) as Hg by tauto.
    destruct (afterRender_evaluated_fields _ _ _ Hg) as (_ & _ & F3 & _).
    cbn [game] in Hq'. congruence.
  - destruct Hs as [(_ & -> & _) | (tm & rest & q0 & Ht & Hb & ->)];
      [left; congruence|].
    destruct (mounted (game w)); cbn [game] in Hq'; [|left; congruence].
    right.
    assert (q' = q0) as ->.
    { destruct (clearsTypedAnswer tm); unfold_setters; congruence. }
    destruct I3 as [I3 | (tm0 & I3 & _ & Hl)]; [congruence|].
    rewrite Ht in I3. injection I3 as -> ->.
    apply buildQuestion_operands in Hb as (_ & Hrep & _).
    apply (isRepeated_false _ _ Hrep).
    rewrite Hl. now apply I2.
Qed.

(** The rule against the operand 1, as a function of the state [c] of the
    render whose [generateQuestion] runs: with [robuxScore c >= 100] no
    operand equal to 1 is returned; the rule applied after the cascade
    replaces an operand that landed on 1 by a uniform draw from 2, 3, 4 and
    keeps any other.  After an answer [c] is not the state on display but the
    one before the answer. *)
Lemma no_operand_one_from_100 :
  (forall c now t g' t',
     100 <= robuxScore c ->
     generateQuestion sortRandomly c now t = Some (g', t') ->
     exists q, currentQuestion g' = Some q /\ num1 q <> 1 /\ num2 q <> 1)
  /\
  (forall g p t p' t',
     100 <= robuxScore g ->
     noOnesRule g p t = Some (p', t') ->
     exists t1,
       ((fst p = 1 /\ exists r, t = r :: t1 /\ drawnUniformly r 2 4 (fst p'))
        \/ (fst p <> 1 /\ t1 = t /\ fst p' = fst p)) /\
       ((snd p = 1 /\ exists r, t1 = r :: t' /\ drawnUniformly r 2 4 (snd p'))
        \/ (snd p <> 1 /\ t' = t1 /\ snd p' = snd p))).
Proof.
  split.
  - intros c now t g' t' Hc Hg.
    apply generateQuestion_spec in Hg as (q & Hq & ->).
    exists q. split; [reflexivity|].
    apply buildQuestion_operands in Hq as (_ & _ & t0 & t1 & Hb).
    apply drawOperands_no_ones in Hb; assumption.
  - intros g p t p' t' Hg Hn.
    apply noOnesRule_spec in Hn as [(Hlt & _) | (_ & H)]; [lia | exact H].
Qed.


(** C5.  A correct evaluation sets [wrongStreak] to 0 and adds 1 to
    [correctStreak]; a wrong one sets [correctStreak] to 0 and adds 1 to
    [wrongStreak]; in a session both counters are zero as long as no answer
    has been evaluated, and exactly one of them is nonzero from the first
    evaluation on. *)
Theorem streaks_mutually_exclusive :
  (forall w e t w' t',
     step sortRandomly w e t = Some (w', t') ->
     isEvaluation (game w) e = true ->
     (strictEq (submitted (game w) e)
               (option_map answer (currentQuestion (game w))) = true ->
      wrongStreak (game w') = 0 /\
      correctStreak (game w') = correctStreak (game w) + 1) /\
     (strictEq (submitted (game w) e)
               (option_map answer (currentQuestion (game w))) = false ->
      correctStreak (game w') = 0 /\
      wrongStreak (game w') = wrongStreak (game w) + 1))
  /\
  (forall d lang score n w,
     Reach sortRandomly (mount d lang score) n w ->
     (n = 0%nat -> correctStreak (game w) = 0 /\ wrongStreak (game w) = 0) /\
     (n <> 0%nat -> exactlyOneNonzero (game w))).
Proof.
  split.
  - intros w e t w' t' Hs He.
    destruct (step_evaluation _ _ _ _ _ _ Hs He) as (_ & _ & Hc).
    destruct Hc as [(Hc & Hg) | (Hc & Hg & _)]; rewrite Hc, Hg;
      match goal with |- context [afterRender ?p ?x] =>
        destruct (afterRender_fields p x) as (_ & F2 & F3 & _);
        rewrite F2, F3
      end; split; intros E; try discriminate E; split; reflexivity.
  - intros d lang score n w HR.
    destruct (mount_fields d lang score) as (_ & M2 & M3 & _).
    apply Reach_streaks in HR as (_ & H0 & H1); auto.
Qed.

(** The fallback rule, as a function of the state [g] of the render whose
    [generateQuestion] runs: it is the one used in the Easy tier from 30
    correct answers on (below 800 points).  With base 4, 7, 10 for Easy,
    Moderate, Hard and the effective level
    [difficultyLevel + floor(correctStreak / 3) + (2 if score >= 500)], it
    draws [num1] uniformly from [1 .. base + level] and [num2] uniformly from
    [1 .. base + max(0, level - 2)], and when both are 1 it draws [num2] again,
    uniformly from [2 .. 10]. *)
Lemma fallback_rule_draws :
  (forall g,
     robuxScore g < 800 -> difficulty g = Easy -> 30 <= correctAnswersCount g ->
     ruleCascade g = fallbackRule g)
  /\
  (forall g t p t',
     levelsNonneg g ->
     fallbackRule g t = Some (p, t') ->
     let base := match difficulty g with
                 | Easy => 4 | Moderate => 7 | Hard => 10
                 end in
     let level := difficultyLevel g + correctStreak g / 3
                  + (if 500 <=? robuxScore g then 2 else 0) in
     exists r1 r2 rest a b,
       t = r1 :: r2 :: rest /\
       drawnUniformly r1 1 (base + level) a /\
       drawnUniformly r2 1 (base + Z.max 0 (level - 2)) b /\
       fst p = a /\
       ((a = 1 /\ b = 1 /\
         exists r3, rest = r3 :: t' /\ drawnUniformly r3 2 10 (snd p))
        \/ (~ (a = 1 /\ b = 1) /\ rest = t' /\ snd p = b))).
Proof.
  split.
  - intros g Hs Hd Hc. unfold ruleCascade.
    rewrite Hd. simpl.
    assert ((robuxScore g >=? 800) = false) as -> by (apply geb_lt; lia).
    assert ((correctAnswersCount g <? 30) = false) as -> by (apply Z.ltb_ge; lia).
    reflexivity.
  - intros g t p t' Hg H base level.
    assert (maxNum1 g = base + level) as E1.
    { unfold maxNum1, effectiveLevel, streakBonus, robuxBonus, base, level.
      rewrite baseMaxNum_cases, Z.geb_leb. reflexivity. }
    assert (maxNum2 g = base + Z.max 0 (level - 2)) as E2.
    { unfold maxNum2, effectiveLevel, streakBonus, robuxBonus, base, level.
      rewrite baseMaxNum_cases, Z.geb_leb. reflexivity. }
    destruct (maxNum_pos g Hg) as [P1 P2].
    apply fallbackRule_spec in H as (r1 & r2 & rest & -> & Hr1 & Hr2 & Ha & Hb).
    cbv zeta in Ha, Hb. rewrite E1, E2 in *.
    exists r1, r2, rest, (floorMul r1 (base + level) + 1),
           (floorMul r2 (base + Z.max 0 (level - 2)) + 1).
    split; [reflexivity|].
    split; [apply randomBelow_uniform; [assumption | lia | lia]|].
    split; [apply randomBelow_uniform; [assumption | lia | lia]|].
    split; assumption.
Qed.

(** The score-override rule, as a function of the state [g] of the render
    whose [generateQuestion] runs: with [robuxScore g >= 800] the cascade is
    that rule whatever the tier, one operand drawn uniformly from 6, 7, 8, 9,
    the other uniformly from [6 .. 12], swapped on a coin flip, and the
    question returned has such operands. *)
Lemma score_override_rule :
  (forall g, 800 <= robuxScore g -> ruleCascade g = highScoreRule)
  /\
  (forall g t p t',
     800 <= robuxScore g ->
     ruleCascade g t = Some (p, t') ->
     exists r1 r2 r3 a b,
       t = r1 :: r2 :: r3 :: t' /\
       p = (if Qltb r3 (1 # 2) then (b, a) else (a, b)) /\
       drawnUniformly r1 6 9 a /\ drawnUniformly r2 6 12 b)
  /\
  (forall c now t g' t',
     800 <= robuxScore c ->
     generateQuestion sortRandomly c now t = Some (g', t') ->
     exists q,
       currentQuestion g' = Some q /\
       ((6 <= num1 q <= 9 /\ 6 <= num2 q <= 12) \/
        (6 <= num1 q <= 12 /\ 6 <= num2 q <= 9))).
Proof.
  assert (forall g, 800 <= robuxScore g -> ruleCascade g = highScoreRule) as Hsel.
  { intros g Hg. unfold ruleCascade.
    assert ((robuxScore g >=? 800) = true) as -> by (apply geb_ge; lia).
    reflexivity. }
  split; [exact Hsel|]. split.
  - intros g t p t' Hg H. rewrite (Hsel g Hg) in H.
    now apply highScoreRule_spec.
  - intros c now t g' t' Hc Hg.
    apply generateQuestion_spec in Hg as (q & Hq & ->).
    exists q. split; [reflexivity|].
    apply buildQuestion_operands in Hq as (_ & _ & t0 & t1 & Hb).
    unfold drawOperands in Hb.
    apply bind_Some in Hb as (p0 & t2 & Hr & Hn).
    rewrite (Hsel c Hc) in Hr.
    apply highScoreRule_spec in Hr
      as (r1 & r2 & r3 & a & b & _ & -> & [Ha _] & [Hb _]).
    apply noOnesRule_spec in Hn as [(_ & Hp & _) | (_ & t3 & H1 & H2)].
    + destruct (Qltb r3 (1 # 2)); injection Hp as -> ->; lia.
    + destruct (Qltb r3 (1 # 2)); cbn [fst snd] in H1, H2;
        destruct H1 as [(? & _) | (_ & _ & ->)]; try lia;
        destruct H2 as [(? & _) | (_ & _ & ->)]; try lia.
Qed.

(** C8.  [difficultyLevel] starts at 0, 2, 5 for Easy, Moderate, Hard; a step
    lowers it by 1, not below 0, exactly when that step brings [wrongStreak]
    to a positive multiple of 3, and leaves it otherwise; it is never
    negative. *)
Theorem difficulty_level_steps :
  (forall d lang score,
     difficultyLevel (game (mount d lang score)) =
     match d with Easy => 0 | Moderate => 2 | Hard => 5 end)
  /\
  (forall w e t w' t',
     step sortRandomly w e t = Some (w', t') ->
     let reached :=
       wrongStreak (game w') <> wrongStreak (game w) /\
       0 < wrongStreak (game w') /\ wrongStreak (game w') mod 3 = 0 in
     (reached ->
      difficultyLevel (game w') = Z.max 0 (difficultyLevel (game w) - 1)) /\
     (~ reached -> difficultyLevel (game w') = difficultyLevel (game w)))
  /\
  (forall d lang score n w,
     Reach sortRandomly (mount d lang score) n w ->
     0 <= difficultyLevel (game w)).
Proof.
  split; [|split].
  - intros d lang score. apply mount_fields.
  - intros w e t w' t' Hs reached. unfold reached. clear reached.
    destruct (isEvaluation (game w) e) eqn:He.
    + destruct (step_evaluation _ _ _ _ _ _ Hs He) as (_ & _ & Hc).
      destruct Hc as [(_ & Hg) | (_ & Hg & _)]; rewrite Hg;
        match goal with |- context [afterRender ?p ?x] =>
          destruct (afterRender_fields p x) as (_ & _ & F3 & _);
          destruct (afterRender_difficultyLevel p x) as [D1 D2];
          rewrite F3
        end; auto.
    + destruct (step_other _ _ _ _ _ _ Hs He) as (_ & _ & E3 & _ & E5 & _).
      rewrite E3, E5. split; [intros (Hne & _); congruence | reflexivity].
  - intros d lang score n w HR.
    apply Reach_mount_levels in HR as [(_ & _ & H) _]. exact H.
Qed.

(** C10.  Once a question is answered the handlers do nothing: they return
    the state they were given, and the effects find nothing changed.  An
    evaluation marks the question answered, and until [generateQuestion] runs
    again (START or a timeout) no event changes the state. *)
Theorem second_answer_is_noop :
  (forall w o t,
     isAnswered (game w) = true ->
     handleAnswer w o t = Some (w, t) /\
     handleTypedAnswerSubmit w t = Some (w, t) /\
     afterRender (game w) (game w) = game w)
  /\
  (forall w e t w' t',
     step sortRandomly w e t = Some (w', t') ->
     isEvaluation (game w) e = true ->
     isAnswered (game w') = true)
  /\
  (forall w e t w' t',
     step sortRandomly w e t = Some (w', t') ->
     isAnswered (game w) = true ->
     e <> ClickStart -> e <> TimerFires ->
     w' = w /\ t' = t).
Proof.
  split; [|split].
  - intros w o t Ha. unfold handleAnswer, handleTypedAnswerSubmit.
    rewrite Ha. simpl. repeat split. now apply afterRender_same.
  - intros w e t w' t' Hs He.
    destruct (step_evaluation _ _ _ _ _ _ Hs He) as (_ & _ & Hc).
    assert (exists ua, game w' = afterRender (game w) (afterCorrect (setIsAnswered true (game w))) \/
            game w' = afterRender (game w) (afterWrong (game w) ua (setIsAnswered true (game w))))
      as [ua Hg] by (eexists; destruct Hc as [(_ & Hg) | (_ & Hg & _)]; eauto).
    destruct Hg as [-> | ->];
      match goal with |- context [afterRender ?p ?x] =>
        destruct (afterRender_fields p x) as (_ & _ & _ & _ & F5 & _);
        rewrite F5
      end; reflexivity.
  - intros w e t w' t' Hs Ha H1 H2.
    apply step_cases in Hs as [(_ & -> & ->) | (Hoff & Hs)]; [auto|].
    exfalso. destruct e; try congruence.
    + apply offered_ClickOption in Hoff as (_ & _ & Hna & _). congruence.
    + simpl in Hoff. destruct (currentQuestion (game w)).
      * rewrite Ha in Hoff. simpl in Hoff.
        rewrite !andb_false_r in Hoff. discriminate.
      * rewrite andb_false_r in Hoff. discriminate.
    + apply offered_SubmitForm in Hoff as (_ & _ & Hna & _). congruence.
Qed.

End Properties.

(* ====================================================================== *)
(** ** Typed answers *)

Lemma strictEq_NaN b : strictEq NaN b = false.
Proof. reflexivity. Qed.

Lemma digits_started a s : digits (Some a) s <> None.
Proof.
  revert a. induction s as [|c s IH]; intros a; simpl; [discriminate|].
  destruct (digitValue c); [apply IH | discriminate].
Qed.

(** [parseInt] finds no number exactly when, after leading white space and an
    optional sign, the text is over or goes on with something else than a
    digit. *)
Lemma parseInt_NaN s :
  parseInt s = NaN <->
  match afterSign s with
  | EmptyString => True
  | String c _ => digitValue c = None
  end.
Proof.
  assert (forall s2, digits None s2 = None <->
                     match s2 with
                     | EmptyString => True
                     | String c _ => digitValue c = None
                     end) as Hd.
  { intros [|c s2]; simpl; [tauto|].
    destruct (digitValue c) as [d|].
    - split; [intros H; now apply digits_started in H | discriminate].
    - tauto. }
  assert (forall sign s2,
            match digits None s2 with
            | Some n => Int (sign * n)
            | None => NaN
            end = NaN <-> digits None s2 = None) as Hm.
  { intros sign s2. destruct (digits None s2); split; congruence. }
  unfold parseInt, afterSign.
  destruct (trimStart s) as [|c r]; [rewrite Hm; apply Hd|].
  destruct c as [[] [] [] [] [] [] [] []]; rewrite Hm; apply Hd.
Qed.


(* ====================================================================== *)
(** ** Runs on concrete inputs *)


(** A text that starts with a number is read up to the first character that
    is no digit: "48abc" is accepted as the answer 48.  The field of the form
    has type [number], so the browser hands over such a text only in forms
    like "48.5". *)
Lemma numeric_prefix_is_read :
  parseInt "48abc"%string = Int 48 /\ parseInt "48.5"%string = Int 48 /\
  exists w',
    handleTypedAnswerSubmit (typing "48.5"%string) [0%Q] = Some (w', []) /\
    robuxScore (game w') = 1000 /\ correctStreak (game w') = 1.
Proof.
  split; [reflexivity|]. split; [reflexivity|].
  eexists. split; [lazy; reflexivity|]. split; reflexivity.
Qed.

(** The copy of the program in [part_000] has no rule against the operand 1:
    at 100 points its Easy tier can still ask 2 x 1. *)
Lemma part_000_keeps_operand_one :
  100 <= robuxScore easyAt100 /\
  generateQuestion_part_000 insertionSortRandomly easyAt100 easyAt100
    ([0; 0; 3 # 4]%Q ++ tapeOptions)
  = Some (showQuestion (mkQuestion 2 1 2 [3; 2; 4; 6]) easyAt100, []).
Proof. split; [discriminate | reflexivity]. Qed.

(** Hard tier from the start: the first question has both operands among
    6, 7, 8, 9; the correct product gives 5 points and a streak of 1. *)
Lemma hard_session_first_answer :
  run insertionSortRandomly hardStart [ClickStart] tapeA = Some (hardPlaying, []) /\
  run insertionSortRandomly hardPlaying [ClickOption 48] [0%Q] = Some (answeredA, []).
Proof. split; reflexivity. Qed.

(** Three wrong answers in a row lower the level from 5 to 4. *)
Lemma third_wrong_answer_lowers_level :
  exists w',
    step insertionSortRandomly twoWrong (ClickOption 56) [] = Some (w', []) /\
    wrongStreak (game w') = 3 /\ difficultyLevel (game w') = 4.
Proof. eexists. split; [lazy; reflexivity|]. split; reflexivity. Qed.

(* ====================================================================== *)
(** ** The properties at concrete inputs *)

Lemma hardStart_to_hardPlaying :
  step insertionSortRandomly hardStart ClickStart tapeA = Some (hardPlaying, []).
Proof. reflexivity. Qed.

Lemma hardPlaying_to_answeredA :
  step insertionSortRandomly hardPlaying (ClickOption 48) [0%Q]
  = Some (answeredA, []).
Proof. reflexivity. Qed.

Lemma answeredA_to_playingB :
  step insertionSortRandomly answeredA TimerFires tapeB = Some (playingB, []).
Proof. reflexivity. Qed.

Lemma Reach_answeredA :
  Reach insertionSortRandomly (mount Hard English 0) 1 answeredA.
Proof.
  exact (Reach_step insertionSortRandomly _ _ _ _ _ _ _
           (Reach_step insertionSortRandomly _ _ _ _ _ _ _
              (Reach_start _ _) hardStart_to_hardPlaying)
           hardPlaying_to_answeredA).
Qed.

Lemma generated_question_well_formed_witness :
  exists q,
    currentQuestion (showQuestion questionA (game hardStart)) = Some q /\
    answer q = num1 q * num2 q /\
    In (answer q) (options q) /\
    List.length (options q) = 4%nat /\
    NoDup (options q) /\
    Forall (fun o => 0 < o) (options q).
Proof.
  exact (generated_question_well_formed
           insertionSortRandomly insertionSortRandomly_permutes
           Hard English 0 0%nat hardStart (game hardStart) (game hardStart)
           tapeA (showQuestion questionA (game hardStart)) []
           (Reach_start _ _) (or_introl eq_refl) eq_refl).
Defined.

Lemma wrong_answer_penalty_and_floor_witness :
  step insertionSortRandomly (typing "50"%string) SubmitForm []
  = Some (penalised, []) /\
  getPenalty 995 = 8 /\
  robuxScore (game penalised) = 987 /\
  0 <= robuxScore (game penalised).
Proof.
  assert (step insertionSortRandomly (typing "50"%string) SubmitForm []
          = Some (penalised, [])) as Hs by reflexivity.
  split; [exact Hs|].
  destruct (proj1 (wrong_answer_penalty_and_floor insertionSortRandomly)
              (typing "50"%string) SubmitForm [] penalised [] Hs eq_refl eq_refl)
    as (Hp & _ & H987).
  split; [exact Hp|]. split; [exact (H987 eq_refl)|].
  apply (proj2 (wrong_answer_penalty_and_floor insertionSortRandomly)
           (typing "50"%string) 1%nat penalised).
  - discriminate.
  - exact (Reach_step insertionSortRandomly _ _ _ _ _ _ _ (Reach_start _ _) Hs).
Defined.

Lemma no_immediate_repetition_witness :
  (exists q,
     currentQuestion (game playingB) = Some q /\
     lastQuestion (game playingB) = Some (num1 q, num2 q) /\
     differsUnordered (num1 q, num2 q) (6, 8))
  /\
  (questionB = questionA \/ differsUnordered (7, 8) (6, 8)).
Proof.
  split.
  - destruct (proj1 (no_immediate_repetition insertionSortRandomly)
                (game hardPlaying) (game answeredA) tapeB (game playingB) []
                eq_refl) as (q & H1 & H2 & H3).
    exists q. split; [exact H1|]. split; [exact H2|]. exact (H3 (6, 8) eq_refl).
  - exact (proj2 (no_immediate_repetition insertionSortRandomly)
             Hard English 0 1%nat answeredA TimerFires tapeB playingB []
             questionA questionB
             Reach_answeredA answeredA_to_playingB eq_refl eq_refl).
Defined.

Lemma streaks_mutually_exclusive_witness :
  (wrongStreak (game answeredA) = 0 /\
   correctStreak (game answeredA) = correctStreak (game hardPlaying) + 1)
  /\
  (correctStreak (game threeWrong) = 0 /\
   wrongStreak (game threeWrong) = wrongStreak (game twoWrong) + 1)
  /\
  (correctStreak (game hardStart) = 0 /\ wrongStreak (game hardStart) = 0)
  /\
  exactlyOneNonzero (game answeredA).
Proof.
  split; [|split; [|split]].
  - exact (proj1 (proj1 (streaks_mutually_exclusive insertionSortRandomly)
                    hardPlaying (ClickOption 48) [0%Q] answeredA []
                    hardPlaying_to_answeredA eq_refl) eq_refl).
  - assert (step insertionSortRandomly twoWrong (ClickOption 56) []
            = Some (threeWrong, [])) as Hs by reflexivity.
    exact (proj2 (proj1 (streaks_mutually_exclusive insertionSortRandomly)
                    twoWrong (ClickOption 56) [] threeWrong [] Hs eq_refl)
             eq_refl).
  - exact (proj1 (proj2 (streaks_mutually_exclusive insertionSortRandomly)
                    Hard English 0 0%nat hardStart (Reach_start _ _)) eq_refl).
  - apply (proj2 (proj2 (streaks_mutually_exclusive insertionSortRandomly)
                    Hard English 0 1%nat answeredA Reach_answeredA)).
    discriminate.
Defined.

Lemma difficulty_level_steps_witness :
  difficultyLevel (game (mount Hard English 0)) = 5 /\
  difficultyLevel (game threeWrong) = Z.max 0 (difficultyLevel (game twoWrong) - 1) /\
  difficultyLevel (game answeredA) = difficultyLevel (game hardPlaying) /\
  0 <= difficultyLevel (game answeredA).
Proof.
  split; [|split; [|split]].
  - exact (proj1 (difficulty_level_steps insertionSortRandomly) Hard English 0).
  - assert (step insertionSortRandomly twoWrong (ClickOption 56) []
            = Some (threeWrong, [])) as Hs by reflexivity.
    apply (proj1 (proj1 (proj2 (difficulty_level_steps insertionSortRandomly))
                    twoWrong (ClickOption 56) [] threeWrong [] Hs)).
    split; [discriminate|]. split; reflexivity.
  - apply (proj2 (proj1 (proj2 (difficulty_level_steps insertionSortRandomly))
                    hardPlaying (ClickOption 48) [0%Q] answeredA []
                    hardPlaying_to_answeredA)).
    intros (H & _). apply H. reflexivity.
  - exact (proj2 (proj2 (difficulty_level_steps insertionSortRandomly))
             Hard English 0 1%nat answeredA Reach_answeredA).
Defined.

Lemma second_answer_is_noop_witness :
  (handleAnswer answeredA 56 [] = Some (answeredA, []) /\
   handleTypedAnswerSubmit answeredA [] = Some (answeredA, []) /\
   afterRender (game answeredA) (game answeredA) = game answeredA)
  /\
  isAnswered (game answeredA) = true
  /\
  (answeredA = answeredA /\ @nil Q = []).
Proof.
  split; [|split].
  - exact (proj1 (second_answer_is_noop insertionSortRandomly)
             answeredA 56 [] eq_refl).
  - exact (proj1 (proj2 (second_answer_is_noop insertionSortRandomly))
             hardPlaying (ClickOption 48) [0%Q] answeredA []
             hardPlaying_to_answeredA eq_refl).
  - apply (proj2 (proj2 (second_answer_is_noop insertionSortRandomly))
             answeredA (ClickOption 56) [] answeredA []).
    + reflexivity.
    + reflexivity.
    + discriminate.
    + discriminate.
Defined.


(* ====================================================================== *)
(** ** The tier rules *)

Lemma ruleCascade_below_800 g :
  robuxScore g < 800 ->
  ruleCascade g =
  match difficulty g with
  | Hard => hardRule
  | Moderate => moderateRule
  | Easy => if correctAnswersCount g <? 30 then easyIntroRule else fallbackRule g
  end.
Proof.
  intros Hs. unfold ruleCascade.
  assert ((robuxScore g >=? 800) = false) as -> by (apply geb_lt; lia).
  destruct (difficulty g); reflexivity.
Qed.

(** What the rule against the operand 1 leaves of a pair: an operand is kept,
    or it was 1 at 100 points or more and ends among 2, 3, 4. *)
Lemma noOnesRule_range g p t p' t' :
  noOnesRule g p t = Some (p', t') ->
  (fst p' = fst p \/ (fst p = 1 /\ 2 <= fst p' <= 4)) /\
  (snd p' = snd p \/ (snd p = 1 /\ 2 <= snd p' <= 4)) /\
  (100 <= robuxScore g -> fst p' <> 1 /\ snd p' <> 1).
Proof.
  intros H.
  apply noOnesRule_spec in H as [(Hlt & -> & _) | (Hs & t1 & H1 & H2)].
  { split; [auto|]. split; [auto|]. lia. }
  assert (fst p' = fst p /\ fst p <> 1 \/ (fst p = 1 /\ 2 <= fst p' <= 4)) as A1.
  { destruct H1 as [(E & r & _ & [Hr _]) | (Hne & _ & ->)]; [right | left]; auto. }
  assert (snd p' = snd p /\ snd p <> 1 \/ (snd p = 1 /\ 2 <= snd p' <= 4)) as A2.
  { destruct H2 as [(E & r & _ & [Hr _]) | (Hne & _ & ->)]; [right | left]; auto. }
  split; [tauto|]. split; [tauto|]. intros _. lia.
Qed.

(* ====================================================================== *)
(** ** How far a distractor is from the answer *)

Lemma Set_add_In s x y : In y (Set_add s x) -> In y s \/ y = x.
Proof.
  unfold Set_add. destruct (Set_has s x); [auto|].
  rewrite in_app_iff. simpl. intuition.
Qed.

Lemma Set_add_size s x : Set_size s <= Set_size (Set_add s x) <= Set_size s + 1.
Proof.
  unfold Set_add, Set_size, len. destruct (Set_has s x); [lia|].
  rewrite length_app. simpl. lia.
Qed.

Lemma wrongAnswerFor_near n1 n2 ans opts t w t' :
  0 <= Set_size opts <= 3 ->
  wrongAnswerFor n1 n2 ans opts t = Some (w, t') ->
  Z.abs (w - ans) <= Z.max 12 (5 * Z.max (Z.abs n1) (Z.abs n2)).
Proof.
  intros Hs. unfold wrongAnswerFor. intros H. run_inv H; subst.
  - lia.
  - pose proof (ceilMul_range a1 3 H3 ltac:(lia)) as Hc.
    replace (ans + Set_size opts * (if Qgtb a0 (1 # 2) then 1 else -1)
                   * (ceilMul a1 3 + 1) - ans)
      with (Set_size opts * (if Qgtb a0 (1 # 2) then 1 else -1)
            * (ceilMul a1 3 + 1)) by ring.
    rewrite !Z.abs_mul.
    assert (Z.abs (if Qgtb a0 (1 # 2) then 1 else -1) = 1) as ->
      by (destruct (Qgtb a0 (1 # 2)); reflexivity).
    rewrite (Z.abs_eq (Set_size opts)) by lia.
    rewrite (Z.abs_eq (ceilMul a1 3 + 1)) by lia.
    nia.
  - pose proof (floorMul_range x 10 H0 ltac:(lia)) as Hf.
    replace (ans + (floorMul x 10 - 5) * (if Qgtb a (1 # 2) then n1 else n2) - ans)
      with ((floorMul x 10 - 5) * (if Qgtb a (1 # 2) then n1 else n2)) by ring.
    rewrite Z.abs_mul.
    assert (Z.abs (floorMul x 10 - 5) <= 5) by lia.
    assert (Z.abs (if Qgtb a (1 # 2) then n1 else n2)
            <= Z.max (Z.abs n1) (Z.abs n2))
      by (destruct (Qgtb a (1 # 2)); lia).
    pose proof (Z.abs_nonneg (if Qgtb a (1 # 2) then n1 else n2)).
    pose proof (Z.abs_nonneg (floorMul x 10 - 5)).
    nia.
Qed.

Lemma optionsLoop_Forall (P : Z -> Prop) n1 n2 ans :
  (forall opts t w t',
     0 <= Set_size opts <= 3 ->
     wrongAnswerFor n1 n2 ans opts t = Some (w, t') -> P w) ->
  forall fuel opts t res t',
    Forall P opts ->
    optionsLoop n1 n2 ans opts fuel t = Some (res, t') ->
    Forall P res.
Proof.
  intros HP. induction fuel as [|fuel IH]; intros opts t res t' Ho H;
    simpl in H; destruct (Set_size opts <? 4) eqn:E;
    try discriminate; try (apply ret_Some in H as [<- _]; assumption).
  apply Z.ltb_lt in E.
  apply bind_Some in H as (w & t1 & Hw & H).
  apply IH in H; [assumption|].
  apply Forall_forall. intros y Hy.
  apply Set_add_In in Hy as [Hy | ->].
  - rewrite Forall_forall in Ho. now apply Ho.
  - apply (HP opts t w t1); [|assumption].
    unfold Set_size, len in *. lia.
Qed.

Section Distractors.

Variable sortRandomly : list Z -> Rand (list Z).

Hypothesis sortRandomly_permutes :
  forall l t l' t', sortRandomly l t = Some (l', t') -> Permutation l l'.

(** X4.  Every option of a generated question lies within
    [max(12, 5 * max(|num1|, |num2|))] of the answer: a distractor is the
    answer moved by at most five times an operand, or by at most 12. *)
Theorem options_near_answer c now t g' t' :
  generateQuestion sortRandomly c now t = Some (g', t') ->
  exists q,
    currentQuestion g' = Some q /\
    Forall (fun o => Z.abs (o - answer q)
                     <= Z.max 12 (5 * Z.max (Z.abs (num1 q)) (Z.abs (num2 q))))
           (options q).
Proof.
  intros H. apply generateQuestion_spec in H as (q & Hq & ->).
  exists q. split; [reflexivity|].
  unfold buildQuestion in Hq.
  apply bind_Some in Hq as ([n1 n2] & t1 & _ & Hq).
  apply bind_Some in Hq as (opts & t2 & Hopts & Hq).
  apply bind_Some in Hq as (sh & t3 & Hsort & Hq).
  apply ret_Some in Hq as [<- _]. cbn [num1 num2 answer options].
  apply sortRandomly_permutes in Hsort.
  eapply Permutation_Forall; [exact Hsort|].
  eapply optionsLoop_Forall; [| |exact Hopts].
  - intros o t0 w t0' Hs Hw. eapply wrongAnswerFor_near; eassumption.
  - constructor; [|constructor].
    replace (n1 * n2 - n1 * n2) with 0 by ring. simpl Z.abs. lia.
Qed.

End Distractors.

(* ====================================================================== *)
(** ** More invariants of a session *)

Section SessionFacts.

Variable sortRandomly : list Z -> Rand (list Z).

Lemma afterRender_props prev next :
  difficulty (afterRender prev next) = difficulty next /\
  language (afterRender prev next) = language next /\
  feedback (afterRender prev next) = feedback next /\
  typedAnswer (afterRender prev next) = typedAnswer next.
Proof.
  unfold afterRender, winEffect, wrongStreakEffect.
  destruct (negb (robuxScore prev =? robuxScore next) && (robuxScore next >=? 1000));
  match goal with |- context [if ?c then _ else _] => destruct c end;
  repeat split; reflexivity.
Qed.

(** The state of the game after a step that evaluates an answer, field by
    field. *)
Lemma step_evaluation_fields w e t w' t' :
  step sortRandomly w e t = Some (w', t') ->
  isEvaluation (game w) e = true ->
  let correct := strictEq (submitted (game w) e)
                          (option_map answer (currentQuestion (game w))) in
  mounted (game w) = true /\
  robuxScore (game w') =
    (if correct then robuxScore (game w) + 5
     else Z.max 0 (robuxScore (game w) - getPenalty (robuxScore (game w)))) /\
  correctStreak (game w') = (if correct then correctStreak (game w) + 1 else 0) /\
  wrongStreak (game w') = (if correct then 0 else wrongStreak (game w) + 1) /\
  correctAnswersCount (game w') =
    (if correct then correctAnswersCount (game w) + 1
     else correctAnswersCount (game w)) /\
  feedback (game w') = (if correct then None else Some (submitted (game w) e)) /\
  gameState (game w') =
    (if negb (robuxScore (game w) =? robuxScore (game w'))
        && (robuxScore (game w') >=? 1000)
     then won else gameState (game w)) /\
  difficulty (game w') = difficulty (game w) /\
  language (game w') = language (game w) /\
  typedAnswer (game w') = typedAnswer (game w) /\
  currentQuestion (game w') = currentQuestion (game w) /\
  isAnswered (game w') = true.
Proof.
  intros Hs He correct.
  assert (mounted (game w) = true) as Hm.
  { unfold isEvaluation in He. apply andb_true_iff in He as [Hoff Hk].
    destruct e; try discriminate.
    - now apply offered_ClickOption in Hoff.
    - now apply offered_SubmitForm in Hoff. }
  split; [exact Hm|].
  destruct (step_evaluation _ _ _ _ _ _ Hs He) as (_ & _ & Hc).
  fold correct in Hc.
  destruct Hc as [(Hc & Hg) | (Hc & Hg & _)]; rewrite Hc, Hg;
    match goal with |- context [afterRender ?p ?x] =>
      destruct (afterRender_fields p x) as (F1 & F2 & F3 & F4 & F5 & _ & F7 & _);
      destruct (afterRender_props p x) as (P1 & P2 & P3 & P4);
      rewrite (afterRender_gameState p x), F1, F2, F3, F4, F5, F7, P1, P2, P3, P4
    end; repeat split; reflexivity.
Qed.

(** What a step that evaluates nothing leaves unchanged, beyond the scores. *)
Lemma step_other_props w e t w' t' :
  step sortRandomly w e t = Some (w', t') ->
  isEvaluation (game w) e = false ->
  difficulty (game w') = difficulty (game w) /\
  language (game w') = language (game w).
Proof.
  intros Hs He.
  apply step_cases in Hs as [(_ & -> & _) | (Hoff & Hs)]; [auto|].
  unfold isEvaluation in He. rewrite Hoff in He. simpl in He.
  destruct e; try discriminate.
  - destruct Hs as (q & _ & ->). auto.
  - destruct Hs as (-> & _). auto.
  - destruct Hs as [(_ & -> & _) | (tm & rest & q & Ht & _ & ->)]; [auto|].
    destruct (mounted (game w)), (clearsTypedAnswer tm); auto.
Qed.

Lemma mounted_playing g : mounted g = true <-> gameState g = playing.
Proof. unfold mounted. destruct (gameState g); simpl; split; congruence. Qed.

(** The win: the screen is in state [won] exactly from 1000 points on. *)
Lemma Reach_win d lang score n w :
  Reach sortRandomly (mount d lang score) n w ->
  (gameState (game w) = won <-> 1000 <= robuxScore (game w)) /\
  (gameState (game w) = won \/ gameState (game w) = playing).
Proof.
  intros HR. induction HR as [|n w e t w' t' HR IH Hs].
  - unfold mount, initialState, difficultyEffect. cbn [robuxScore].
    destruct (score >=? 1000) eqn:E; cbn [game gameState setGameState
      setDifficultyLevel setCorrectAnswersCount setCorrectStreak setWrongStreak
      robuxScore].
    + apply geb_ge in E. split; [tauto | auto].
    + apply geb_lt in E. split; [|auto]. split; [discriminate | lia].
  - destruct IH as [Iw Ik].
    destruct (isEvaluation (game w) e) eqn:He.
    + destruct (step_evaluation_fields _ _ _ _ _ Hs He)
        as (Hm & F1 & _ & _ & _ & _ & F7 & _).
      apply mounted_playing in Hm.
      assert (robuxScore (game w) < 1000) as Hlt.
      { destruct (Z_lt_dec (robuxScore (game w)) 1000); [assumption|].
        assert (gameState (game w) = won) by (apply Iw; lia). congruence. }
      rewrite F7, Hm.
      destruct (negb (robuxScore (game w) =? robuxScore (game w'))
                && (robuxScore (game w') >=? 1000)) eqn:E.
      * apply andb_true_iff in E as [_ E]. apply geb_ge in E.
        split; [tauto | auto].
      * split; [|auto]. split; [discriminate|]. intros Hge. exfalso.
        apply andb_false_iff in E as [E | E].
        -- apply negb_false_iff, Z.eqb_eq in E. lia.
        -- apply geb_lt in E. lia.
    + destruct (step_other _ _ _ _ _ _ Hs He) as (-> & _ & _ & _ & _ & -> & _).
      auto.
Qed.

(** The score of a session that starts at 0 stays between 0 and 1004. *)
Lemma Reach_score_bounds d lang n w :
  Reach sortRandomly (mount d lang 0) n w ->
  0 <= robuxScore (game w) <= 1004.
Proof.
  intros HR.
  assert (0 <= robuxScore (game w)) as H0.
  { eapply Reach_score; [exact HR|].
    destruct (mount_fields d lang 0) as (-> & _). lia. }
  split; [exact H0|].
  induction HR as [|n w e t w' t' HR IH Hs].
  - destruct (mount_fields d lang 0) as (-> & _). lia.
  - assert (0 <= robuxScore (game w)) as H1.
    { eapply Reach_score; [exact HR|].
      destruct (mount_fields d lang 0) as (-> & _). lia. }
    specialize (IH H1).
    destruct (isEvaluation (game w) e) eqn:He.
    + destruct (step_evaluation_fields _ _ _ _ _ Hs He) as (Hm & F1 & _).
      apply mounted_playing in Hm.
      destruct (Reach_win _ _ _ _ _ HR) as [Iw _].
      assert (robuxScore (game w) < 1000) as Hlt.
      { destruct (Z_lt_dec (robuxScore (game w)) 1000); [assumption|].
        assert (gameState (game w) = won) by (apply Iw; lia). congruence. }
      rewrite F1.
      pose proof (getPenalty_pos (robuxScore (game w))).
      destruct (strictEq _ _); lia.
    + destruct (step_other _ _ _ _ _ _ Hs He) as (-> & _). exact IH.
Qed.

(** Five points per correct answer at most. *)
Lemma Reach_score_count d lang n w :
  Reach sortRandomly (mount d lang 0) n w ->
  robuxScore (game w) <= 5 * correctAnswersCount (game w) /\
  0 <= correctStreak (game w) <= correctAnswersCount (game w) /\
  correctAnswersCount (game w) <= Z.of_nat n.
Proof.
  intros HR. induction HR as [|n w e t w' t' HR IH Hs].
  - destruct (mount_fields d lang 0) as (-> & -> & _ & -> & _). lia.
  - destruct IH as (I1 & I2 & I3).
    destruct (isEvaluation (game w) e) eqn:He.
    + destruct (step_evaluation_fields _ _ _ _ _ Hs He)
        as (_ & F1 & F2 & _ & F4 & _).
      rewrite F1, F2, F4.
      pose proof (getPenalty_pos (robuxScore (game w))).
      assert (0 <= correctAnswersCount (game w)) by lia.
      destruct (strictEq _ _); lia.
    + destruct (step_other _ _ _ _ _ _ Hs He) as (-> & -> & _ & -> & _). lia.
Qed.


End SessionFacts.

Section SessionProperties.

Variable sortRandomly : list Z -> Rand (list Z).

(** The level only falls. *)
Lemma step_level_le w e t w' t' :
  step sortRandomly w e t = Some (w', t') ->
  0 <= difficultyLevel (game w) ->
  difficultyLevel (game w') <= difficultyLevel (game w).
Proof.
  intros Hs H0.
  destruct (isEvaluation (game w) e) eqn:He.
  - destruct (step_evaluation _ _ _ _ _ _ Hs He) as (_ & _ & Hc).
    destruct Hc as [(_ & Hg) | (_ & Hg & _)]; rewrite Hg;
      match goal with |- context [afterRender ?p ?x] =>
        destruct (afterRender_difficultyLevel p x) as [D1 D2];
        destruct (Z.eq_dec (wrongStreak x) (wrongStreak p)) as [Q|Q];
        [ rewrite D2 by tauto
        | destruct (Z_lt_dec 0 (wrongStreak x));
          [ destruct (Z.eq_dec (wrongStreak x mod 3) 0);
            [ rewrite D1 by tauto | rewrite D2 by tauto ]
          | rewrite D2 by tauto ] ]
      end; unfold_setters; lia.
  - destruct (step_other _ _ _ _ _ _ Hs He) as (_ & _ & _ & _ & -> & _). lia.
Qed.

(** Tier, language and the range of the level, for the state and for every
    closure still in use. *)
Lemma Reach_tier d lang score n w :
  Reach sortRandomly (mount d lang score) n w ->
  forall c, In c (closures w) ->
    difficulty c = d /\ language c = lang /\
    0 <= difficultyLevel c <= tierLevel d.
Proof.
  intros HR. induction HR as [|n w e t w' t' HR IH Hs].
  - destruct (mount_fields d lang score) as (_ & _ & _ & _ & M5 & _ & _ & _ & M9).
    unfold closures. rewrite M9. intros c [<- | []].
    rewrite M5. unfold mount, initialState, difficultyEffect.
    cbn [robuxScore]. unfold tierLevel.
    destruct (score >=? 1000), d; repeat split; try reflexivity; lia.
  - intros c [<- | Hc].
    + destruct (IH (game w) (or_introl eq_refl)) as (I1 & I2 & I3 & I4).
      pose proof (step_level_le _ _ _ _ _ Hs I3) as Hle.
      pose proof (step_levels sortRandomly _ _ _ _ _ Hs) as Hnn.
      assert (difficulty (game w') = difficulty (game w) /\
              language (game w') = language (game w)) as [E1 E2].
      { destruct (isEvaluation (game w) e) eqn:He.
        - destruct (step_evaluation_fields _ _ _ _ _ _ Hs He)
            as (_ & _ & _ & _ & _ & _ & _ & F8 & F9 & _). auto.
        - now apply (step_other_props _ _ _ _ _ _ Hs). }
      rewrite E1, E2. repeat split; try assumption; [|lia].
      destruct (isEvaluation (game w) e) eqn:He.
      * destruct (step_evaluation _ _ _ _ _ _ Hs He) as (_ & _ & Hc).
        destruct Hc as [(_ & Hg) | (_ & Hg & _)]; rewrite Hg;
          match goal with |- context [afterRender ?p ?x] =>
            destruct (afterRender_difficultyLevel p x) as [D1 D2];
            destruct (Z.eq_dec (wrongStreak x) (wrongStreak p)) as [Q|Q];
            [ rewrite D2 by tauto
            | destruct (Z_lt_dec 0 (wrongStreak x));
              [ destruct (Z.eq_dec (wrongStreak x mod 3) 0);
                [ rewrite D1 by tauto | rewrite D2 by tauto ]
              | rewrite D2 by tauto ] ]
          end; unfold_setters; lia.
      * destruct (step_other _ _ _ _ _ _ Hs He) as (_ & _ & _ & _ & -> & _). lia.
    + apply IH. eapply step_closures; eassumption.
Qed.

Lemma setDifficultyLevel_same g k :
  difficultyLevel g = k -> setDifficultyLevel (fun _ => k) g = g.
Proof. intros <-. destruct g. reflexivity. Qed.

(** X5.  The win.  In a session that starts at 0 points the screen is in state
    [won] exactly when the score is 1000 or more, and the score never leaves
    0 .. 1004; once [won], no event changes the state of the game. *)
Theorem win_at_1000_and_final :
  (forall d lang n w,
     Reach sortRandomly (mount d lang 0) n w ->
     (gameState (game w) = won <-> 1000 <= robuxScore (game w)) /\
     0 <= robuxScore (game w) <= 1004)
  /\
  (forall w e t w' t',
     gameState (game w) = won ->
     step sortRandomly w e t = Some (w', t') ->
     game w' = game w).
Proof.
  split.
  - intros d lang n w HR. split.
    + now apply (Reach_win _ _ _ _ _ _ HR).
    + now apply (Reach_score_bounds _ _ _ _ _ HR).
  - intros w e t w' t' Hw Hs.
    assert (mounted (game w) = false) as Hm
      by (unfold mounted; rewrite Hw; reflexivity).
    apply step_cases in Hs as [(_ & -> & _) | (Hoff & Hs)]; [reflexivity|].
    destruct e.
    + apply offered_ClickStart in Hoff as [Ho _]. congruence.
    + apply offered_ClickOption in Hoff as [Ho _]. congruence.
    + simpl in Hoff. rewrite Hm in Hoff. discriminate.
    + apply offered_SubmitForm in Hoff as [Ho _]. congruence.
    + destruct Hs as [(_ & -> & _) | (tm & rest & q & _ & _ & ->)];
        [reflexivity|].
      rewrite Hm. reflexivity.
Qed.

(** X6.  Five points per correct answer: in a session that starts at 0 points the
    score is at most five times the number of correct answers, the running
    streak is at most that number, which is at most the number of answers
    evaluated; so the screen is [won] only after 200 correct answers. *)
Theorem score_needs_correct_answers d lang n w :
  Reach sortRandomly (mount d lang 0) n w ->
  robuxScore (game w) <= 5 * correctAnswersCount (game w) /\
  0 <= correctStreak (game w) <= correctAnswersCount (game w) /\
  correctAnswersCount (game w) <= Z.of_nat n /\
  (gameState (game w) = won -> 200 <= correctAnswersCount (game w)).
Proof.
  intros HR.
  destruct (Reach_score_count _ _ _ _ _ HR) as (H1 & H2 & H3).
  repeat split; try lia.
  intros Hw. apply (Reach_win _ _ _ _ _ _ HR) in Hw. lia.
Qed.


(** X8.  The level of difficulty only falls from the value of the tier, and no
    question depends on how far it fell: in every closure in use the tier is
    the one chosen, the level lies between 0 and the value of the tier, and
    the rule cascade draws as it would with the level back at that value. *)
Theorem difficulty_level_never_matters d lang score n w c :
  Reach sortRandomly (mount d lang score) n w ->
  In c (closures w) ->
  difficulty c = d /\
  0 <= difficultyLevel c <= tierLevel d /\
  ruleCascade (setDifficultyLevel (fun _ => tierLevel d) c) = ruleCascade c.
Proof.
  intros HR Hc.
  destruct (Reach_tier _ _ _ _ _ HR c Hc) as (Hd & _ & Hl).
  split; [exact Hd|]. split; [exact Hl|].
  destruct d.
  - rewrite setDifficultyLevel_same; [reflexivity|].
    unfold tierLevel in *. lia.
  - unfold ruleCascade. cbn [setDifficultyLevel robuxScore difficulty
                              correctAnswersCount].
    rewrite Hd. reflexivity.
  - unfold ruleCascade. cbn [setDifficultyLevel robuxScore difficulty
                              correctAnswersCount].
    rewrite Hd. reflexivity.
Qed.

End SessionProperties.

(* ====================================================================== *)
(** ** Which render a question on display comes from *)

Lemma generatedFrom_operands sortRandomly c q :
  generatedFrom sortRandomly c q ->
  answer q = num1 q * num2 q /\
  exists p t0 t1 t2,
    ruleCascade c t0 = Some (p, t1) /\
    noOnesRule c p t1 = Some ((num1 q, num2 q), t2).
Proof.
  intros (t & t' & Hq).
  apply buildQuestion_operands in Hq as (Ha & _ & t0 & t2 & Hb).
  unfold drawOperands in Hb. apply bind_Some in Hb as (p & t1 & Hc & Hn).
  split; [exact Ha|]. now exists p, t0, t1, t2.
Qed.

(** The thresholds of the cascade, read on a state that is up to one answer
    ahead: an answer moves the score by +5 or by a penalty of 2 to 8. *)
Lemma oneAnswerBehind_thresholds c g :
  oneAnswerBehind c g ->
  correctAnswersCount c <= correctAnswersCount g /\
  (robuxScore g < 795 -> robuxScore c < 800) /\
  (105 <= robuxScore g -> 100 <= robuxScore c) /\
  (805 <= robuxScore g -> 800 <= robuxScore c).
Proof.
  pose proof (getPenalty_table (robuxScore c)) as (P1 & P2 & P3 & P4).
  pose proof (getPenalty_pos (robuxScore c)) as P0.
  intros [(E1 & E2 & _) | [(E1 & E2 & _) | (E1 & E2 & _)]];
    (split; [lia|]); (split; [|split]); intros H; lia.
Qed.

Lemma generated_hard sortRandomly c q :
  generatedFrom sortRandomly c q ->
  robuxScore c < 800 -> difficulty c = Hard ->
  6 <= num1 q <= 9 /\ 6 <= num2 q <= 9 /\ 36 <= answer q <= 81.
Proof.
  intros Hg Hs Hd.
  apply generatedFrom_operands in Hg as (Ha & p & t0 & t1 & t2 & Hc & Hn).
  rewrite (ruleCascade_below_800 c Hs), Hd in Hc.
  apply hardRule_spec in Hc as (r1 & r2 & _ & [H1 _] & [H2 _]).
  apply noOnesRule_range in Hn. cbn [fst snd] in Hn.
  assert (6 <= num1 q <= 9 /\ 6 <= num2 q <= 9) as [B1 B2] by lia.
  rewrite Ha. repeat split; nia.
Qed.

Lemma generated_high sortRandomly c q :
  generatedFrom sortRandomly c q ->
  800 <= robuxScore c ->
  (6 <= num1 q <= 9 /\ 6 <= num2 q <= 12) \/
  (6 <= num1 q <= 12 /\ 6 <= num2 q <= 9).
Proof.
  intros Hg Hs.
  apply generatedFrom_operands in Hg as (Ha & p & t0 & t1 & t2 & Hc & Hn).
  unfold ruleCascade in Hc.
  assert ((robuxScore c >=? 800) = true) as E by (apply geb_ge; lia).
  rewrite E in Hc.
  apply highScoreRule_spec in Hc
    as (r1 & r2 & r3 & a & b & _ & -> & [H1 _] & [H2 _]).
  apply noOnesRule_range in Hn.
  destruct (Qltb r3 (1 # 2)); cbn [fst snd] in Hn; lia.
Qed.

Lemma generated_moderate sortRandomly c q :
  generatedFrom sortRandomly c q ->
  robuxScore c < 800 -> difficulty c = Moderate ->
  ((4 <= num1 q <= 7 /\ 1 <= num2 q <= 10) \/
   (1 <= num1 q <= 10 /\ 4 <= num2 q <= 7)) /\
  (100 <= robuxScore c -> 2 <= num1 q /\ 2 <= num2 q) /\
  4 <= answer q <= 70.
Proof.
  intros Hg Hs Hd.
  apply generatedFrom_operands in Hg as (Ha & p & t0 & t1 & t2 & Hc & Hn).
  rewrite (ruleCascade_below_800 c Hs), Hd in Hc.
  apply moderateRule_spec in Hc
    as (r1 & r2 & r3 & a & b & _ & -> & [H1 _] & [H2 _]).
  apply noOnesRule_range in Hn. rewrite Ha.
  destruct (Qltb r3 (1 # 2)); cbn [fst snd] in Hn;
    (split; [lia|]); (split; [lia|]); nia.
Qed.

Lemma generated_easy_intro sortRandomly c q :
  generatedFrom sortRandomly c q ->
  robuxScore c < 800 -> difficulty c = Easy -> correctAnswersCount c < 30 ->
  ((2 <= num1 q <= 3 /\ 1 <= num2 q <= 10) \/
   (1 <= num1 q <= 10 /\ 2 <= num2 q <= 3)) /\
  (100 <= robuxScore c -> 2 <= num1 q /\ 2 <= num2 q) /\
  2 <= answer q <= 30.
Proof.
  intros Hg Hs Hd Hcnt.
  apply generatedFrom_operands in Hg as (Ha & p & t0 & t1 & t2 & Hc & Hn).
  rewrite (ruleCascade_below_800 c Hs), Hd in Hc.
  assert ((correctAnswersCount c <? 30) = true) as E by (apply Z.ltb_lt; lia).
  rewrite E in Hc.
  apply easyIntroRule_spec in Hc
    as (r1 & r2 & r3 & a & b & _ & -> & -> & [H2 _]).
  apply noOnesRule_range in Hn. rewrite Ha.
  destruct (Qgtb r3 (1 # 2)), (Qltb r1 (1 # 2)); cbn [fst snd] in Hn;
    (split; [lia|]); (split; [lia|]); nia.
Qed.

Section TierSessions.

Variable sortRandomly : list Z -> Rand (list Z).

(** The render that a pending timeout keeps is the one in which the question
    on display was answered: the state is that render's after the
    evaluation. *)
Lemma Reach_pending_closure d lang score n w :
  Reach sortRandomly (mount d lang score) n w ->
  forall tm, timers w = [tm] ->
    currentQuestion (closure tm) = currentQuestion (game w) /\
    oneAnswerBehind (closure tm) (game w).
Proof.
  intros HR. induction HR as [|n w e t w' t' HR IH Hs]; intros tm Ht.
  - destruct (mount_fields d lang score) as (_ & _ & _ & _ & _ & _ & _ & _ & M9).
    rewrite M9 in Ht. discriminate.
  - destruct (Reach_question_inv sortRandomly _ _ _ _ _ HR) as (I1 & _ & I3).
    destruct (isEvaluation (game w) e) eqn:He.
    + destruct (step_evaluation _ _ _ _ _ _ Hs He) as (Hna & Htm & _).
      destruct (step_evaluation_fields _ _ _ _ _ _ Hs He)
        as (_ & F1 & F2 & _ & F4 & _ & _ & _ & _ & _ & F11 & _).
      destruct I3 as [E | (tm0 & _ & Ha & _)]; [|congruence].
      rewrite Htm, E in Ht. injection Ht as <-. cbn [closure].
      split; [now rewrite F11|].
      unfold oneAnswerBehind. rewrite F1, F2, F4.
      destruct (strictEq _ _); [right; left | right; right]; auto.
    + apply step_cases in Hs as [(_ & -> & _) | (Hoff & Hs)]; [now apply IH|].
      unfold isEvaluation in He. rewrite Hoff in He. simpl in He.
      destruct e; try discriminate.
      * destruct Hs as (q & _ & ->). cbn [timers] in Ht.
        apply offered_ClickStart in Hoff as [_ Hi].
        destruct (I1 Hi) as [Hnil _]. congruence.
      * destruct Hs as (-> & _). cbn [timers game] in *.
        exact (IH tm Ht).
      * destruct Hs as [(_ & -> & _) | (tm0 & rest & q & Ht0 & _ & ->)];
          [now apply IH|].
        destruct I3 as [E | (tm1 & E & _)]; [congruence|].
        rewrite E in Ht0. injection Ht0 as _ <-.
        destruct (mounted (game w)); cbn [timers] in Ht; discriminate.
Qed.

(** Every question on display was computed by the [generateQuestion] of a
    render of the session, and until it is answered the state is at most one
    answer ahead of that render. *)
Lemma Reach_generated d lang score n w :
  Reach sortRandomly (mount d lang score) n w ->
  forall q, currentQuestion (game w) = Some q ->
    exists c,
      generatedFrom sortRandomly c q /\ difficulty c = d /\
      (isAnswered (game w) = false -> oneAnswerBehind c (game w)).
Proof.
  intros HR. induction HR as [|n w e t w' t' HR IH Hs]; intros q Hq.
  - destruct (mount_fields d lang score) as (_ & _ & _ & _ & _ & _ & M7 & _).
    rewrite M7 in Hq. discriminate.
  - destruct (Reach_question_inv sortRandomly _ _ _ _ _ HR) as (_ & _ & I3).
    destruct (isEvaluation (game w) e) eqn:He.
    + destruct (step_evaluation_fields _ _ _ _ _ _ Hs He)
        as (_ & _ & _ & _ & _ & _ & _ & _ & _ & _ & F11 & F12).
      rewrite F11 in Hq. destruct (IH q Hq) as (c & G & D & _).
      exists c. split; [exact G|]. split; [exact D|]. congruence.
    + apply step_cases in Hs as [(_ & -> & _) | (Hoff & Hs)]; [now apply IH|].
      unfold isEvaluation in He. rewrite Hoff in He. simpl in He.
      destruct e; try discriminate.
      * destruct Hs as (q0 & Hq0 & ->). cbn [game] in *.
        unfold_setters. injection Hq as <-.
        exists (game w). split; [now exists t, t'|]. split.
        -- now apply (Reach_tier sortRandomly _ _ _ _ _ HR (game w) (or_introl eq_refl)).
        -- intros _. left. auto.
      * destruct Hs as (-> & _). cbn [game] in *. unfold_setters.
        exact (IH q Hq).
      * destruct Hs as [(_ & -> & _) | (tm & rest & q0 & Ht & Hq0 & ->)];
          [now apply IH|].
        destruct (mounted (game w)); cbn [game] in *; [|now apply IH].
        assert (timers w = [tm]) as Htm.
        { destruct I3 as [E | (tm1 & E & _)]; congruence. }
        destruct (Reach_pending_closure _ _ _ _ _ HR tm Htm) as [_ Hb].
        assert (In (closure tm) (closures w)) as Hin.
        { unfold closures. rewrite Htm. right. left. reflexivity. }
        destruct (Reach_tier sortRandomly _ _ _ _ _ HR _ Hin) as (D & _).
        exists (closure tm).
        destruct (clearsTypedAnswer tm); unfold_setters;
          injection Hq as <-;
          (split; [now exists t, t'|]); (split; [exact D|]);
          intros _; exact Hb.
Qed.

(** X1.  The Hard tier below 800 points.  As a function of the state it
    reads, the cascade draws both operands uniformly from 6, 7, 8, 9,
    independently.  In a Hard session every question on display has one
    operand in 6 .. 9 and the other in 6 .. 12, and a question not yet
    answered that is on display at a score below 795 has both operands in
    6 .. 9 and a product between 36 and 81: the score that
    [generateQuestion] read is then below 800, whether it ran before or
    after the last answer was counted. *)
Theorem hard_tier_operands :
  (forall g t p t',
     robuxScore g < 800 -> difficulty g = Hard ->
     ruleCascade g t = Some (p, t') ->
     exists r1 r2,
       t = r1 :: r2 :: t' /\
       drawnUniformly r1 6 9 (fst p) /\ drawnUniformly r2 6 9 (snd p))
  /\
  (forall lang score n w q,
     Reach sortRandomly (mount Hard lang score) n w ->
     currentQuestion (game w) = Some q ->
     ((6 <= num1 q <= 9 /\ 6 <= num2 q <= 12) \/
      (6 <= num1 q <= 12 /\ 6 <= num2 q <= 9)) /\
     (isAnswered (game w) = false -> robuxScore (game w) < 795 ->
      6 <= num1 q <= 9 /\ 6 <= num2 q <= 9 /\ 36 <= answer q <= 81)).
Proof.
  split.
  - intros g t p t' Hs Hd H.
    rewrite (ruleCascade_below_800 g Hs), Hd in H. now apply hardRule_spec.
  - intros lang score n w q HR Hq.
    destruct (Reach_generated _ _ _ _ _ HR q Hq) as (c & G & D & B).
    split.
    + destruct (Z_lt_dec (robuxScore c) 800) as [Hlt | Hge].
      * destruct (generated_hard _ _ _ G Hlt D) as (B1 & B2 & _). lia.
      * apply (generated_high _ _ _ G). lia.
    + intros Ha Hs.
      destruct (oneAnswerBehind_thresholds _ _ (B Ha)) as (_ & T & _).
      exact (generated_hard _ _ _ G (T Hs) D).
Qed.

(** X2.  The Moderate tier below 800 points.  As a function of the state it
    reads, the cascade draws one operand uniformly from 4, 5, 6, 7 and the
    other uniformly from 1 .. 10, in an order decided by a coin flip.  In a
    Moderate session a question not yet answered that is on display at a
    score below 795 has one operand in 4 .. 7 and the other in 1 .. 10, hence
    a product between 4 and 70, and at a score of 105 or more it has no
    operand 1. *)
Theorem moderate_tier_operands :
  (forall g t p t',
     robuxScore g < 800 -> difficulty g = Moderate ->
     ruleCascade g t = Some (p, t') ->
     exists r1 r2 r3 a b,
       t = r1 :: r2 :: r3 :: t' /\
       p = (if Qltb r3 (1 # 2) then (b, a) else (a, b)) /\
       drawnUniformly r1 4 7 a /\ drawnUniformly r2 1 10 b)
  /\
  (forall lang score n w q,
     Reach sortRandomly (mount Moderate lang score) n w ->
     currentQuestion (game w) = Some q ->
     isAnswered (game w) = false ->
     robuxScore (game w) < 795 ->
     ((4 <= num1 q <= 7 /\ 1 <= num2 q <= 10) \/
      (1 <= num1 q <= 10 /\ 4 <= num2 q <= 7)) /\
     (105 <= robuxScore (game w) -> 2 <= num1 q /\ 2 <= num2 q) /\
     4 <= answer q <= 70).
Proof.
  split.
  - intros g t p t' Hs Hd H.
    rewrite (ruleCascade_below_800 g Hs), Hd in H. now apply moderateRule_spec.
  - intros lang score n w q HR Hq Ha Hs.
    destruct (Reach_generated _ _ _ _ _ HR q Hq) as (c & G & D & B).
    destruct (oneAnswerBehind_thresholds _ _ (B Ha)) as (_ & T1 & T2 & _).
    destruct (generated_moderate _ _ _ G (T1 Hs) D) as (R1 & R2 & R3).
    split; [exact R1|]. split; [|exact R3].
    intros H. apply R2, T2, H.
Qed.

(** X3.  The first rule of the Easy tier, below 800 points and 30 correct
    answers.  As a function of the state it reads, the cascade takes one
    operand as 2 or 3 on a coin flip and draws the other uniformly from
    1 .. 10, a second coin flip deciding the order.  In an Easy session a
    question not yet answered that is on display at a score below 795 with
    fewer than 30 correct answers counted has one operand 2 or 3 and the
    other in 1 .. 10, hence a product between 2 and 30, and at a score of 105
    or more it has no operand 1. *)
Theorem easy_intro_operands :
  (forall g t p t',
     robuxScore g < 800 -> difficulty g = Easy -> correctAnswersCount g < 30 ->
     ruleCascade g t = Some (p, t') ->
     exists r1 r2 r3 a b,
       t = r1 :: r2 :: r3 :: t' /\
       p = (if Qgtb r3 (1 # 2) then (a, b) else (b, a)) /\
       a = (if Qltb r1 (1 # 2) then 2 else 3) /\ drawnUniformly r2 1 10 b)
  /\
  (forall lang score n w q,
     Reach sortRandomly (mount Easy lang score) n w ->
     currentQuestion (game w) = Some q ->
     isAnswered (game w) = false ->
     robuxScore (game w) < 795 ->
     correctAnswersCount (game w) < 30 ->
     ((2 <= num1 q <= 3 /\ 1 <= num2 q <= 10) \/
      (1 <= num1 q <= 10 /\ 2 <= num2 q <= 3)) /\
     (105 <= robuxScore (game w) -> 2 <= num1 q /\ 2 <= num2 q) /\
     2 <= answer q <= 30).
Proof.
  split.
  - intros g t p t' Hs Hd Hc H.
    rewrite (ruleCascade_below_800 g Hs), Hd in H.
    assert ((correctAnswersCount g <? 30) = true) as E by (apply Z.ltb_lt; lia).
    rewrite E in H. now apply easyIntroRule_spec.
  - intros lang score n w q HR Hq Ha Hs Hcnt.
    destruct (Reach_generated _ _ _ _ _ HR q Hq) as (c & G & D & B).
    destruct (oneAnswerBehind_thresholds _ _ (B Ha)) as (T0 & T1 & T2 & _).
    destruct (generated_easy_intro _ _ _ G (T1 Hs) D ltac:(lia))
      as (R1 & R2 & R3).
    split; [exact R1|]. split; [|exact R3].
    intros H. apply R2, T2, H.
Qed.

End TierSessions.
(* ====================================================================== *)
(** ** Numerals and [parseInt] *)

Lemma digits_of_uint_acc u : forall acc,
  digits (Some (Z.pos acc)) (DecimalString.NilEmpty.string_of_uint u)
  = Some (Z.pos (Pos.of_uint_acc u acc)).
Proof.
  induction u; intros acc; cbn [DecimalString.NilEmpty.string_of_uint digits];
    try reflexivity;
    match goal with
    | |- context [digitValue ?c] =>
        let v := eval vm_compute in (digitValue c) in
        change (digitValue c) with v; cbv iota
    end;
    cbn [Pos.of_uint_acc]; rewrite <- IHu; do 2 f_equal; lia.
Qed.

Lemma digits_zero_of_uint u :
  digits (Some 0) (DecimalString.NilEmpty.string_of_uint u)
  = Some (Z.of_N (Pos.of_uint u)).
Proof.
  induction u; cbn [DecimalString.NilEmpty.string_of_uint digits Pos.of_uint];
    try reflexivity;
    match goal with
    | |- context [digitValue ?c] =>
        let v := eval vm_compute in (digitValue c) in
        change (digitValue c) with v; cbv iota
    end;
    [exact IHu | ..];
    match goal with
    | |- digits (Some ?v) _ = _ =>
        let p := eval vm_compute in v in
        change v with p
    end; rewrite digits_of_uint_acc; reflexivity.
Qed.

Lemma digits_None_of_uint u :
  u <> Decimal.Nil ->
  digits None (DecimalString.NilEmpty.string_of_uint u)
  = Some (Z.of_N (Pos.of_uint u)).
Proof.
  intros Hu. rewrite <- digits_zero_of_uint.
  destruct u; [congruence | reflexivity ..].
Qed.

Lemma parseInt_uint u :
  u <> Decimal.Nil ->
  parseInt (DecimalString.NilEmpty.string_of_uint u) = Int (Z.of_uint u).
Proof.
  intros Hu. pose proof (digits_None_of_uint u Hu) as Hd.
  unfold parseInt, Z.of_uint.
  destruct u; [congruence | ..];
    cbn [DecimalString.NilEmpty.string_of_uint trimStart] in *;
    match goal with
    | |- context [isWhiteSpace ?c] =>
        change (isWhiteSpace c) with false; cbv iota
    end;
    cbv beta iota zeta; rewrite Hd; f_equal; try lia.
Qed.

Lemma parseInt_neg_uint u :
  u <> Decimal.Nil ->
  parseInt (String "-" (DecimalString.NilEmpty.string_of_uint u))
  = Int (- Z.of_uint u).
Proof.
  intros Hu. unfold parseInt, Z.of_uint.
  cbn [trimStart]. change (isWhiteSpace "-") with false. cbv iota.
  cbv beta iota zeta. rewrite (digits_None_of_uint u Hu). f_equal; try lia.
Qed.

(** Reading back the text of an integer gives the integer. *)
Lemma parseInt_Number_toString n : parseInt (Number_toString n) = Int n.
Proof.
  unfold Number_toString. destruct n as [|p|p]; [reflexivity | |].
  - cbn [Z.to_int DecimalString.NilZero.string_of_int].
    pose proof (DecimalPos.Unsigned.to_uint_nonnil p) as Hn.
    assert (DecimalString.NilZero.string_of_uint (Pos.to_uint p)
            = DecimalString.NilEmpty.string_of_uint (Pos.to_uint p)) as ->
      by (destruct (Pos.to_uint p); [congruence | reflexivity ..]).
    rewrite parseInt_uint by assumption. unfold Z.of_uint.
    now rewrite DecimalPos.Unsigned.of_to.
  - cbn [Z.to_int DecimalString.NilZero.string_of_int].
    pose proof (DecimalPos.Unsigned.to_uint_nonnil p) as Hn.
    assert (DecimalString.NilZero.string_of_uint (Pos.to_uint p)
            = DecimalString.NilEmpty.string_of_uint (Pos.to_uint p)) as ->
      by (destruct (Pos.to_uint p); [congruence | reflexivity ..]).
    rewrite parseInt_neg_uint by assumption. unfold Z.of_uint.
    now rewrite DecimalPos.Unsigned.of_to.
Qed.

(** The text of an integer is never blank. *)
Lemma Number_toString_not_blank n : truthy (trim (Number_toString n)) = true.
Proof.
  assert (forall s, parseInt s <> NaN -> truthy (trim s) = true) as H.
  { intros s Hs. unfold trim.
    destruct (trimStart s) as [|c r] eqn:E.
    - exfalso. apply Hs. unfold parseInt. rewrite E. reflexivity.
    - simpl. destruct (trimEnd r); [|reflexivity].
      destruct (isWhiteSpace c) eqn:Ec; [|reflexivity].
      exfalso.
      assert (forall s0 c0 r0, trimStart s0 = String c0 r0 ->
                               isWhiteSpace c0 = false) as Hts.
      { induction s0 as [|c1 s1 IH]; intros c0 r0 H0; simpl in H0;
          [discriminate|].
        destruct (isWhiteSpace c1) eqn:E1; [eauto|].
        injection H0 as <- _. exact E1. }
      rewrite (Hts _ _ _ E) in Ec. discriminate. }
  apply H. rewrite parseInt_Number_toString. discriminate.
Qed.

(* ====================================================================== *)
(** ** Clicking and typing, compliments *)

(** X9.  Submitting the decimal text of an integer changes the game exactly as a
    click on that integer does, with the same use of the oracle; the two
    differ only in the timeout they leave, which for the form also clears the
    field. *)
Theorem typed_numeral_like_click w n t :
  typedAnswer (game w) = Number_toString n ->
  option_map (fun r => (game (fst r), snd r)) (handleTypedAnswerSubmit w t)
  = option_map (fun r => (game (fst r), snd r)) (handleAnswer w n t)
  /\
  (isAnswered (game w) = false ->
   option_map (fun r => timers (fst r)) (handleTypedAnswerSubmit w t)
   = option_map (fun r => timers w ++ [mkTimer true (game w)])
                (handleAnswer w n t)).
Proof.
  intros Ht. unfold handleTypedAnswerSubmit, handleAnswer.
  rewrite Ht, Number_toString_not_blank, parseInt_Number_toString.
  destruct (isAnswered (game w)); simpl.
  - split; [reflexivity | discriminate].
  - unfold bind.
    destruct (evaluate (game w) (Int n) (setIsAnswered true (game w)) t)
      as [[g1 t1]|]; split; reflexivity.
Qed.

Lemma index_in_range {A} (arr : list A) i t :
  0 <= i < len arr -> exists v, index arr i t = Some (v, t) /\ In v arr.
Proof.
  intros [H0 H1]. unfold index, len in *.
  assert ((i <? 0) = false) as -> by (apply Z.ltb_ge; lia).
  destruct (nth_error arr (Z.to_nat i)) as [v|] eqn:E.
  - exists v. split; [reflexivity|]. eapply nth_error_In; eassumption.
  - apply nth_error_None in E. lia.
Qed.

(** X10.  A correct answer draws its compliment with one result of the oracle and
    never reads outside the array: from 950 points on the compliment is one
    of [HIGH_SCORE_COMPLIMENTS], below it is one of [COMPLIMENTS], and the
    evaluation ends with the oracle one result further. *)
Theorem compliment_is_drawn_in_range :
  (forall c r t,
     in_unit r = true ->
     exists s,
       randomCompliment c (r :: t) = Some (s, t) /\
       (950 <= robuxScore c -> In s HIGH_SCORE_COMPLIMENTS) /\
       (robuxScore c < 950 -> In s COMPLIMENTS))
  /\
  (forall c userAnswer g r t,
     in_unit r = true ->
     strictEq userAnswer (option_map answer (currentQuestion c)) = true ->
     evaluate c userAnswer g (r :: t) = Some (afterCorrect g, t)).
Proof.
  assert (forall c r t, in_unit r = true ->
            let arr := if robuxScore c >=? 950
                       then HIGH_SCORE_COMPLIMENTS else COMPLIMENTS in
            exists s, index arr (floorMul r (len arr)) t = Some (s, t)
                      /\ In s arr) as Hpick.
  { intros c r t Hr arr. apply index_in_range.
    apply floorMul_range; [assumption|].
    unfold arr. destruct (robuxScore c >=? 950); reflexivity. }
  split.
  - intros c r t Hr. destruct (Hpick c r t Hr) as (s & Hs & Hin).
    exists s. unfold randomCompliment, randomBelow, bind, Math_random.
    rewrite Hr. cbn [ret]. split; [exact Hs|].
    destruct (robuxScore c >=? 950) eqn:E;
      [apply geb_ge in E | apply geb_lt in E]; split; intros; try lia;
      assumption.
  - intros c ua g r t Hr Hc. destruct (Hpick c r t Hr) as (s & Hs & _).
    unfold evaluate. rewrite Hc.
    unfold randomBelow, bind, Math_random, speakText. rewrite Hr.
    cbn [ret]. rewrite Hs. reflexivity.
Qed.

(* ====================================================================== *)
(** ** What the screen shows *)

Section Display.

Variable sortRandomly : list Z -> Rand (list Z).

(** Feedback is there only on an answered question, and it never names the
    answer. *)
Lemma Reach_feedback d lang score n w :
  Reach sortRandomly (mount d lang score) n w ->
  forall v, feedback (game w) = Some v ->
    isAnswered (game w) = true /\
    strictEq v (option_map answer (currentQuestion (game w))) = false.
Proof.
  intros HR. induction HR as [|n w e t w' t' HR IH Hs].
  - intros v Hv. unfold mount, initialState, difficultyEffect in Hv.
    cbn [robuxScore] in Hv. destruct (score >=? 1000); discriminate Hv.
  - destruct (isEvaluation (game w) e) eqn:He.
    + destruct (step_evaluation_fields _ _ _ _ _ _ Hs He)
        as (_ & _ & _ & _ & _ & F6 & _ & _ & _ & _ & F11 & F12).
      intros v Hv. rewrite F6 in Hv. rewrite F11, F12.
      split; [reflexivity|].
      destruct (strictEq (submitted (game w) e)
                  (option_map answer (currentQuestion (game w)))) eqn:E;
        [discriminate|].
      now injection Hv as <-.
    + apply step_cases in Hs as [(_ & -> & _) | (Hoff & Hs)]; [exact IH|].
      unfold isEvaluation in He. rewrite Hoff in He. simpl in He.
      destruct e; try discriminate.
      * destruct Hs as (q & _ & ->). intros v Hv. discriminate Hv.
      * destruct Hs as (-> & _). exact IH.
      * destruct Hs as [(_ & -> & _) | (tm & rest & q & Ht & _ & ->)];
          [exact IH|].
        destruct (mounted (game w)); [|exact IH].
        intros v Hv. destruct (clearsTypedAnswer tm); discriminate Hv.
Qed.

Hypothesis sortRandomly_permutes :
  forall l t l' t', sortRandomly l t = Some (l', t') -> Permutation l l'.

Lemma buildQuestion_wellFormed c t q t' :
  levelsNonneg c ->
  buildQuestion sortRandomly (drawOperands c) c t = Some (q, t') ->
  wellFormed q.
Proof.
  intros Hc Hq.
  eapply buildQuestion_options; [exact sortRandomly_permutes | exact Hq |].
  apply buildQuestion_operands in Hq as (Ha & _ & t0 & t1 & Hb).
  apply drawOperands_pos in Hb; [|assumption].
  simpl in Hb. rewrite Ha. nia.
Qed.

(** The question on display is well-formed. *)
Lemma Reach_displayed_wellFormed d lang score n w :
  Reach sortRandomly (mount d lang score) n w ->
  forall q, currentQuestion (game w) = Some q -> wellFormed q.
Proof.
  intros HR. induction HR as [|n w e t w' t' HR IH Hs].
  - intros q Hq.
    destruct (mount_fields d lang score) as (_ & _ & _ & _ & _ & _ & M7 & _).
    congruence.
  - destruct (Reach_mount_levels _ _ _ _ _ _ HR) as [_ HC].
    destruct (isEvaluation (game w) e) eqn:He.
    + destruct (step_evaluation_fields _ _ _ _ _ _ Hs He)
        as (_ & _ & _ & _ & _ & _ & _ & _ & _ & _ & F11 & _).
      rewrite F11. exact IH.
    + apply step_cases in Hs as [(_ & -> & _) | (Hoff & Hs)]; [exact IH|].
      unfold isEvaluation in He. rewrite Hoff in He. simpl in He.
      destruct e; try discriminate.
      * destruct Hs as (q0 & Hb & ->). intros q Hq.
        injection Hq as <-.
        eapply buildQuestion_wellFormed; [|exact Hb].
        apply HC. now left.
      * destruct Hs as (-> & _). exact IH.
      * destruct Hs as [(_ & -> & _) | (tm & rest & q0 & Ht & Hb & ->)];
          [exact IH|].
        destruct (mounted (game w)); [|exact IH].
        intros q Hq.
        assert (q = q0) as ->
          by (destruct (clearsTypedAnswer tm); now injection Hq as <-).
        eapply buildQuestion_wellFormed; [|exact Hb].
        apply HC. right. rewrite Ht. now left.
Qed.

Lemma filter_eqb_NoDup (l : list Z) x :
  NoDup l -> In x l -> filter (fun o => o =? x) l = [x].
Proof.
  induction l as [|a l IH]; intros Hnd Hin; [contradiction|].
  inversion Hnd as [|? ? Hna Hnd']; subst. simpl.
  destruct (a =? x) eqn:E.
  - apply Z.eqb_eq in E. subst a. f_equal.
    clear IH Hin Hnd. induction l as [|b l IH]; [reflexivity|].
    simpl. destruct (b =? x) eqn:Eb.
    + apply Z.eqb_eq in Eb. subst b. exfalso. apply Hna. now left.
    + apply IH.
      * intros H. apply Hna. now right.
      * now inversion Hnd'.
  - apply Z.eqb_neq in E. destruct Hin as [Hin | Hin]; [congruence|].
    now apply IH.
Qed.

(** X11.  The option buttons.  Before the answer every button has the plain blue
    class.  Once the question is answered, the buttons of the four options
    that carry the green class are exactly one, the one of the answer; a
    button is red exactly when it shows the number recorded as the wrong
    selection, which is never the answer. *)
Theorem option_buttons_classes d lang score n w q :
  Reach sortRandomly (mount d lang score) n w ->
  currentQuestion (game w) = Some q ->
  (isAnswered (game w) = false ->
   forall o, getButtonClass (game w) o = "bg-blue-600 hover:bg-blue-700"%string)
  /\
  (isAnswered (game w) = true ->
   filter (fun o => String.eqb (getButtonClass (game w) o)
                               "bg-green-500 animate-pulse")
          (options q) = [answer q] /\
   (forall o, getButtonClass (game w) o = "bg-red-500"%string
              <-> feedback (game w) = Some (Int o)) /\
   feedback (game w) <> Some (Int (answer q))).
Proof.
  intros HR Hq. split.
  - intros Ha o. unfold getButtonClass. rewrite Ha. reflexivity.
  - intros Ha.
    destruct (Reach_displayed_wellFormed _ _ _ _ _ HR q Hq)
      as (_ & Hin & _ & Hnd & _).
    assert (feedback (game w) <> Some (Int (answer q))) as Hfb.
    { intros Hf. destruct (Reach_feedback _ _ _ _ _ HR _ Hf) as [_ Hs].
      rewrite Hq in Hs. simpl in Hs. rewrite Z.eqb_refl in Hs. discriminate. }
    split; [|split; [|exact Hfb]].
    + rewrite <- (filter_eqb_NoDup (options q) (answer q) Hnd Hin).
      apply filter_ext. intros o. unfold getButtonClass.
      rewrite Ha, Hq. simpl.
      destruct (o =? answer q); [reflexivity|].
      destruct (isIncorrectSelection (feedback (game w)) o); reflexivity.
    + intros o. unfold getButtonClass. rewrite Ha, Hq. simpl.
      destruct (o =? answer q) eqn:E.
      * apply Z.eqb_eq in E. subst o. split; [discriminate | congruence].
      * unfold isIncorrectSelection.
        destruct (feedback (game w)) as [[|v]|]; try (split; discriminate).
        destruct (o =? v) eqn:Ev.
        -- apply Z.eqb_eq in Ev. subst v. tauto.
        -- apply Z.eqb_neq in Ev. split; [discriminate|].
           intros [= ->]. congruence.
Qed.

End Display.

Section TypedField.

Variable sortRandomly : list Z -> Rand (list Z).


End TypedField.

(* ====================================================================== *)
(** ** [App] *)

Section AppFacts.

Variable sortRandomly : list Z -> Rand (list Z).

(** Every game screen was mounted at 0 points: the selector is reached only
    at the start and through [handleReset]. *)
Lemma AppReach_sessions a :
  AppReach sortRandomly a ->
  match a with
  | Selecting _ _ score _ => score = 0
  | OnScreen w _ => exists d lang n, Reach sortRandomly (mount d lang 0) n w
  end.
Proof.
  intros HA. induction HA as [|a ev t a' t' HA IH Hs]; [reflexivity|].
  destruct ev; simpl in Hs.
  - destruct a; apply ret_Some in Hs as [<- _]; exact IH.
  - apply ret_Some in Hs as [<- _]. destruct a as [d0 lang s orph | w orph];
      simpl; [|exact IH].
    subst s. exists d, lang, 0%nat. apply Reach_start.
  - apply ret_Some in Hs as [<- _]. destruct a; reflexivity.
  - destruct a as [d0 lang s orph | w orph].
    + apply ret_Some in Hs as [<- _]. exact IH.
    + apply bind_Some in Hs as (w1 & t1 & Hw & Hs).
      apply ret_Some in Hs as [<- _].
      destruct IH as (d & lang & n & HR).
      exists d, lang. eexists. eapply Reach_step; eassumption.
  - destruct (appOrphans a) as [|tm rest].
    + apply ret_Some in Hs as [<- _]. exact IH.
    + apply bind_Some in Hs as (g1 & t1 & _ & Hs).
      apply ret_Some in Hs as [<- _]. destruct a; exact IH.
Qed.

(** X13.  The score that [App] shows is always between 0 and 1004; the victory
    screen is up exactly when it is 1000 or more; and on the selector it is
    0, so that every game starts from 0 points. *)
Theorem app_score_and_victory a :
  AppReach sortRandomly a ->
  0 <= appScore a <= 1004 /\
  (appGameState a = won <-> 1000 <= appScore a) /\
  (appGameState a = selecting_difficulty -> appScore a = 0) /\
  match a with
  | Selecting _ _ _ _ => True
  | OnScreen w _ => exists d lang n, Reach sortRandomly (mount d lang 0) n w
  end.
Proof.
  intros HA. pose proof (AppReach_sessions a HA) as H.
  destruct a as [d lang s orph | w orph]; simpl in *.
  - subst s. repeat split; try lia; try discriminate; auto.
  - destruct H as (d & lang & n & HR).
    destruct (Reach_win _ _ _ _ _ _ HR) as [Hw Hk].
    pose proof (Reach_score_bounds _ _ _ _ _ HR) as Hb.
    split; [exact Hb|]. split; [exact Hw|]. split.
    + intros Hsel. destruct Hk as [Hk | Hk]; congruence.
    + now exists d, lang, n.
Qed.

End AppFacts.

(* ====================================================================== *)
(** ** [speakText] *)

Lemma find_filter_Some {A} (f p : A -> bool) l v :
  find f (filter p l) = Some v -> In v l /\ p v = true /\ f v = true.
Proof.
  intros H. apply find_some in H as [Hin Hf].
  apply filter_In in Hin as [Hin Hp]. auto.
Qed.

Lemma find_filter_None {A} (f p : A -> bool) l :
  find f (filter p l) = None ->
  forall v, In v l -> p v = true -> f v = false.
Proof.
  intros H v Hin Hp. eapply find_none; [exact H|].
  apply filter_In. auto.
Qed.

Lemma filter_head {A} (p : A -> bool) l v rest :
  filter p l = v :: rest -> In v l /\ p v = true.
Proof.
  intros H. apply filter_In. rewrite H. now left.
Qed.

Lemma filter_nil_none {A} (p : A -> bool) l :
  filter p l = [] -> forall v, In v l -> p v = false.
Proof.
  intros H v Hin. destruct (p v) eqn:E; [|reflexivity].
  assert (In v (filter p l)) as Hf by (apply filter_In; auto).
  rewrite H in Hf. contradiction.
Qed.

(** X14.  The voice of an utterance is an installed voice of the language asked
    for, and it is missing only when no installed voice has that language;
    text and language tag are set in any case. *)
Theorem spoken_voice_is_installed voices text language :
  let u := speakText_utterance voices text language in
  utteranceText u = text /\
  utteranceLang u = languageTag language /\
  (forall v, utteranceVoice u = Some v ->
             In v voices /\ speaksLanguage language v = true) /\
  (utteranceVoice u = None <->
   forall v, In v voices -> speaksLanguage language v = false).
Proof.
  destruct language; cbv zeta; unfold speakText_utterance, speaksLanguage.
  - (* English *)
    destruct (find (hasNameAmong preferredEnNames) (filter isEnglishVoice voices))
      as [v0|] eqn:Ef.
    + apply find_filter_Some in Ef as (Hin & Hp & _).
      cbn. repeat split; try discriminate.
      * now injection H as <-.
      * now injection H as <-.
      * intros Hn. rewrite (Hn v0 Hin) in Hp. discriminate.
    + destruct (filter isEnglishVoice voices) as [|v0 rest] eqn:El.
      * cbn. repeat split; try discriminate.
        intros _. now apply filter_nil_none.
      * apply filter_head in El as [Hin Hp].
        destruct (includes (toLowerCase (voiceName v0)) "david"
                  || includes (toLowerCase (voiceName v0)) "desktop");
          cbn; repeat split; try discriminate;
          try (now injection H as <-);
          intros Hn; rewrite (Hn v0 Hin) in Hp; discriminate.
  - (* Hebrew *)
    destruct (find (hasNameAmong preferredHeNames) (filter isHebrewVoice voices))
      as [v0|] eqn:Ef.
    + apply find_filter_Some in Ef as (Hin & Hp & _).
      cbn. repeat split; try discriminate.
      * now injection H as <-.
      * now injection H as <-.
      * intros Hn. rewrite (Hn v0 Hin) in Hp. discriminate.
    + destruct (filter isHebrewVoice voices) as [|v0 rest] eqn:El.
      * cbn. repeat split; try discriminate.
        intros _. now apply filter_nil_none.
      * apply filter_head in El as [Hin Hp].
        cbn; repeat split; try discriminate;
          try (now injection H as <-);
          intros Hn; rewrite (Hn v0 Hin) in Hp; discriminate.
  - (* Russian *)
    cbn [utteranceText utteranceLang utteranceVoice languageTag].
    destruct (find (fun v => includes (voiceName v) "Google")
                   (filter isRussianVoice voices)) as [v0|] eqn:Ef.
    + apply find_filter_Some in Ef as (Hin & Hp & _).
      repeat split; try discriminate.
      * now injection H as <-.
      * now injection H as <-.
      * intros Hn. rewrite (Hn v0 Hin) in Hp. discriminate.
    + destruct (filter isRussianVoice voices) as [|v0 rest] eqn:El.
      * cbn. repeat split; try discriminate.
        intros _. now apply filter_nil_none.
      * apply filter_head in El as [Hin Hp].
        cbn; repeat split; try discriminate;
          try (now injection H as <-);
          intros Hn; rewrite (Hn v0 Hin) in Hp; discriminate.
Qed.

(** X15.  A voice with a preferred name wins and is left untuned: when some
    installed voice of the language has one, the selected voice has one and
    pitch and rate are 1.  Pitch and rate are lowered (to 0.9, and the rate
    to 0.85 for Hebrew) only on a selected voice without a preferred name,
    and never for Russian. *)
Theorem preferred_voice_and_tuning voices text language :
  let u := speakText_utterance voices text language in
  (forall v0,
     In v0 voices -> speaksLanguage language v0 = true ->
     hasPreferredName language v0 = true ->
     exists v, utteranceVoice u = Some v /\ hasPreferredName language v = true /\
               utterancePitch u = 1%Q /\ utteranceRate u = 1%Q)
  /\
  ((utterancePitch u = 1%Q /\ utteranceRate u = 1%Q)
   \/
   (language <> Russian /\
    utterancePitch u = (9 # 10)%Q /\
    utteranceRate u = match language with
                      | Hebrew => (17 # 20)%Q
                      | _ => (9 # 10)%Q
                      end /\
    exists v, utteranceVoice u = Some v /\ hasPreferredName language v = false)).
Proof.
  destruct language; cbv zeta;
    unfold speakText_utterance, speaksLanguage, hasPreferredName.
  - destruct (find (hasNameAmong preferredEnNames) (filter isEnglishVoice voices))
      as [v1|] eqn:Ef.
    + destruct (find_filter_Some _ _ _ _ Ef) as (Hin & Hp & Hf).
      cbn [utteranceVoice utterancePitch utteranceRate]. split; [|left; auto].
      intros v0 _ _ _. exists v1. auto.
    + pose proof (find_filter_None _ _ _ Ef) as Hnone.
      destruct (filter isEnglishVoice voices) as [|v1 rest] eqn:El.
      * pose proof (filter_nil_none _ _ El) as Hn. cbn [utteranceVoice utterancePitch utteranceRate]. split; [|left; auto].
        intros v0 Hin Hp _. rewrite (Hn v0 Hin) in Hp. discriminate.
      * apply filter_head in El as [Hin1 Hp1].
        assert (forall v0, In v0 voices -> isEnglishVoice v0 = true ->
                  hasNameAmong preferredEnNames v0 = true -> False) as Hno.
        { intros v0 Hin Hp Hpref. rewrite (Hnone v0 Hin Hp) in Hpref.
          discriminate. }
        destruct (includes (toLowerCase (voiceName v1)) "david"
                  || includes (toLowerCase (voiceName v1)) "desktop");
          cbn [utteranceVoice utterancePitch utteranceRate].
        -- split; [intros v0 Hin Hp Hpref; exfalso; eauto|].
           right. split; [discriminate|]. split; [reflexivity|].
           split; [reflexivity|]. exists v1. split; [reflexivity|].
           now apply Hnone.
        -- split; [intros v0 Hin Hp Hpref; exfalso; eauto | left; auto].
  - destruct (find (hasNameAmong preferredHeNames) (filter isHebrewVoice voices))
      as [v1|] eqn:Ef.
    + destruct (find_filter_Some _ _ _ _ Ef) as (Hin & Hp & Hf).
      cbn [utteranceVoice utterancePitch utteranceRate]. split; [|left; auto].
      intros v0 _ _ _. exists v1. auto.
    + pose proof (find_filter_None _ _ _ Ef) as Hnone.
      destruct (filter isHebrewVoice voices) as [|v1 rest] eqn:El.
      * pose proof (filter_nil_none _ _ El) as Hn. cbn [utteranceVoice utterancePitch utteranceRate]. split; [|left; auto].
        intros v0 Hin Hp _. rewrite (Hn v0 Hin) in Hp. discriminate.
      * apply filter_head in El as [Hin1 Hp1].
        cbn [utteranceVoice utterancePitch utteranceRate].
        split.
        -- intros v0 Hin Hp Hpref. rewrite (Hnone v0 Hin Hp) in Hpref.
           discriminate.
        -- right. split; [discriminate|]. split; [reflexivity|].
           split; [reflexivity|]. exists v1. split; [reflexivity|].
           now apply Hnone.
  - cbn [utteranceVoice utterancePitch utteranceRate].
    split; [|left; auto].
    intros v0 Hin Hp Hpref.
    destruct (find (fun v => includes (voiceName v) "Google")
                   (filter isRussianVoice voices)) as [v1|] eqn:Ef.
    + destruct (find_filter_Some _ _ _ _ Ef) as (_ & _ & Hf).
      exists v1. auto.
    + rewrite (find_filter_None _ _ _ Ef v0 Hin Hp) in Hpref. discriminate.
Qed.

(* ====================================================================== *)
(** ** The two copies of [generateQuestion] *)

Lemma drawOperands_below_100 g t :
  robuxScore g < 100 -> drawOperands g t = ruleCascade g t.
Proof.
  intros Hs. unfold drawOperands, bind.
  destruct (ruleCascade g t) as [[[a b] t1]|]; [|reflexivity].
  unfold noOnesRule.
  assert ((robuxScore g >=? 100) = false) as -> by lia.
  reflexivity.
Qed.

Lemma operandLoop_ext body1 body2 last fuel :
  (forall t, body1 t = body2 t) ->
  forall t, operandLoop body1 last fuel t = operandLoop body2 last fuel t.
Proof.
  intros Hb. induction fuel as [|fuel IH]; intros t; [reflexivity|].
  simpl. unfold bind. rewrite Hb.
  destruct (body2 t) as [[p t1]|]; [|reflexivity].
  destruct (isRepeated last p); [apply IH | reflexivity].
Qed.

Section Copies.

Variable sortRandomly : list Z -> Rand (list Z).

Lemma buildQuestion_ext body1 body2 c t :
  (forall t0, body1 t0 = body2 t0) ->
  buildQuestion sortRandomly body1 c t = buildQuestion sortRandomly body2 c t.
Proof.
  intros Hb. unfold buildQuestion, bind.
  rewrite (operandLoop_ext body1 body2 _ _ Hb). reflexivity.
Qed.

(** X16.  Below 100 points the "NEW RULE" step does nothing: on every sequence of
    results of [Math.random], [generateQuestion] of [index.tsx] and the one
    of [part_000] show the same question and leave the same results unread,
    or fail together. *)
Theorem copies_agree_below_100 c now t :
  robuxScore c < 100 ->
  generateQuestion sortRandomly c now t
  = generateQuestion_part_000 sortRandomly c now t.
Proof.
  intros Hs. unfold generateQuestion, generateQuestion_part_000, bind.
  rewrite (buildQuestion_ext (drawOperands c) (ruleCascade c) c t);
    [reflexivity|].
  intros t0. now apply drawOperands_below_100.
Qed.

End Copies.

(* ====================================================================== *)
(** ** The further properties at concrete inputs *)


Lemma options_near_answer_witness :
  exists q,
    currentQuestion (showQuestion questionA (game hardStart)) = Some q /\
    Forall (fun o => Z.abs (o - answer q)
                     <= Z.max 12 (5 * Z.max (Z.abs (num1 q)) (Z.abs (num2 q))))
           (options q).
Proof.
  exact (options_near_answer insertionSortRandomly insertionSortRandomly_permutes
           (game hardStart) (game hardStart) tapeA
           (showQuestion questionA (game hardStart)) [] eq_refl).
Defined.

Lemma win_at_1000_and_final_witness :
  ((gameState (game answeredA) = won <-> 1000 <= robuxScore (game answeredA)) /\
   0 <= robuxScore (game answeredA) <= 1004)
  /\
  game (mkWorld (game victory) []) = game victory.
Proof.
  split.
  - exact (proj1 (win_at_1000_and_final insertionSortRandomly)
             Hard English 1%nat answeredA Reach_answeredA).
  - assert (step insertionSortRandomly victory TimerFires tapeB
            = Some (mkWorld (game victory) [], [])) as Hs by reflexivity.
    exact (proj2 (win_at_1000_and_final insertionSortRandomly)
             victory TimerFires tapeB (mkWorld (game victory) []) []
             eq_refl Hs).
Defined.

Lemma score_needs_correct_answers_witness :
  robuxScore (game answeredA) <= 5 * correctAnswersCount (game answeredA) /\
  0 <= correctStreak (game answeredA) <= correctAnswersCount (game answeredA) /\
  correctAnswersCount (game answeredA) <= Z.of_nat 1 /\
  (gameState (game answeredA) = won ->
   200 <= correctAnswersCount (game answeredA)).
Proof.
  exact (score_needs_correct_answers insertionSortRandomly
           Hard English 1%nat answeredA Reach_answeredA).
Defined.


Lemma difficulty_level_never_matters_witness :
  difficulty (game hardPlaying) = Hard /\
  0 <= difficultyLevel (game hardPlaying) <= tierLevel Hard /\
  ruleCascade (setDifficultyLevel (fun _ => tierLevel Hard) (game hardPlaying))
  = ruleCascade (game hardPlaying).
Proof.
  exact (difficulty_level_never_matters insertionSortRandomly
           Hard English 0 1%nat answeredA (game hardPlaying) Reach_answeredA
           (or_intror (or_introl eq_refl))).
Defined.

Lemma typed_numeral_like_click_witness :
  option_map (fun r => (game (fst r), snd r))
             (handleTypedAnswerSubmit (typing "48"%string) [0%Q])
  = option_map (fun r => (game (fst r), snd r))
               (handleAnswer (typing "48"%string) 48 [0%Q])
  /\
  option_map (fun r => timers (fst r))
             (handleTypedAnswerSubmit (typing "48"%string) [0%Q])
  = option_map (fun r => timers (typing "48"%string)
                         ++ [mkTimer true (game (typing "48"%string))])
               (handleAnswer (typing "48"%string) 48 [0%Q]).
Proof.
  destruct (typed_numeral_like_click (typing "48"%string) 48 [0%Q] eq_refl)
    as [Hg Ht].
  split; [exact Hg | exact (Ht eq_refl)].
Defined.

Lemma compliment_is_drawn_in_range_witness :
  (exists s,
     randomCompliment (game (typing "48"%string)) [3 # 4]%Q = Some (s, []) /\
     (950 <= robuxScore (game (typing "48"%string)) ->
      In s HIGH_SCORE_COMPLIMENTS) /\
     (robuxScore (game (typing "48"%string)) < 950 -> In s COMPLIMENTS))
  /\
  evaluate (game hardPlaying) (Int 48) (game hardPlaying) [0%Q]
  = Some (afterCorrect (game hardPlaying), []).
Proof.
  split.
  - exact (proj1 compliment_is_drawn_in_range
             (game (typing "48"%string)) (3 # 4)%Q [] eq_refl).
  - exact (proj2 compliment_is_drawn_in_range
             (game hardPlaying) (Int 48) (game hardPlaying) 0%Q []
             eq_refl eq_refl).
Defined.

Lemma hardPlaying_to_misclickedA :
  step insertionSortRandomly hardPlaying (ClickOption 56) []
  = Some (misclickedA, []).
Proof. reflexivity. Qed.

Lemma Reach_misclickedA :
  Reach insertionSortRandomly (mount Hard English 0) 1 misclickedA.
Proof.
  exact (Reach_step insertionSortRandomly _ _ _ _ _ _ _
           (Reach_step insertionSortRandomly _ _ _ _ _ _ _
              (Reach_start _ _) hardStart_to_hardPlaying)
           hardPlaying_to_misclickedA).
Qed.

Lemma option_buttons_classes_witness :
  (forall o, getButtonClass (game hardPlaying) o
             = "bg-blue-600 hover:bg-blue-700"%string)
  /\
  filter (fun o => String.eqb (getButtonClass (game misclickedA) o)
                              "bg-green-500 animate-pulse")
         (options questionA) = [answer questionA] /\
  (forall o, getButtonClass (game misclickedA) o = "bg-red-500"%string
             <-> feedback (game misclickedA) = Some (Int o)) /\
  feedback (game misclickedA) <> Some (Int (answer questionA)).
Proof.
  split.
  - exact (proj1 (option_buttons_classes insertionSortRandomly
                    insertionSortRandomly_permutes
                    Hard English 0 0%nat hardPlaying questionA
                    (Reach_step insertionSortRandomly _ _ _ _ _ _ _
                       (Reach_start _ _) hardStart_to_hardPlaying)
                    eq_refl) eq_refl).
  - exact (proj2 (option_buttons_classes insertionSortRandomly
                    insertionSortRandomly_permutes
                    Hard English 0 1%nat misclickedA questionA
                    Reach_misclickedA eq_refl) eq_refl).
Defined.


Lemma app_score_and_victory_witness :
  0 <= appScore (OnScreen hardStart []) <= 1004 /\
  (appGameState (OnScreen hardStart []) = won
   <-> 1000 <= appScore (OnScreen hardStart [])) /\
  (appGameState (OnScreen hardStart []) = selecting_difficulty ->
   appScore (OnScreen hardStart []) = 0) /\
  exists d lang n, Reach insertionSortRandomly (mount d lang 0) n hardStart.
Proof.
  exact (app_score_and_victory insertionSortRandomly (OnScreen hardStart [])
           (AppReach_step insertionSortRandomly initialApp
              (SelectDifficulty Hard) [] (OnScreen hardStart []) []
              (AppReach_start _) eq_refl)).
Defined.

Lemma spoken_voice_is_installed_witness :
  (In (mkVoice "Microsoft Zira - English (United States)" "en-US")
      installedVoices /\
   speaksLanguage English
     (mkVoice "Microsoft Zira - English (United States)" "en-US") = true)
  /\
  utteranceVoice (speakText_utterance [] "6 times 8" English) = None.
Proof.
  split.
  - exact (proj1 (proj2 (proj2
             (spoken_voice_is_installed installedVoices "6 times 8" English)))
             _ eq_refl).
  - apply (proj2 (proj2 (proj2
             (spoken_voice_is_installed [] "6 times 8" English)))).
    intros v [].
Defined.

Lemma preferred_voice_and_tuning_witness :
  exists v,
    utteranceVoice (speakText_utterance installedVoices "6 times 8" English)
    = Some v /\
    hasPreferredName English v = true /\
    utterancePitch (speakText_utterance installedVoices "6 times 8" English)
    = 1%Q /\
    utteranceRate (speakText_utterance installedVoices "6 times 8" English)
    = 1%Q.
Proof.
  exact (proj1 (preferred_voice_and_tuning installedVoices "6 times 8" English)
           (mkVoice "Microsoft Zira - English (United States)" "en-US")
           (or_intror (or_intror (or_introl eq_refl))) eq_refl eq_refl).
Defined.

Lemma copies_agree_below_100_witness :
  generateQuestion insertionSortRandomly (game hardStart) (game hardStart) tapeA
  = generateQuestion_part_000 insertionSortRandomly
      (game hardStart) (game hardStart) tapeA.
Proof.
  exact (copies_agree_below_100 insertionSortRandomly
           (game hardStart) (game hardStart) tapeA eq_refl).
Defined.

(* ====================================================================== *)
(** ** [Math.floor(Math.random() * n)] against the exact product *)

Lemma Qfloor_mul r n : Qfloor (r * inject_Z n) = (Qnum r * n) / Zpos (Qden r).
Proof.
  destruct r as [a b]. unfold Qfloor. simpl. now rewrite Pos.mul_1_r.
Qed.

(** The rounded product is not below the integers that the exact one
    reaches, as long as the integers near it are binary64 numbers. *)
Lemma floorMul_ge_floor r n :
  in_unit r = true -> 0 < n <= 2 ^ 53 ->
  (Qnum r * n) / Zpos (Qden r) <= floorMul r n.
Proof.
  intros Hr Hn. unfold in_unit in Hr.
  apply andb_true_iff in Hr as [Hr _]. apply andb_true_iff in Hr as [H0 H1].
  apply negb_true_iff in H1.
  destruct r as [a b]. unfold Qle_bool in H0, H1. simpl in H0, H1.
  apply Z.leb_le in H0. apply Z.leb_gt in H1.
  assert (0 <= a < Z.pos b) as Ha by lia. clear H0 H1.
  unfold floorMul. cbn [Qnum Qden].
  destruct (Z.eq_dec a 0) as [-> | Hne]; [reflexivity|].
  destruct (toDouble (a * n) (Z.pos b)) as [m s] eqn:E.
  assert (0 < a * n) as Hpos by nia.
  destruct (toDouble_error (a * n) (Z.pos b) m s Hpos ltac:(lia) E)
    as (Hq & Hm & _ & _ & R & _ & C).
  assert (s <= 0) as Hs.
  { destruct (Z_le_dec s 0); [assumption|]. destruct C as [C | [C _]]; [|lia].
    rewrite (Z.max_l s 0), (Z.max_r (- s) 0) in C by lia.
    rewrite Z.pow_0_r, Z.mul_1_r in C.
    assert (2 <= 2 ^ s).
    { change 2 with (2 ^ 1) at 1. apply Z.pow_le_mono_r; lia. }
    change (2 ^ 53) with (2 * 2 ^ 52) in Hn.
    remember (2 ^ 52) as K. assert (0 < K) by (subst K; reflexivity).
    remember (2 ^ s) as T. nia. }
  rewrite (Z.max_r s 0), (Z.max_l (- s) 0) in R by lia.
  rewrite Z.pow_0_r, Z.mul_1_r in R.
  destruct (shiftl_cases m s) as [[Hs' ->] | [Hs' ->]].
  - assert (s = 0) as -> by lia. simpl in R.
    rewrite Z.mul_1_r in *. exact R.
  - assert (0 < 2 ^ (- s)) as Ps by (apply Z.pow_pos_nonneg; lia).
    apply Z.div_le_lower_bound; [exact Ps|].
    eapply Z.le_trans; [|exact R].
    apply Z.div_le_lower_bound; [lia|].
    pose proof (Z.mul_div_le (a * n) (Z.pos b) ltac:(lia)).
    remember (a * n / Z.pos b) as f. remember (2 ^ (- s)) as T. nia.
Qed.

(** Products that the rounding changes: on these results of the oracle the
    exact product is just below an integer and the rounded one is that
    integer. *)
Lemma product_rounds_up :
  floorMul (2573485501354569 # 2 ^ 52) 7 = 4 /\
  Qfloor ((2573485501354569 # 2 ^ 52) * 7) = 3 /\
  floorMul (3752999689475413 # 2 ^ 52) 6 = 5 /\
  floorMul (3152519739159347 # 2 ^ 52) 10 = 7.
Proof. repeat split; reflexivity. Qed.

(** X17.  [Math.floor(Math.random() * n)], for an integer [n] from 1 to
    [2^53]: the result is one of [0 .. n - 1]; it is the floor of the exact
    product or one more, and one more only when the exact product is within
    a factor [1 + 2^-53] of it. *)
Theorem random_draw_in_range r n :
  in_unit r = true -> 0 < n <= 2 ^ 53 ->
  0 <= floorMul r n < n /\
  Qfloor (r * inject_Z n) <= floorMul r n <= Qfloor (r * inject_Z n) + 1 /\
  (inject_Z (floorMul r n) <= r * inject_Z n * (1 + (1 # 2 ^ 53)))%Q.
Proof.
  intros Hr Hn.
  pose proof (floorMul_range r n Hr ltac:(lia)) as Hk.
  pose proof (floorMul_ge_floor r n Hr Hn) as Hf.
  destruct (floorMul_uniform r n 0 Hr ltac:(lia)) as (_ & U & _).
  replace (0 + n - 1 - 0 + 1) with n in U by lia.
  replace (floorMul r n + 0 - 0) with (floorMul r n) in U by lia.
  split; [exact Hk|]. split; [|exact U].
  rewrite Qfloor_mul. split; [exact Hf|].
  apply in_unit_spec in Hr as [Ha Hr].
  destruct (floorMul_spec r n Ha ltac:(lia)) as (_ & H1 & _).
  pose proof (Z.div_mod (Qnum r * n) (Z.pos (Qden r)) ltac:(lia)) as Hd.
  pose proof (Z.mod_pos_bound (Qnum r * n) (Z.pos (Qden r)) ltac:(lia)) as Hm.
  remember (floorMul r n) as k. remember (Qnum r * n / Z.pos (Qden r)) as f.
  remember (Qnum r * n mod Z.pos (Qden r)) as rem.
  remember (Qnum r) as a. remember (Z.pos (Qden r)) as b.
  remember (2 ^ 53) as K. assert (0 < K) by (subst K; reflexivity).
  assert (0 < b) by (subst b; lia).
  assert (a * n < b * K) by nia.
  assert (k * b * K < (f + 2) * b * K) by nia.
  nia.
Qed.

(* ====================================================================== *)
(** ** Sessions in which the question shown is one answer behind *)

(** C4.  An Easy session from the mount: twenty correct answers bring the
    score to 100, and the timeout of the twentieth shows 2 x 1.  The
    callback runs the [generateQuestion] of the render in which the answer
    was given, where the score was 95, so the rule against the operand 1
    does not apply to the first question asked at 100 points. *)
Lemma operand_one_at_100_points :
  exists w w',
    run insertionSortRandomly (mount Easy English 0)
        (sessionEvents 12 18 9 ++ [ClickOption 12; TimerFires; ClickOption 18])
        (sessionTape easyBlockA easyBlockB 9 ++ [0%Q] ++ easyBlockB ++ [0%Q])
    = Some (w, []) /\
    robuxScore (game w) = 100 /\
    step insertionSortRandomly w TimerFires easyBlockOne = Some (w', []) /\
    robuxScore (game w') = 100 /\
    isAnswered (game w') = false /\
    currentQuestion (game w') = Some (mkQuestion 2 1 2 [3; 2; 4; 6]).
Proof.
  eexists. eexists. split; [lazy; reflexivity|].
  split; [reflexivity|]. split; [lazy; reflexivity|].
  repeat split; reflexivity.
Qed.

(** C6.  An Easy session from the mount: thirty correct answers, then a
    wrong one.  The state then has no streak, so that the ranges of the
    fallback rule computed from it are 1 .. 4 for both operands; the timeout
    of the wrong answer shows 14 x 7, drawn with the streak of 30 that the
    render before the answer had. *)
Lemma fallback_range_after_lost_streak :
  exists w w',
    run insertionSortRandomly (mount Easy English 0)
        (sessionEvents 12 18 15 ++ [ClickOption 18])
        (sessionTape easyBlockA easyBlockB 15)
    = Some (w, []) /\
    correctStreak (game w) = 0 /\
    ruleCascade (game w) = fallbackRule (game w) /\
    maxNum1 (game w) = 4 /\ maxNum2 (game w) = 4 /\
    step insertionSortRandomly w TimerFires fallbackBlock = Some (w', []) /\
    maxNum1 (game w') = 4 /\ maxNum2 (game w') = 4 /\
    isAnswered (game w') = false /\
    currentQuestion (game w') = Some (mkQuestion 14 7 98 [105; 98; 112; 126]).
Proof.
  eexists. eexists. split; [lazy; reflexivity|].
  split; [reflexivity|]. split; [reflexivity|].
  split; [reflexivity|]. split; [reflexivity|].
  split; [lazy; reflexivity|].
  repeat split; reflexivity.
Qed.

(** C7.  A Moderate session from the mount: 160 correct answers bring the
    score to 800, where the cascade computed from the state is the
    score-override rule; the timeout of the last answer shows 4 x 6, drawn
    by the rule of the Moderate tier with the score of 795 that the render
    before the answer had. *)
Lemma tier_rule_at_800_points :
  exists w w',
    run insertionSortRandomly (mount Moderate English 0)
        (sessionEvents 24 30 79 ++ [ClickOption 24; TimerFires; ClickOption 30])
        (sessionTape moderateBlockA moderateBlockB 79
         ++ [0%Q] ++ moderateBlockB ++ [0%Q])
    = Some (w, []) /\
    robuxScore (game w) = 800 /\
    ruleCascade (game w) = highScoreRule /\
    step insertionSortRandomly w TimerFires moderateBlockA = Some (w', []) /\
    robuxScore (game w') = 800 /\
    isAnswered (game w') = false /\
    currentQuestion (game w') = Some (mkQuestion 4 6 24 [30; 24; 36; 48]).
Proof.
  eexists. eexists. split; [lazy; reflexivity|].
  split; [reflexivity|]. split; [reflexivity|].
  split; [lazy; reflexivity|].
  repeat split; reflexivity.
Qed.

(* ====================================================================== *)
(** ** The tiers at concrete inputs *)

Lemma moderateStart_to_moderatePlaying :
  step insertionSortRandomly (mount Moderate English 0) ClickStart moderateBlockA
  = Some (moderatePlaying, []).
Proof. reflexivity. Qed.

Lemma easyStart_to_easyPlaying :
  step insertionSortRandomly (mount Easy English 0) ClickStart easyBlockA
  = Some (easyPlaying, []).
Proof. reflexivity. Qed.

Lemma hard_tier_operands_witness :
  (exists r1 r2,
     [0; 1 # 2]%Q = r1 :: r2 :: [] /\
     drawnUniformly r1 6 9 6 /\ drawnUniformly r2 6 9 8)
  /\
  ((6 <= num1 questionA <= 9 /\ 6 <= num2 questionA <= 12) \/
   (6 <= num1 questionA <= 12 /\ 6 <= num2 questionA <= 9))
  /\
  (6 <= num1 questionA <= 9 /\ 6 <= num2 questionA <= 9 /\
   36 <= answer questionA <= 81).
Proof.
  split.
  - exact (proj1 (hard_tier_operands insertionSortRandomly)
             (game hardStart) [0; 1 # 2]%Q (6, 8) [] eq_refl eq_refl eq_refl).
  - destruct (proj2 (hard_tier_operands insertionSortRandomly)
                English 0 0%nat hardPlaying questionA
                (Reach_step insertionSortRandomly _ _ _ _ _ _ _
                   (Reach_start _ _) hardStart_to_hardPlaying)
                eq_refl) as [H1 H2].
    split; [exact H1 | exact (H2 eq_refl eq_refl)].
Defined.

Lemma moderate_tier_operands_witness :
  (exists r1 r2 r3 a b,
     [3 # 4; 0; 1 # 4]%Q = r1 :: r2 :: r3 :: [] /\
     (1, 7) = (if Qltb r3 (1 # 2) then (b, a) else (a, b)) /\
     drawnUniformly r1 4 7 a /\ drawnUniformly r2 1 10 b)
  /\
  (((4 <= 4 <= 7 /\ 1 <= 6 <= 10) \/ (1 <= 4 <= 10 /\ 4 <= 6 <= 7)) /\
   (105 <= robuxScore (game moderatePlaying) -> 2 <= 4 /\ 2 <= 6) /\
   4 <= 24 <= 70).
Proof.
  split.
  - exact (proj1 (moderate_tier_operands insertionSortRandomly)
             (game (mount Moderate English 0)) [3 # 4; 0; 1 # 4]%Q (1, 7) []
             eq_refl eq_refl eq_refl).
  - exact (proj2 (moderate_tier_operands insertionSortRandomly)
             English 0 0%nat moderatePlaying (mkQuestion 4 6 24 [30; 24; 36; 48])
             (Reach_step insertionSortRandomly _ _ _ _ _ _ _
                (Reach_start _ _) moderateStart_to_moderatePlaying)
             eq_refl eq_refl eq_refl).
Defined.

Lemma easy_intro_operands_witness :
  (exists r1 r2 r3 a b,
     [0; 0; 3 # 4]%Q = r1 :: r2 :: r3 :: [] /\
     (2, 1) = (if Qgtb r3 (1 # 2) then (a, b) else (b, a)) /\
     a = (if Qltb r1 (1 # 2) then 2 else 3) /\ drawnUniformly r2 1 10 b)
  /\
  (((2 <= 2 <= 3 /\ 1 <= 6 <= 10) \/ (1 <= 2 <= 10 /\ 2 <= 6 <= 3)) /\
   (105 <= robuxScore (game easyPlaying) -> 2 <= 2 /\ 2 <= 6) /\
   2 <= 12 <= 30).
Proof.
  split.
  - exact (proj1 (easy_intro_operands insertionSortRandomly)
             (game (mount Easy English 0)) [0; 0; 3 # 4]%Q (2, 1) []
             eq_refl eq_refl eq_refl eq_refl).
  - exact (proj2 (easy_intro_operands insertionSortRandomly)
             English 0 0%nat easyPlaying (mkQuestion 2 6 12 [18; 12; 24; 36])
             (Reach_step insertionSortRandomly _ _ _ _ _ _ _
                (Reach_start _ _) easyStart_to_easyPlaying)
             eq_refl eq_refl eq_refl eq_refl).
Defined.

Lemma random_draw_in_range_witness :
  0 <= floorMul (2573485501354569 # 2 ^ 52) 7 < 7 /\
  Qfloor ((2573485501354569 # 2 ^ 52) * inject_Z 7)
  <= floorMul (2573485501354569 # 2 ^ 52) 7
  <= Qfloor ((2573485501354569 # 2 ^ 52) * inject_Z 7) + 1 /\
  (inject_Z (floorMul (2573485501354569 # 2 ^ 52) 7)
   <= (2573485501354569 # 2 ^ 52) * inject_Z 7 * (1 + (1 # 2 ^ 53)))%Q.
Proof.
  apply (random_draw_in_range (2573485501354569 # 2 ^ 52) 7).
  - reflexivity.
  - split; [reflexivity | discriminate].
Defined.
